(** * A Minesweeper agent reasoning over CNF clauses

    Shallow embedding of [HW3/MineSweeperAI.py] (class [MineSweeperPlayer]),
    of the part of [HW3/MineSweeperGame.py] the player and the game loop
    call, and of the game loop of [HW3/RunGame.py], followed by the
    properties of the clause store, of resolution, of the hint-to-CNF
    translation, of the per-turn decision procedure and of a whole game.

    Conventions.
    - A literal is the Python triple [(row, col, polarity)]; a clause is a
      Python tuple of literals, hence a [list]: order and repetitions are part
      of the value, and [==] on clauses is equality of lists.
    - [self.KB] and [self.KB0] are Python sets of tuples, hence [gset clause].
      [set(clause)] is a [gset literal].
    - Python leaves the iteration order of a set unspecified, and in CPython
      it depends on how the set was built, not only on its elements.  Every
      place where the source iterates a set goes through the class
      [SetOrder]: an arbitrary duplicate-free enumeration of the elements,
      which for a set of literals may depend on the tuples the set was built
      from ([tuple(set(t))] is a function of the tuple [t]).  All results
      hold for every such enumeration.
    - A Python exception is the [None] of the [option] monad around a
      result; the Python value [None] is the [None] of an inner [option]. *)

From stdpp Require Import base option list numbers countable gmap sets fin_sets sorting.

Abbreviation cell := (Z * Z)%type.
Abbreviation literal := (Z * Z * bool)%type.
Abbreviation clause := (list (Z * Z * bool)).

(** ** Iteration order of Python sets *)

Class SetOrder := {
  (** [iter_lits from s]: the order in which the set of literals [s], built
      from the tuples [from], is enumerated. *)
  iter_lits : list clause → gset literal → list literal;
  iter_clauses : gset clause → list clause;
  iter_lits_NoDup : ∀ from s, NoDup (iter_lits from s);
  elem_of_iter_lits : ∀ from s x, x ∈ iter_lits from s ↔ x ∈ s;
  iter_clauses_NoDup : ∀ K, NoDup (iter_clauses K);
  elem_of_iter_clauses : ∀ K c, c ∈ iter_clauses K ↔ c ∈ K;
}.

(** Two admissible orders, used to run the model on concrete inputs: the
    order of [elements], and the one in which a set of literals keeps the
    order of the tuples it was built from. *)
Definition elements_order : SetOrder :=
  {| iter_lits := λ _, elements;
     iter_clauses := elements;
     iter_lits_NoDup := λ _, NoDup_elements;
     elem_of_iter_lits := λ _ s x, elem_of_elements s x;
     iter_clauses_NoDup := NoDup_elements;
     elem_of_iter_clauses := λ K c, elem_of_elements K c |}.

Definition in_tuple_order (from : list clause) (s : gset literal) : list literal :=
  let seen := remove_dups (concat from) in
  filter (λ x, x ∈ s) seen ++ filter (λ x, x ∉ seen) (elements s).

Definition tuple_order : SetOrder :=
  {| iter_lits := in_tuple_order;
     iter_clauses := elements;
     iter_lits_NoDup :=
       ltac:(intros from s; unfold in_tuple_order; apply NoDup_app;
             split; [apply NoDup_filter, NoDup_remove_dups|];
             split; [|apply NoDup_filter, NoDup_elements];
             intros x [_ H1]%list_elem_of_filter [H2 _]%list_elem_of_filter;
             by apply H2);
     elem_of_iter_lits :=
       ltac:(intros from s x; unfold in_tuple_order;
             rewrite elem_of_app, !list_elem_of_filter, elem_of_elements;
             destruct (decide (x ∈ remove_dups (concat from))); tauto);
     iter_clauses_NoDup := NoDup_elements;
     elem_of_iter_clauses := λ K c, elem_of_elements K c |}.

(** ** Literals and truthiness *)

(** [(literal[0], literal[1], not literal[2])] *)
Definition negate (l : literal) : literal := (l.1.1, l.1.2, negb l.2).

(** Truth value of a clause-or-None in a Python condition: [None] and the
    empty tuple are false. *)
Definition truthy (t : option clause) : bool :=
  match t with
  | Some (_ :: _) => true
  | _ => false
  end.

(** ** The game board ([MineSweeperGame]) *)

Record cell_state := { mine : bool; revealed : bool; marked : bool }.

Record MineSweeperGame := {
  rows : Z;
  cols : Z;
  mines : Z;
  board : list (list cell_state);
}.

(** Position denoted by a Python list index: negative indices count from the
    end, anything else out of range raises [IndexError]. *)
Definition py_pos (len : nat) (i : Z) : option nat :=
  if decide (0 ≤ i < Z.of_nat len)%Z then Some (Z.to_nat i)
  else if decide (- Z.of_nat len ≤ i < 0)%Z then Some (Z.to_nat (Z.of_nat len + i))
  else None.

Definition get_cell (g : MineSweeperGame) (row col : Z) : option cell_state :=
  i ← py_pos (length (board g)) row;
  line ← board g !! i;
  j ← py_pos (length line) col;
  line !! j.

Definition set_cell (g : MineSweeperGame) (row col : Z) (c : cell_state)
    : option MineSweeperGame :=
  i ← py_pos (length (board g)) row;
  line ← board g !! i;
  j ← py_pos (length line) col;
  Some {| rows := rows g; cols := cols g; mines := mines g;
          board := <[i := <[j := c]> line]> (board g) |}.

Definition game_mark_safe (g : MineSweeperGame) (row col : Z)
    : option MineSweeperGame :=
  c ← get_cell g row col;
  if revealed c then Some g
  else set_cell g row col {| mine := mine c; revealed := true; marked := marked c |}.

Definition game_mark_mine (g : MineSweeperGame) (row col : Z)
    : option MineSweeperGame :=
  c ← get_cell g row col;
  if marked c then Some g
  else set_cell g row col {| mine := mine c; revealed := revealed c; marked := true |}.

(** [range(a, b)] *)
Definition py_range (a b : Z) : list Z := seqZ a (b - a).

(** The body of the two nested loops, for one candidate cell. *)
Definition visit_neighbor (g : MineSweeperGame) (row col : Z)
    (acc : option (list cell * Z)) (rc : cell) : option (list cell * Z) :=
  '(neighbors, mine_count) ← acc;
  if decide (rc.1 ≠ row ∨ rc.2 ≠ col) then
    c ← get_cell g rc.1 rc.2;
    if negb (revealed c) && negb (marked c)
    then Some (neighbors ++ [rc], if mine c then (mine_count + 1)%Z else mine_count)
    else Some (neighbors, mine_count)
  else Some (neighbors, mine_count).

Definition game_get_unmarked_neighbors_and_mine_count
    (g : MineSweeperGame) (row col : Z) : option (list cell * Z) :=
  foldl (visit_neighbor g row col) (Some ([], 0%Z))
    (r ← py_range (Z.max (row - 1) 0) (Z.min (row + 2) (rows g));
     c ← py_range (Z.max (col - 1) 0) (Z.min (col + 2) (cols g));
     [(r, c)]).

Section Player.
Context {O : SetOrder}.

(** ** [subsumption_checking] and [resolve] *)

(** [tuple(clause1)], for the set [clause1 = set(clause1)], enumerates the
    set built from the tuple [clause1]. *)
Definition subsumption_checking (clause1 clause2 : clause) : option clause :=
  let s1 : gset literal := list_to_set clause1 in
  let s2 : gset literal := list_to_set clause2 in
  if decide (s1 ⊆ s2) then Some (iter_lits [clause1] s1)
  else if decide (s2 ⊆ s1) then Some (iter_lits [clause2] s2)
  else None.

(** The counting loop of [resolve]: the last literal of [clause1] whose
    complement is in [clause2], and how many there are. *)
Definition count_complementary (clause2 : gset literal)
    (acc : option literal * nat) (literal1 : literal) : option literal * nat :=
  if decide (negate literal1 ∈ clause2) then (Some literal1, S acc.2) else acc.

(** [clause2.remove(...)] cannot raise: the literal removed was found in
    [clause2] by the loop.  The union is a set built from both tuples. *)
Definition resolve (clause1 clause2 : clause) : option clause :=
  let s1 : gset literal := list_to_set clause1 in
  let s2 : gset literal := list_to_set clause2 in
  let '(literal_to_remove, complementary_literals_cnt) :=
    foldl (count_complementary s2) (None, 0) (iter_lits [clause1] s1) in
  match literal_to_remove with
  | Some l =>
      if decide (complementary_literals_cnt = 1)
      then Some (iter_lits [clause1; clause2]
                   ((s1 ∖ {[l]}) ∪ (s2 ∖ {[negate l]})))
      else None
  | None => None
  end.

Definition matching_clauses (clause1 clause2 : clause) : option clause * bool :=
  let clause := subsumption_checking clause1 clause2 in
  if truthy clause then (clause, true) else (resolve clause1 clause2, false).


(** ** The player ([MineSweeperPlayer]) *)

Record MineSweeperPlayer := {
  KB : gset clause;
  KB0 : gset clause;
  game : MineSweeperGame;
  initial_safe_cells : gset cell;
  KB_length_history : list nat;
}.

Definition set_KB (self : MineSweeperPlayer) (K : gset clause) :=
  {| KB := K; KB0 := KB0 self; game := game self;
     initial_safe_cells := initial_safe_cells self;
     KB_length_history := KB_length_history self |}.

Definition set_KB0 (self : MineSweeperPlayer) (K0 : gset clause) :=
  {| KB := KB self; KB0 := K0; game := game self;
     initial_safe_cells := initial_safe_cells self;
     KB_length_history := KB_length_history self |}.

Definition set_game (self : MineSweeperPlayer) (g : MineSweeperGame) :=
  {| KB := KB self; KB0 := KB0 self; game := g;
     initial_safe_cells := initial_safe_cells self;
     KB_length_history := KB_length_history self |}.

Definition set_history (self : MineSweeperPlayer) (h : list nat) :=
  {| KB := KB self; KB0 := KB0 self; game := game self;
     initial_safe_cells := initial_safe_cells self;
     KB_length_history := h |}.

(** [__init__]: the seeded safe cells enter [KB] directly, as negative
    single-literal clauses. *)
Definition init (g : MineSweeperGame) (safe : gset cell) : MineSweeperPlayer :=
  {| KB := set_map (λ c : cell, [(c.1, c.2, false)]) safe;
     KB0 := ∅; game := g; initial_safe_cells := safe;
     KB_length_history := [] |}.

Definition mark_safe (self : MineSweeperPlayer) (l : literal) : option MineSweeperPlayer :=
  set_game self <$> game_mark_safe (game self) l.1.1 l.1.2.

Definition mark_mine (self : MineSweeperPlayer) (l : literal) : option MineSweeperPlayer :=
  set_game self <$> game_mark_mine (game self) l.1.1 l.1.2.

Definition get_unmarked_neighbors_and_mine_count (self : MineSweeperPlayer)
    (l : literal) : option (list cell * Z) :=
  game_get_unmarked_neighbors_and_mine_count (game self) l.1.1 l.1.2.

(** ** The clause store: [unit_propagation] and [insert_clause_to_KB] *)

(** [s.add(x)] and [s.remove(x)]; the latter raises [KeyError] when [x] is
    absent. *)
Definition py_add (x : clause) (K : gset clause) : gset clause := {[x]} ∪ K.

Definition py_remove (x : clause) (K : gset clause) : option (gset clause) :=
  if decide (x ∈ K) then Some (K ∖ {[x]}) else None.

Fixpoint remove_each (l : list clause) (K : gset clause) : option (gset clause) :=
  match l with
  | [] => Some K
  | x :: l => K' ← py_remove x K; remove_each l K'
  end.

(** [tuple(literal for literal in clause if literal != x)] *)
Definition without (x : literal) (c : clause) : clause :=
  filter (λ literal, literal ≠ x) c.

(** Loop body of the single-literal branch of [unit_propagation], with
    [l0] standing for [clause[0]]; the accumulator is
    [(clauses_to_add, clauses_to_remove)]. *)
Definition propagate_unit (l0 : literal) (acc : gset clause * gset clause)
    (clause2 : clause) : gset clause * gset clause :=
  if decide (l0 ∈ clause2) then (acc.1, {[clause2]} ∪ acc.2)
  else if decide (negate l0 ∈ clause2)
  then ({[without (negate l0) clause2]} ∪ acc.1, {[clause2]} ∪ acc.2)
  else acc.

(** The loop over [KB0] of the other branch; it stops at the first committed
    fact whose literal occurs in [clause].  [clause0[0]] raises [IndexError]
    on an empty tuple. *)
Fixpoint check_against_KB0 (c : clause) (clauses_to_add : gset clause)
    (l : list clause) : option (gset clause) :=
  match l with
  | [] => Some clauses_to_add
  | clause0 :: l =>
      l0 ← head clause0;
      if decide (l0 ∈ c) then Some clauses_to_add
      else if decide (negate l0 ∈ c)
      then check_against_KB0 c ({[without (negate l0) c]} ∪ clauses_to_add) l
      else check_against_KB0 c clauses_to_add l
  end.

Definition unit_propagation (self : MineSweeperPlayer) (c : clause)
    : option MineSweeperPlayer :=
  '(clauses_to_add, clauses_to_remove) ←
    (if decide (length c = 1) then
       l0 ← head c;
       Some (foldl (propagate_unit l0) (∅, ∅) (iter_clauses (KB self)))
     else
       clauses_to_add ← check_against_KB0 c ∅ (iter_clauses (KB0 self));
       Some (clauses_to_add, ∅));
  let K := foldl (λ K clause_to_add, py_add clause_to_add K) (KB self)
             (iter_clauses clauses_to_add) in
  K ← remove_each (iter_clauses clauses_to_remove) K;
  Some (set_KB self K).

(** The resolution loop of [insert_clause_to_KB] over [KB0]: it stops at the
    first committed fact that gives no (or an empty) resolvent. *)
Fixpoint resolve_with_KB0 (c : clause) (l : list clause) : clause :=
  match l with
  | [] => c
  | clause0 :: l =>
      let new_clause := resolve c clause0 in
      if truthy new_clause then resolve_with_KB0 (default c new_clause) l else c
  end.

(** Outcome of the subsumption loop: the early [return None], or the end of
    the loop (by [break] or exhaustion) with the value of [clause_to_remove]. *)
Inductive scan_result :=
  | Return_None
  | Loop_done (clause_to_remove : option clause).

Fixpoint subsumption_scan (c : clause) (l : list clause) : scan_result :=
  match l with
  | [] => Loop_done None
  | clause2 :: l =>
      let strict_clause := subsumption_checking c clause2 in
      if negb (truthy strict_clause) then subsumption_scan c l
      else if decide (strict_clause = Some c) then Loop_done (Some clause2)
      else if decide (strict_clause = Some clause2) then Return_None
      else subsumption_scan c l
  end.

Definition insert_clause_to_KB (self : MineSweeperPlayer) (c : clause)
    : option (MineSweeperPlayer * option clause) :=
  if decide (c ∈ KB self ∨ c ∈ KB0 self) then Some (self, None)
  else
    self ← unit_propagation self c;
    let c := resolve_with_KB0 c (iter_clauses (KB0 self)) in
    match subsumption_scan c (iter_clauses (KB self)) with
    | Return_None => Some (self, None)
    | Loop_done clause_to_remove =>
        K ← (if truthy clause_to_remove
             then py_remove (default [] clause_to_remove) (KB self)
             else Some (KB self));
        Some (set_KB self (py_add c K), Some c)
    end.

(** ** The constraint generator: [generate_clauses] *)

(** [itertools.combinations(l, r)] for [r >= 0], in its lexicographic order
    of positions. *)
Fixpoint combinations {A} (l : list A) (r : nat) : list (list A) :=
  match r, l with
  | 0, _ => [[]]
  | S _, [] => []
  | S r', x :: l' => ((x ::.) <$> combinations l' r') ++ combinations l' r
  end.

(** [itertools.combinations] raises [ValueError] on a negative [r]. *)
Definition py_combinations {A} (l : list A) (r : Z) : option (list (list A)) :=
  if decide (0 ≤ r)%Z then Some (combinations l (Z.to_nat r)) else None.

Definition positive (c : cell) : literal := (c.1, c.2, true).
Definition negative (c : cell) : literal := (c.1, c.2, false).

(** The clauses [generate_clauses] passes to [insert_clause_to_KB], in the
    order of the calls. *)
Definition hint_clauses (unmarked_neighbors : list cell) (n : Z)
    : option (list clause) :=
  let m : Z := Z.of_nat (length unmarked_neighbors) in
  if decide (n = m) then Some ((λ c, [positive c]) <$> unmarked_neighbors)
  else if decide (n = 0%Z) then Some ((λ c, [negative c]) <$> unmarked_neighbors)
  else
    pos ← py_combinations unmarked_neighbors (m - n + 1);
    neg ← py_combinations unmarked_neighbors (n + 1);
    Some ((fmap (M:=list) positive <$> pos) ++ (fmap (M:=list) negative <$> neg)).

Fixpoint insert_each (self : MineSweeperPlayer) (l : list clause)
    : option MineSweeperPlayer :=
  match l with
  | [] => Some self
  | c :: l => r ← insert_clause_to_KB self c; insert_each r.1 l
  end.

Definition generate_clauses (self : MineSweeperPlayer)
    (unmarked_neighbors : list cell) (n : Z) : option MineSweeperPlayer :=
  cs ← hint_clauses unmarked_neighbors n;
  insert_each self cs.

(** ** Deadlock detection and guessing *)

(** The function counts the single-literal clauses of [KB] and returns
    nothing: a Python function that ends without [return] yields [None]. *)
Definition get_single_clause_count (self : MineSweeperPlayer) : option nat :=
  let single_clause_count :=
    foldl (λ cnt c, if decide (length c = 1) then S cnt else cnt) 0
      (iter_clauses (KB self)) in
  None.

(** Truth value of a count-or-None in a Python condition. *)
Definition truthy_count (n : option nat) : bool :=
  match n with
  | Some (S _) => true
  | _ => false
  end.

Definition stuck_KB_length : nat := 5.

Definition is_stuck (self : MineSweeperPlayer) : MineSweeperPlayer * bool :=
  let h := KB_length_history self ++ [size (KB self)] in
  let h := if decide (stuck_KB_length < length h) then drop 1 h else h in
  (set_history self h,
   bool_decide (size (list_to_set h : gset nat) = 1 ∧ length h = stuck_KB_length)).

(** The inner [for literal in clause] of [make_safe_guess]. *)
Definition first_safe_literal (c : clause) : option literal :=
  head (filter (λ literal : literal, literal.2 = false) c).

(** One pass of [for clause in self.KB] for a given [clause_len_limit]. *)
Fixpoint guess_of_length (clause_len_limit : nat) (l : list clause)
    : option (literal * clause) :=
  match l with
  | [] => None
  | c :: l =>
      if decide (length c = clause_len_limit) then
        match first_safe_literal c with
        | Some literal => Some (literal, c)
        | None => guess_of_length clause_len_limit l
        end
      else guess_of_length clause_len_limit l
  end.

(** The [while] loop, run for the [rounds] values of [clause_len_limit]
    from the given one on. *)
Fixpoint guess_from (rounds clause_len_limit : nat) (l : list clause)
    : option (literal * clause) :=
  match rounds with
  | 0 => None
  | S rounds =>
      match guess_of_length clause_len_limit l with
      | Some r => Some r
      | None => guess_from rounds (S clause_len_limit) l
      end
  end.

(** [clause_len_limit] runs from 2 to [max_clause_len]: that is
    [max_clause_len - 1] rounds (none when [max_clause_len < 2]). *)
Definition make_safe_guess (self : MineSweeperPlayer) : option (literal * clause) :=
  let max_clause_len :=
    foldl (λ m c, if decide (m < length c) then length c else m) 0
      (iter_clauses (KB self)) in
  guess_from (max_clause_len - 1) 2 (iter_clauses (KB self)).

(** ** The matching engine: [pairwise_matching_KB0] *)

(** The inner loop over [KB[j]] for one [KB0[i]]: either the early
    [return] with the clause to drop, or the updated
    [(clauses_to_add, clauses_to_remove)]. *)
Fixpoint match_fact (fact : clause) (l : list clause)
    (acc : gset clause * gset clause) : clause + gset clause * gset clause :=
  match l with
  | [] => inr acc
  | c :: l =>
      if decide (fact = c) then inl c
      else
        let '(new_clause, is_strict) := matching_clauses fact c in
        if is_strict then
          match_fact fact l
            (if decide (new_clause = Some fact) then (acc.1, {[c]} ∪ acc.2) else acc)
        else if truthy new_clause then
          match_fact fact l ({[default [] new_clause]} ∪ acc.1, acc.2)
        else match_fact fact l acc
  end.

Fixpoint match_facts (facts l : list clause) (acc : gset clause * gset clause)
    : clause + gset clause * gset clause :=
  match facts with
  | [] => inr acc
  | fact :: facts =>
      match match_fact fact l acc with
      | inl c => inl c
      | inr acc => match_facts facts l acc
      end
  end.

Definition pairwise_matching_KB0 (self : MineSweeperPlayer) : option MineSweeperPlayer :=
  let KB_list := iter_clauses (KB self) in
  let KB0_list := iter_clauses (KB0 self) in
  match match_facts KB0_list KB_list (∅, ∅) with
  | inl c => set_KB self <$> py_remove c (KB self)
  | inr (clauses_to_add, clauses_to_remove) =>
      K ← remove_each (iter_clauses clauses_to_remove) (KB self);
      insert_each (set_KB self K) (iter_clauses clauses_to_add)
  end.

(** ** The turn controller: [game_move] *)

(** What a turn did besides its result: the calls of [make_safe_guess]. *)
Inductive event := Called_make_safe_guess.

(** [for clause in self.KB: if len(clause) == 1: ...; break] *)
Definition find_single_literal_clause (self : MineSweeperPlayer) : option clause :=
  head (filter (λ c : clause, length c = 1) (iter_clauses (KB self))).

(** The result is the player after the turn, the cell acted on (or [None])
    and the trace of the turn. *)
Definition game_move (self : MineSweeperPlayer)
    : option (MineSweeperPlayer * option cell * list event) :=
  let single_clause_count := get_single_clause_count self in
  let '(self, stuck) := is_stuck self in
  if stuck && negb (truthy_count single_clause_count) then
    match make_safe_guess self with
    | None => Some (self, None, [Called_make_safe_guess])
    | Some (guess_safe_literal, guess_clause) =>
        K ← py_remove guess_clause (KB self);
        self ← mark_safe (set_KB self K) guess_safe_literal;
        '(unmarked_neighbors, n) ←
          get_unmarked_neighbors_and_mine_count self guess_safe_literal;
        self ← generate_clauses self unmarked_neighbors n;
        Some (set_KB0 self (py_add [guess_safe_literal] (KB0 self)),
              Some (guess_safe_literal.1.1, guess_safe_literal.1.2),
              [Called_make_safe_guess])
    end
  else
    match find_single_literal_clause self with
    | Some single_literal_clause =>
        l0 ← head single_literal_clause;
        self ← (if negb l0.2 then
                  self ← mark_safe self l0;
                  '(unmarked_neighbors, n) ←
                    get_unmarked_neighbors_and_mine_count self l0;
                  generate_clauses self unmarked_neighbors n
                else mark_mine self l0);
        let self := set_KB0 self (py_add single_literal_clause (KB0 self)) in
        K ← py_remove single_literal_clause (KB self);
        Some (set_KB self K, Some (l0.1.1, l0.1.2), [])
    | None =>
        self ← pairwise_matching_KB0 self;
        Some (self, None, [])
    end.

End Player.

Arguments subsumption_checking : simpl never.
Arguments resolve : simpl never.

(** ** Further functions of the two classes *)

(** [MineSweeperGame.lose]: the scan stops at the first revealed mine. *)
Fixpoint revealed_mine_among (g : MineSweeperGame) (l : list cell) : option bool :=
  match l with
  | [] => Some false
  | rc :: l =>
      c ← get_cell g rc.1 rc.2;
      if revealed c && mine c then Some true else revealed_mine_among g l
  end.

Definition all_cells (g : MineSweeperGame) : list cell :=
  r ← py_range 0 (rows g); c ← py_range 0 (cols g); [(r, c)].

Definition lose (g : MineSweeperGame) : option bool :=
  revealed_mine_among g (all_cells g).

(** [MineSweeperGame.win]: the scan answers [False] at the first cell that
    is neither revealed nor marked; after a full scan, the marked mines
    must be as many as [self.mines]. *)
Fixpoint win_scan (g : MineSweeperGame) (l : list cell) (marked_mines : Z)
    : option bool :=
  match l with
  | [] => Some (bool_decide (marked_mines = mines g))
  | rc :: l =>
      c ← get_cell g rc.1 rc.2;
      let marked_mines :=
        if marked c && mine c then (marked_mines + 1)%Z else marked_mines in
      if negb (revealed c) && negb (marked c) then Some false
      else win_scan g l marked_mines
  end.

Definition win (g : MineSweeperGame) : option bool := win_scan g (all_cells g) 0.

Section Player_more.
Context {O : SetOrder}.

(** [pairwise_matching]: the body of the two loops for the pair
    [(KB[i], KB[j])], [i < j]; the accumulator is
    [(clauses_to_add, clauses_to_remove)]. *)
Definition match_pair (x y : clause) (acc : gset clause * gset clause)
    : gset clause * gset clause :=
  if decide (length x ≤ 2 ∧ length y ≤ 2) then
    let '(new_clause, is_strict) := matching_clauses x y in
    if is_strict then
      if decide (new_clause = Some x) then (acc.1, {[y]} ∪ acc.2)
      else if decide (new_clause = Some y) then (acc.1, {[x]} ∪ acc.2)
      else acc
    else if truthy new_clause then ({[default [] new_clause]} ∪ acc.1, acc.2)
    else acc
  else acc.

(** The pairs are visited in the order of the indices: each clause of the
    list against the clauses after it. *)
Fixpoint match_pairs (l : list clause) (acc : gset clause * gset clause)
    : gset clause * gset clause :=
  match l with
  | [] => acc
  | x :: l => match_pairs l (foldl (λ acc y, match_pair x y acc) acc l)
  end.

Definition pairwise_matching (self : MineSweeperPlayer) : option MineSweeperPlayer :=
  let '(clauses_to_add, clauses_to_remove) :=
    match_pairs (iter_clauses (KB self)) (∅, ∅) in
  K ← remove_each (iter_clauses clauses_to_remove) (KB self);
  insert_each (set_KB self K) (iter_clauses clauses_to_add).

(** The driver's loop: [k] calls of [game_move] in a row. *)
Fixpoint moves (k : nat) (self : MineSweeperPlayer) : option MineSweeperPlayer :=
  match k with
  | 0 => Some self
  | S k => r ← game_move self; moves k r.1.1
  end.

(** The game loop of [RunGame.py], for [k] rounds: a round first asks the
    board whether the game is won, else whether it is lost, and calls
    [game_move] only if it is neither; once won or lost, the player is left
    as it is. *)
Fixpoint play (k : nat) (self : MineSweeperPlayer) : option MineSweeperPlayer :=
  match k with
  | 0 => Some self
  | S k =>
      win (game self) ≫= λ won : bool,
      if won then Some self
      else
        lose (game self) ≫= λ lost : bool,
        if lost then Some self
        else game_move self ≫= λ r, play k r.1.1
  end.

End Player_more.

(** ** Notions used to state the properties *)

Definition complementary (a b : clause) : gset literal :=
  filter (λ l, negate l ∈ (list_to_set b : gset literal)) (list_to_set a).
Definition tautology_free (c : clause) : Prop := ∀ l, l ∈ c → negate l ∉ c.


Definition unit_removed (l0 : literal) (K : gset clause) : gset clause :=
  filter (λ c, l0 ∈ c ∨ negate l0 ∈ c) K.
Definition unit_added (l0 : literal) (K : gset clause) : gset clause :=
  set_map (without (negate l0)) (filter (λ c : clause, (l0 ∉ c) ∧ negate l0 ∈ c) K).
Definition KB0_single_literal (self : MineSweeperPlayer) : Prop :=
  ∀ f, f ∈ KB0 self → length f = 1.

(** The player before any clause was inserted: [KB] and [KB0] empty. *)
Definition empty_player (g : MineSweeperGame) : MineSweeperPlayer :=
  {| KB := ∅; KB0 := ∅; game := g; initial_safe_cells := ∅;
     KB_length_history := [] |}.

(** No clause of [K] is a strict superset, as a set of literals, of another. *)
Definition subsumption_minimal (K : gset clause) : Prop :=
  ∀ c1 c2, c1 ∈ K → c2 ∈ K →
    ¬ (list_to_set c2 : gset literal) ⊂ list_to_set c1.

(** A board of the given size with no mine, nothing revealed or marked. *)
Definition blank_game (r c : nat) : MineSweeperGame :=
  {| rows := Z.of_nat r; cols := Z.of_nat c; mines := 0;
     board := replicate r (replicate c
                {| mine := false; revealed := false; marked := false |}) |}.

(** The incoming clause as the subsumption check of [insert_clause_to_KB]
    sees it: after the resolution loop over [KB0]. *)
Definition final_clause {O : SetOrder} (self : MineSweeperPlayer) (c : clause) : clause :=
  resolve_with_KB0 c (iter_clauses (KB0 self)).

(** Two clauses with the same literals, and two sets of clauses equal up to
    the order (and repetition) of the literals within a clause. *)
Definition same_literals (a b : clause) : Prop :=
  (list_to_set a : gset literal) = list_to_set b.

Definition same_clauses (K K' : gset clause) : Prop :=
  (∀ y, y ∈ K → ∃ z, z ∈ K' ∧ same_literals z y) ∧
  (∀ z, z ∈ K' → ∃ y, y ∈ K ∧ same_literals z y).

(** C8, first sentence as stated, for one store and one incoming clause: a
    clause equal as a set of literals to a stored one is inserted without
    effect on [KB] and [KB0], clauses being compared as sets of literals. *)
Definition set_identical_is_noop {O : SetOrder} (self : MineSweeperPlayer)
    (c : clause) : Prop :=
  (∃ x, (x ∈ KB self ∨ x ∈ KB0 self) ∧ same_literals x c) →
  ∃ self' r, insert_clause_to_KB self c = Some (self', r) ∧
    same_clauses (KB self) (KB self') ∧ same_clauses (KB0 self) (KB0 self').

(** An assignment of mines to the cells.  A literal [(r, c, p)] holds under
    it when cell [(r, c)] is a mine exactly if [p]; a clause holds when one
    of its literals does; a store is consistent with it when every clause of
    [KB] and [KB0] holds. *)
Definition holds (σ : cell → bool) (l : literal) : Prop := σ (l.1.1, l.1.2) = l.2.

Definition satisfies (σ : cell → bool) (c : clause) : Prop :=
  ∃ l, l ∈ c ∧ holds σ l.

Definition all_clauses (Q : clause → Prop) (self : MineSweeperPlayer) : Prop :=
  ∀ c, c ∈ KB self ∨ c ∈ KB0 self → Q c.

Definition consistent (σ : cell → bool) (self : MineSweeperPlayer) : Prop :=
  all_clauses (satisfies σ) self.

(** A store given by its two sets, on a blank 3x3 board. *)
Definition store (K K0 : gset clause) : MineSweeperPlayer :=
  {| KB := K; KB0 := K0; game := blank_game 3 3; initial_safe_cells := ∅;
     KB_length_history := [] |}.

(** The binomial coefficient, by Pascal's rule. *)
Fixpoint binomial (m k : nat) : nat :=
  match m, k with
  | _, 0 => 1
  | 0, S _ => 0
  | S m', S k' => binomial m' k' + binomial m' k
  end.

(** The cells the two loops of [get_unmarked_neighbors_and_mine_count]
    visit, and the tests they make on a cell. *)
Definition candidate_cells (g : MineSweeperGame) (row col : Z) : list cell :=
  r ← py_range (Z.max (row - 1) 0) (Z.min (row + 2) (rows g));
  c ← py_range (Z.max (col - 1) 0) (Z.min (col + 2) (cols g));
  [(r, c)].

Definition unmarked_at (g : MineSweeperGame) (rc : cell) : bool :=
  match get_cell g rc.1 rc.2 with
  | Some c => negb (revealed c) && negb (marked c)
  | None => false
  end.

Definition mine_at (g : MineSweeperGame) (rc : cell) : bool :=
  match get_cell g rc.1 rc.2 with
  | Some c => mine c
  | None => false
  end.

(** A cell of the board, by its coordinates counted from 0, and a clause
    that is true of the board: one of its literals holds for the mines of
    the board, and all its literals are about cells of the board. *)
Definition on_board (g : MineSweeperGame) (rc : cell) : Prop :=
  (0 ≤ rc.1 < rows g)%Z ∧ (0 ≤ rc.2 < cols g)%Z.

Definition true_on (g : MineSweeperGame) (c : clause) : Prop :=
  satisfies (mine_at g) c ∧ ∀ l, l ∈ c → on_board g (l.1.1, l.1.2).

(** A board with the size and the mines of [g]. *)
Definition same_board (g g' : MineSweeperGame) : Prop :=
  rows g' = rows g ∧ cols g' = cols g ∧ ∀ rc, mine_at g' rc = mine_at g rc.

(** The knowledge of a player is true of the board [g] it started on:
    [KB0] holds single-literal clauses about cells of the board, every
    clause of [KB] is true of the board, and, unless a revealed mine has
    lost the game, so is every committed fact. *)
Definition knowledge_true (g : MineSweeperGame) (self : MineSweeperPlayer) : Prop :=
  KB0_single_literal self ∧
  (∀ c, c ∈ KB self → true_on g c) ∧
  (∀ c l, c ∈ KB0 self → l ∈ c → on_board g (l.1.1, l.1.2)) ∧
  (lose (game self) = Some false → ∀ c, c ∈ KB0 self → satisfies (mine_at g) c) ∧
  same_board g (game self).

(** A 2x2 board with one mine, at [(0, 1)]. *)
Definition small_game : MineSweeperGame :=
  let safe := {| mine := false; revealed := false; marked := false |} in
  let mined := {| mine := true; revealed := false; marked := false |} in
  {| rows := 2; cols := 2; mines := 1; board := [[safe; mined]; [safe; safe]] |}.

(** The history after one more size is recorded. *)
Definition window_push (h : list nat) (s : nat) : list nat :=
  let h := h ++ [s] in
  if decide (stuck_KB_length < length h) then drop 1 h else h.

(** Two players that differ at most in [KB]. *)
Definition same_frame (self self' : MineSweeperPlayer) : Prop :=
  KB0 self' = KB0 self ∧ game self' = game self ∧
  initial_safe_cells self' = initial_safe_cells self ∧
  KB_length_history self' = KB_length_history self.

(** * Properties *)

Lemma negate_involutive l : negate (negate l) = l.
Proof. destruct l as [[r c] p]. unfold negate; simpl. by rewrite negb_involutive. Qed.

Lemma negate_ne l : negate l ≠ l.
Proof. destruct l as [[r c] []]; unfold negate; simpl; congruence. Qed.

Lemma negate_inj l1 l2 : negate l1 = negate l2 → l1 = l2.
Proof. intros H. by rewrite <-(negate_involutive l1), H, negate_involutive. Qed.

Section Iteration.
Context {O : SetOrder}.

Lemma iter_lits_empty from : iter_lits from ∅ = [].
Proof.
  apply elem_of_nil_inv. intros x. rewrite elem_of_iter_lits. set_solver.
Qed.

Lemma iter_clauses_empty : iter_clauses ∅ = [].
Proof.
  apply elem_of_nil_inv. intros x. rewrite elem_of_iter_clauses. set_solver.
Qed.

Lemma iter_lits_singleton from x : iter_lits from {[x]} = [x].
Proof.
  apply Permutation_singleton_r, NoDup_Permutation.
  - apply iter_lits_NoDup.
  - apply NoDup_singleton.
  - intros y. rewrite elem_of_iter_lits. set_solver.
Qed.

Lemma iter_clauses_singleton c : iter_clauses {[c]} = [c].
Proof.
  apply Permutation_singleton_r, NoDup_Permutation.
  - apply iter_clauses_NoDup.
  - apply NoDup_singleton.
  - intros y. rewrite elem_of_iter_clauses. set_solver.
Qed.

Lemma list_to_set_iter_lits from s : list_to_set (iter_lits from s) = s.
Proof. apply set_eq. intros x. by rewrite elem_of_list_to_set, elem_of_iter_lits. Qed.

Lemma list_to_set_iter_clauses K : list_to_set (iter_clauses K) = K.
Proof. apply set_eq. intros x. by rewrite elem_of_list_to_set, elem_of_iter_clauses. Qed.

Lemma iter_lits_nil_inv from s : iter_lits from s = [] → s = ∅.
Proof. intros H. by rewrite <-(list_to_set_iter_lits from s), H. Qed.

Lemma truthy_iter_lits from s x : x ∈ s → truthy (Some (iter_lits from s)) = true.
Proof.
  intros Hx. apply elem_of_iter_lits with (from := from) in Hx.
  by destruct (iter_lits from s); [apply elem_of_nil in Hx|].
Qed.

End Iteration.

Section Resolution.
Context {O : SetOrder}.

Lemma count_complementary_foldl (s2 : gset literal) l o n :
  foldl (count_complementary s2) (o, n) l =
  (from_option Some o (last (filter (λ x, negate x ∈ s2) l)),
   n + length (filter (λ x, negate x ∈ s2) l)).
Proof.
  revert o n. induction l as [|x l IH] using rev_ind; intros o n.
  - simpl. f_equal. lia.
  - rewrite foldl_snoc, IH, filter_app. unfold count_complementary; simpl.
    rewrite filter_cons, filter_nil. destruct (decide (negate x ∈ s2)).
    + rewrite last_snoc, length_app. simpl. f_equal. lia.
    + by rewrite app_nil_r.
Qed.

Lemma resolve_unfold a b :
  resolve a b =
  match filter (λ x, negate x ∈ (list_to_set b : gset literal))
               (iter_lits [a] (list_to_set a)) with
  | [l] => Some (iter_lits [a; b] ((list_to_set a ∖ {[l]}) ∪ (list_to_set b ∖ {[negate l]})))
  | _ => None
  end.
Proof.
  unfold resolve. rewrite count_complementary_foldl.
  destruct (filter _ _) as [|x [|y l]] eqn:E; simpl; [done|done|].
  by destruct (last (y :: l)).
Qed.

Lemma complementary_iter a b :
  complementary a b =
  list_to_set (filter (λ x, negate x ∈ (list_to_set b : gset literal))
                      (iter_lits [a] (list_to_set a))).
Proof.
  apply set_eq. intros x. unfold complementary.
  rewrite elem_of_filter. 
  rewrite (elem_of_list_to_set x (filter _ _)), list_elem_of_filter, elem_of_iter_lits.
  done.
Qed.

Lemma size_complementary a b :
  size (complementary a b) =
  length (filter (λ x, negate x ∈ (list_to_set b : gset literal))
                 (iter_lits [a] (list_to_set a))).
Proof.
  rewrite complementary_iter. apply size_list_to_set, NoDup_filter, iter_lits_NoDup.
Qed.

Lemma resolve_Some a b r :
  resolve a b = Some r ↔
  ∃ l, complementary a b = {[l]} ∧
       r = iter_lits [a; b] ((list_to_set a ∖ {[l]}) ∪ (list_to_set b ∖ {[negate l]})).
Proof.
  rewrite resolve_unfold, complementary_iter.
  destruct (filter _ _) as [|x [|y l]] eqn:E; simpl.
  - split; [done|]. intros (l & H & _). set_solver.
  - split.
    + intros [= <-]. exists x. split; [set_solver|done].
    + intros (l & H & ->). assert (x = l) as -> by set_solver. done.
  - split; [done|]. intros (l' & H & _).
    assert (NoDup (x :: y :: l)) as Hnd.
    { rewrite <-E. apply NoDup_filter, iter_lits_NoDup. }
    apply NoDup_cons in Hnd as [Hx _].
    assert (x = l') by set_solver. assert (y = l') by set_solver.
    set_solver.
Qed.

Lemma resolve_None a b :
  resolve a b = None ↔ size (complementary a b) ≠ 1.
Proof.
  rewrite size_complementary, resolve_unfold.
  destruct (filter _ _) as [|x [|y l]]; simpl; split; (done || lia || auto).
Qed.

Lemma complementary_swap a b l :
  complementary a b = {[l]} → complementary b a = {[negate l]}.
Proof.
  unfold complementary. intros H. apply set_eq. intros x.
  rewrite elem_of_filter, !elem_of_list_to_set, elem_of_singleton.
  assert (∀ y, (negate y ∈ b ∧ y ∈ a) ↔ y = l) as Hl.
  { intros y. rewrite <-(elem_of_singleton (C:=gset literal)), <-H.
    by rewrite elem_of_filter, !elem_of_list_to_set. }
  split.
  - intros [Ha Hb]. apply negate_inj. rewrite negate_involutive.
    apply (proj1 (Hl (negate x))). by rewrite negate_involutive.
  - intros ->. specialize (Hl l) as [_ Hl]. rewrite negate_involutive. 
    destruct Hl; done.
Qed.

End Resolution.

Lemma set_KB_KB self : set_KB self (KB self) = self.
Proof. by destruct self. Qed.

Section Store.
Context {O : SetOrder}.

Lemma foldl_py_add K l :
  foldl (λ K clause_to_add, py_add clause_to_add K) K l = list_to_set l ∪ K.
Proof.
  revert K. induction l as [|x l IH]; intros K; simpl.
  - set_solver.
  - rewrite IH. unfold py_add. set_solver.
Qed.

Lemma remove_each_Some l K :
  NoDup l → (∀ x, x ∈ l → x ∈ K) → remove_each l K = Some (K ∖ list_to_set l).
Proof.
  revert K. induction l as [|x l IH]; intros K Hnd Hin; simpl.
  - f_equal. set_solver.
  - apply NoDup_cons in Hnd as [Hx Hnd]. unfold py_remove.
    rewrite decide_True by (apply Hin; left). simpl.
    rewrite IH; [|done|].
    + f_equal. set_solver.
    + intros y Hy. apply elem_of_difference. split; [apply Hin; by right|].
      set_solver.
Qed.

Lemma list_to_set_filter_iter (P : clause → Prop) `{!∀ c, Decision (P c)} K :
  list_to_set (filter P (iter_clauses K)) = filter P K.
Proof.
  apply set_eq. intros x.
  by rewrite elem_of_list_to_set, list_elem_of_filter, elem_of_filter,
    elem_of_iter_clauses.
Qed.

Lemma propagate_unit_foldl l0 l A R :
  foldl (propagate_unit l0) (A, R) l =
  (list_to_set (without (negate l0) <$>
                filter (λ c : clause, (l0 ∉ c) ∧ negate l0 ∈ c) l) ∪ A,
   list_to_set (filter (λ c : clause, l0 ∈ c ∨ negate l0 ∈ c) l) ∪ R).
Proof.
  revert A R. induction l as [|x l IH]; intros A R; simpl.
  - f_equal; set_solver.
  - rewrite !filter_cons. unfold propagate_unit at 2. simpl.
    destruct (decide (l0 ∈ x)) as [Hx|Hx].
    + rewrite IH, decide_False by tauto. rewrite decide_True by tauto.
      f_equal. set_solver.
    + destruct (decide (negate l0 ∈ x)) as [Hn|Hn].
      * rewrite IH, decide_True by tauto. rewrite decide_True by tauto.
        f_equal; set_solver.
      * rewrite IH, decide_False by tauto. rewrite decide_False by tauto.
        done.
Qed.

Lemma unit_propagation_single self l0 :
  unit_propagation self [l0] =
  Some (set_KB self ((unit_added l0 (KB self) ∪ KB self) ∖ unit_removed l0 (KB self))).
Proof.
  unfold unit_propagation. simpl. rewrite propagate_unit_foldl. simpl.
  rewrite foldl_py_add, list_to_set_iter_clauses, !union_empty_r_L.
  rewrite list_to_set_filter_iter.
  assert (list_to_set (without (negate l0) <$>
            filter (λ c : clause, (l0 ∉ c) ∧ negate l0 ∈ c) (iter_clauses (KB self)))
          = unit_added l0 (KB self)) as ->.
  { apply set_eq. intros x. unfold unit_added.
    rewrite elem_of_list_to_set, list_elem_of_fmap, elem_of_map.
    split; intros (y & -> & Hy); exists y; (split; [done|]).
    - apply list_elem_of_filter in Hy as [? Hy].
      apply elem_of_iter_clauses in Hy. by apply elem_of_filter.
    - apply elem_of_filter in Hy as [? Hy]. apply list_elem_of_filter.
      split; [done|]. by apply elem_of_iter_clauses. }
  rewrite remove_each_Some.
  - simpl. rewrite list_to_set_iter_clauses. done.
  - apply iter_clauses_NoDup.
  - intros x. rewrite elem_of_iter_clauses. unfold unit_removed.
    rewrite elem_of_filter. set_solver.
Qed.

Lemma check_against_KB0_no_negation c acc l :
  (∀ f, f ∈ l → f ≠ []) →
  (∀ f l0, f ∈ l → head f = Some l0 → negate l0 ∉ c) →
  check_against_KB0 c acc l = Some acc.
Proof.
  induction l as [|f l IH]; intros Hne Hneg; simpl; [done|].
  destruct f as [|l0 f]; [by destruct (Hne []); [left|]|]. simpl.
  destruct (decide (l0 ∈ c)); [done|].
  rewrite decide_False.
  - apply IH; intros; [apply Hne|eapply Hneg]; try by right. done.
  - apply (Hneg (l0 :: f)); [left|done].
Qed.

Lemma resolve_with_KB0_single l0 l :
  (∀ f, f ∈ l → length f = 1) → resolve_with_KB0 [l0] l = [l0].
Proof.
  destruct l as [|f l]; intros Hl; simpl; [done|].
  destruct (resolve [l0] f) as [r|] eqn:E; simpl; [|done].
  apply resolve_Some in E as (x & Hx & ->).
  assert (length f = 1) as Hf by (apply Hl; left).
  destruct f as [|f0 [|??]]; try done.
  assert (x ∈ complementary [l0] [f0]) as Hin by (rewrite Hx; set_solver).
  unfold complementary in Hin. apply elem_of_filter in Hin as [H1 H2].
  assert (x = l0) as -> by set_solver.
  assert (f0 = negate l0) as -> by set_solver.
  assert ((list_to_set [l0] ∖ {[l0]}) ∪ (list_to_set [negate l0] ∖ {[negate l0]})
          = (∅ : gset literal)) as -> by set_solver.
  by rewrite iter_lits_empty.
Qed.

Lemma subsumption_checking_None c x :
  ¬ (list_to_set c : gset literal) ⊆ list_to_set x →
  ¬ (list_to_set x : gset literal) ⊆ list_to_set c →
  subsumption_checking c x = None.
Proof.
  intros H1 H2. unfold subsumption_checking.
  by rewrite !decide_False.
Qed.

Lemma subsumption_scan_unrelated c l :
  (∀ x, x ∈ l → truthy (subsumption_checking c x) = false) →
  subsumption_scan c l = Loop_done None.
Proof.
  induction l as [|x l IH]; intros H; simpl; [done|].
  rewrite H by left. simpl. apply IH. intros; apply H; by right.
Qed.

Lemma subsumption_checking_unit_falsy l0 x :
  l0 ∉ x → truthy (subsumption_checking [l0] x) = false.
Proof.
  intros Hx. unfold subsumption_checking.
  rewrite decide_False by set_solver.
  destruct (decide _) as [Hs|]; [|done].
  assert ((list_to_set x : gset literal) = ∅) as ->.
  { apply set_eq. intros y. split; [|set_solver]. intros Hy.
    assert (y = l0) as -> by set_solver.
    apply elem_of_list_to_set in Hy. done. }
  by rewrite iter_lits_empty.
Qed.

Lemma insert_clause_to_KB_unit self l0 :
  KB0_single_literal self → [l0] ∉ KB self → [l0] ∉ KB0 self →
  insert_clause_to_KB self [l0] =
  Some (set_KB self
          ({[ [l0] ]} ∪ (unit_added l0 (KB self) ∪ KB self) ∖ unit_removed l0 (KB self)),
        Some [l0]).
Proof.
  intros Hwf H1 H2. unfold insert_clause_to_KB.
  rewrite decide_False by tauto.
  rewrite unit_propagation_single. simpl.
  rewrite resolve_with_KB0_single.
  2:{ intros f. rewrite elem_of_iter_clauses. apply Hwf. }
  rewrite subsumption_scan_unrelated; [done|].
  intros x. rewrite elem_of_iter_clauses, elem_of_difference.
  intros [Hx Hr]. apply subsumption_checking_unit_falsy. intros Hin.
  apply elem_of_union in Hx as [Hx|Hx].
  - unfold unit_added in Hx. apply elem_of_map in Hx as (y & -> & Hy).
    apply elem_of_filter in Hy as [[Hy _] _]. apply Hy.
    unfold without in Hin. by apply list_elem_of_filter in Hin as [_ ?].
  - apply Hr. unfold unit_removed. apply elem_of_filter. tauto.
Qed.

End Store.

Section Insertion.
Context {O : SetOrder}.

Lemma unit_propagation_noop self c :
  length c ≠ 1 →
  check_against_KB0 c ∅ (iter_clauses (KB0 self)) = Some ∅ →
  unit_propagation self c = Some self.
Proof.
  intros Hlen Hcheck. unfold unit_propagation.
  rewrite decide_False by done. rewrite Hcheck. simpl.
  rewrite iter_clauses_empty. simpl. by rewrite set_KB_KB.
Qed.

Lemma insert_clause_to_KB_present self c :
  c ∈ KB self ∨ c ∈ KB0 self → insert_clause_to_KB self c = Some (self, None).
Proof. intros H. unfold insert_clause_to_KB. by rewrite decide_True. Qed.

Lemma insert_clause_to_KB_add self c :
  c ∉ KB self → c ∉ KB0 self →
  unit_propagation self c = Some self →
  resolve_with_KB0 c (iter_clauses (KB0 self)) = c →
  (∀ x, x ∈ KB self → truthy (subsumption_checking c x) = false) →
  insert_clause_to_KB self c = Some (set_KB self ({[c]} ∪ KB self), Some c).
Proof.
  intros H1 H2 Hup Hres Hscan. unfold insert_clause_to_KB.
  rewrite decide_False by tauto. rewrite Hup. simpl. rewrite Hres.
  rewrite subsumption_scan_unrelated; [done|].
  intros x Hx. apply Hscan. by apply elem_of_iter_clauses.
Qed.

Lemma insert_clause_to_KB_fresh self c :
  KB0 self = ∅ → length c ≠ 1 → c ∉ KB self →
  (∀ x, x ∈ KB self →
     ¬ (list_to_set c : gset literal) ⊆ list_to_set x ∧
     ¬ (list_to_set x : gset literal) ⊆ list_to_set c) →
  insert_clause_to_KB self c = Some (set_KB self ({[c]} ∪ KB self), Some c).
Proof.
  intros H0 Hlen Hc Hun. apply insert_clause_to_KB_add; try done.
  - rewrite H0. set_solver.
  - apply unit_propagation_noop; [done|]. by rewrite H0, iter_clauses_empty.
  - by rewrite H0, iter_clauses_empty.
  - intros x Hx. destruct (Hun x Hx). by rewrite subsumption_checking_None.
Qed.

End Insertion.

Section Insertion_cases.
Context {O : SetOrder}.

Lemma unit_propagation_multi self c adds :
  length c ≠ 1 →
  check_against_KB0 c ∅ (iter_clauses (KB0 self)) = Some adds →
  unit_propagation self c = Some (set_KB self (adds ∪ KB self)).
Proof.
  intros Hlen Hcheck. unfold unit_propagation.
  rewrite decide_False by done. rewrite Hcheck. simpl.
  rewrite iter_clauses_empty. simpl.
  by rewrite foldl_py_add, list_to_set_iter_clauses.
Qed.

Lemma unit_propagation_KB0 self c self1 :
  unit_propagation self c = Some self1 → KB0 self1 = KB0 self.
Proof.
  unfold unit_propagation. intros H.
  destruct (if decide (length c = 1) then _ else _) as [[a r]|]; simpl in H; [|done].
  destruct (remove_each _ _); simpl in H; [|done]. by injection H as <-.
Qed.

Lemma insert_clause_to_KB_unfold self c self1 :
  c ∉ KB self → c ∉ KB0 self → unit_propagation self c = Some self1 →
  insert_clause_to_KB self c =
  match subsumption_scan (final_clause self c) (iter_clauses (KB self1)) with
  | Return_None => Some (self1, None)
  | Loop_done clause_to_remove =>
      K ← (if truthy clause_to_remove
           then py_remove (default [] clause_to_remove) (KB self1)
           else Some (KB self1));
      Some (set_KB self1 (py_add (final_clause self c) K), Some (final_clause self c))
  end.
Proof.
  intros H1 H2 Hup. unfold insert_clause_to_KB, final_clause.
  rewrite decide_False by tauto. rewrite Hup. simpl.
  by rewrite (unit_propagation_KB0 _ _ _ Hup).
Qed.

(** A clause returned by [insert_clause_to_KB] is in [KB] afterwards. *)
Lemma insert_clause_to_KB_Some_inv self c self' c' :
  insert_clause_to_KB self c = Some (self', Some c') → c' ∈ KB self'.
Proof.
  unfold insert_clause_to_KB. destruct (decide _); [done|].
  destruct (unit_propagation self c) as [self1|]; simpl; [|done].
  destruct (subsumption_scan _ _) as [|r]; [done|].
  destruct (if truthy r then _ else _); simpl; intros ?; simplify_eq.
  simpl. unfold py_add. set_solver.
Qed.

Lemma subsumption_checking_subset c x :
  ¬ (list_to_set c : gset literal) ⊆ list_to_set x →
  (list_to_set x : gset literal) ⊆ list_to_set c →
  subsumption_checking c x = Some (iter_lits [x] (list_to_set x)).
Proof.
  intros H1 H2. unfold subsumption_checking.
  rewrite decide_False by done. by rewrite decide_True.
Qed.

Lemma subsumption_checking_Some c x r :
  subsumption_checking c x = Some r →
  NoDup r ∧
  (((list_to_set c : gset literal) ⊆ list_to_set x ∧
    (list_to_set r : gset literal) = list_to_set c) ∨
   (¬ (list_to_set c : gset literal) ⊆ list_to_set x ∧
    (list_to_set x : gset literal) ⊆ list_to_set c ∧
    (list_to_set r : gset literal) = list_to_set x)).
Proof.
  unfold subsumption_checking. destruct (decide _) as [H1|H1].
  - intros [= <-]. split; [apply iter_lits_NoDup|]. left.
    by rewrite list_to_set_iter_lits.
  - destruct (decide _) as [H2|H2]; [|done].
    intros [= <-]. split; [apply iter_lits_NoDup|]. right.
    by rewrite list_to_set_iter_lits.
Qed.

Lemma resolve_with_KB0_no_negation c l :
  (∀ f l0, f ∈ l → l0 ∈ f → negate l0 ∉ c) → resolve_with_KB0 c l = c.
Proof.
  destruct l as [|f l]; intros Hneg; simpl; [done|].
  assert (resolve c f = None) as ->; [|done].
  apply resolve_None.
  assert (complementary c f = ∅) as ->; [|by rewrite size_empty].
  apply set_eq. intros x. unfold complementary.
  rewrite elem_of_filter, !elem_of_list_to_set. split; [|set_solver].
  intros [Hx Hc]. exfalso. apply (Hneg f (negate x)); [left|done|].
  by rewrite negate_involutive.
Qed.

End Insertion_cases.

(** ** Totality and frame of the store operations *)

Section Insertion_total.
Context {O : SetOrder}.

Lemma check_against_KB0_Some c acc l :
  (∀ f, f ∈ l → f ≠ []) → is_Some (check_against_KB0 c acc l).
Proof.
  revert acc. induction l as [|f l IH]; intros acc Hne; simpl; [done|].
  destruct f as [|l0 f]; [by destruct (Hne []); [left|]|]. simpl.
  destruct (decide _); [done|].
  destruct (decide _); apply IH; intros; apply Hne; by right.
Qed.

Lemma unit_propagation_Some self c :
  (∀ f, f ∈ KB0 self → f ≠ []) →
  ∃ self1, unit_propagation self c = Some self1 ∧
           (length c ≠ 1 → KB self ⊆ KB self1).
Proof.
  intros Hne. destruct (decide (length c = 1)) as [Hlen|Hlen].
  - destruct c as [|l0 [|??]]; try done. eexists.
    split; [apply unit_propagation_single|done].
  - destruct (check_against_KB0_Some c ∅ (iter_clauses (KB0 self))) as [adds E].
    { intros f Hf. apply Hne. by apply elem_of_iter_clauses. }
    eexists. split; [by apply unit_propagation_multi|].
    intros _. simpl. set_solver.
Qed.

Lemma subsumption_scan_Loop_done c l x :
  subsumption_scan c l = Loop_done (Some x) →
  x ∈ l ∧ c ≠ [] ∧ (list_to_set c : gset literal) ⊆ list_to_set x.
Proof.
  induction l as [|y l IH]; simpl; [done|].
  destruct (truthy (subsumption_checking c y)) eqn:Ht; simpl.
  - destruct (decide (subsumption_checking c y = Some c)) as [E|E].
    + intros [= <-]. split; [left|]. rewrite E in Ht.
      split; [by destruct c|].
      destruct (subsumption_checking_Some c y c E)
        as [_ [[? _]|(_ & ? & Hset)]]; [done|by rewrite Hset].
    + destruct (decide _); [done|].
      intros H. apply IH in H as (? & ? & ?). split; [by right|done].
  - intros H. apply IH in H as (? & ? & ?). split; [by right|done].
Qed.

End Insertion_total.

Lemma insert_clause_to_KB_total {O : SetOrder} (self : MineSweeperPlayer)
    (c : clause) :
  (∀ f, f ∈ KB0 self → f ≠ []) →
  ∃ self' r, insert_clause_to_KB self c = Some (self', r) ∧
    KB0 self' = KB0 self ∧ game self' = game self ∧
    KB_length_history self' = KB_length_history self ∧
    (∀ c', r = Some c' → c' ∈ KB self').
Proof.
  intros Hne.
  destruct (decide (c ∈ KB self ∨ c ∈ KB0 self)) as [Hin|Hin].
  { exists self, None. split; [by apply insert_clause_to_KB_present|done]. }
  destruct (unit_propagation_Some self c Hne) as (self1 & Hup & _).
  assert (KB0 self1 = KB0 self ∧ game self1 = game self ∧
          KB_length_history self1 = KB_length_history self) as (H0 & Hg & Hh).
  { unfold unit_propagation in Hup.
    destruct (if decide (length c = 1) then _ else _) as [[a r]|]; simpl in Hup; [|done].
    destruct (remove_each _ _); simpl in Hup; [|done]. by injection Hup as <-. }
  rewrite (insert_clause_to_KB_unfold self c self1) by tauto.
  destruct (subsumption_scan _ _) as [|t] eqn:Hscan.
  { exists self1, None. done. }
  assert (∃ K, (if truthy t then py_remove (default [] t) (KB self1)
                else Some (KB self1)) = Some K) as [K ->].
  { destruct t as [x|]; [|by eexists].
    destruct (truthy (Some x)); [|by eexists]. simpl.
    apply subsumption_scan_Loop_done in Hscan as (Hx & _).
    apply elem_of_iter_clauses in Hx. unfold py_remove.
    rewrite decide_True by done. by eexists. }
  simpl. eexists _, _. split; [done|]. simpl.
  split; [done|]. split; [done|]. split; [done|].
  intros c' [= <-]. unfold py_add. set_solver.
Qed.

(** The outcomes of an insertion that passes the first test. *)
Lemma insert_clause_to_KB_cases {O : SetOrder} self c self1 self' r :
  c ∉ KB self → c ∉ KB0 self → unit_propagation self c = Some self1 →
  insert_clause_to_KB self c = Some (self', r) →
  (r = None ∧ self' = self1) ∨
  (r = Some (final_clause self c) ∧
   self' = set_KB self1 ({[ final_clause self c ]} ∪ KB self1)) ∨
  (r = Some (final_clause self c) ∧ final_clause self c ≠ [] ∧
   ∃ y, y ∈ KB self1 ∧
        (list_to_set (final_clause self c) : gset literal) ⊆ list_to_set y ∧
        self' = set_KB self1 ({[ final_clause self c ]} ∪ KB self1 ∖ {[ y ]})).
Proof.
  intros H1 H2 Hup. rewrite (insert_clause_to_KB_unfold _ _ _ H1 H2 Hup).
  destruct (subsumption_scan _ _) as [|t] eqn:Hscan.
  { intros [= <- <-]. by left. }
  intros Hins. right. destruct t as [y|].
  - apply subsumption_scan_Loop_done in Hscan as (Hy & Hne & Hsub).
    apply elem_of_iter_clauses in Hy.
    destruct y as [|y0 y].
    { exfalso. destruct (final_clause self c) as [|l ?]; [done|].
      apply (not_elem_of_empty (C:=gset literal) l), Hsub, elem_of_list_to_set. left. }
    cbn [truthy default] in Hins. unfold py_remove in Hins.
    rewrite decide_True in Hins by done. cbn [mbind option_bind] in Hins.
    injection Hins as <- <-. right. split; [done|]. split; [done|]. eauto.
  - simpl in Hins. injection Hins as <- <-. by left.
Qed.

Lemma check_against_KB0_adds (c : clause) (acc adds : gset clause) (l : list clause) :
  check_against_KB0 c acc l = Some adds →
  ∀ x, x ∈ adds →
    x ∈ acc ∨
    ∃ f l0, f ∈ l ∧ head f = Some l0 ∧ (l0 ∉ c) ∧ negate l0 ∈ c ∧
            x = without (negate l0) c.
Proof.
  revert acc. induction l as [|f l IH]; intros acc; simpl.
  - intros [= <-]. by left.
  - destruct f as [|l0 f]; simpl; [done|].
    destruct (decide (l0 ∈ c)) as [Hin|Hin]; [intros [= <-]; by left|].
    destruct (decide (negate l0 ∈ c)) as [Hneg|Hneg]; intros H x Hx.
    + destruct (IH _ H x Hx) as [Hacc|(f' & l' & ? & ?)].
      * apply elem_of_union in Hacc as [Hacc|?]; [|by left].
        apply elem_of_singleton in Hacc as ->. right.
        exists (l0 :: f), l0. split; [left|done].
      * right. exists f', l'. split; [by right|done].
    + destruct (IH _ H x Hx) as [?|(f' & l' & ? & ?)]; [by left|].
      right. exists f', l'. split; [by right|done].
Qed.


Lemma is_stuck_bounded (self : MineSweeperPlayer) :
  length (KB_length_history self) ≤ 5 →
  length (KB_length_history (is_stuck self).1) ≤ 5.
Proof.
  intros Hlen. unfold is_stuck. simpl. destruct (decide _).
  - rewrite length_drop, length_app. simpl. lia.
  - unfold stuck_KB_length in *. lia.
Qed.


(** ** Properties of clauses that the store operations preserve *)

Lemma py_remove_subseteq (x : clause) (K K' : gset clause) :
  py_remove x K = Some K' → K' ⊆ K.
Proof.
  unfold py_remove. destruct (decide (x ∈ K)); [|done]. intros [= <-]. set_solver.
Qed.

Lemma remove_each_subseteq (l : list clause) (K K' : gset clause) :
  remove_each l K = Some K' → K' ⊆ K.
Proof.
  revert K. induction l as [|x l IH]; intros K; simpl.
  - by intros [= <-].
  - unfold py_remove. destruct (decide (x ∈ K)); simpl; [|done].
    intros H%IH. set_solver.
Qed.

Section Clause_invariant.
Context {O : SetOrder} (Q : clause → Prop).
Hypothesis Q_resolve : ∀ a b r, resolve a b = Some r → Q a → Q b → Q r.
Hypothesis Q_without : ∀ l0 y, Q [l0] → Q y → Q (without (negate l0) y).

Lemma resolve_with_KB0_all c l :
  (∀ f, f ∈ l → Q f) → Q c → Q (resolve_with_KB0 c l).
Proof.
  revert c. induction l as [|f l IH]; intros c Hl Hc; simpl; [done|].
  destruct (resolve c f) as [[|r0 r]|] eqn:E; simpl; [done| |done].
  apply IH; [intros; apply Hl; by right|].
  eapply Q_resolve; [done..|]. apply Hl. left.
Qed.

Lemma unit_propagation_all self c self1 :
  KB0_single_literal self → all_clauses Q self → Q c →
  unit_propagation self c = Some self1 →
  ∀ x, x ∈ KB self1 → Q x.
Proof.
  intros Hwf Hall Hc Hup x Hx.
  destruct (decide (length c = 1)) as [Hlen|Hlen].
  - destruct c as [|l0 [|??]]; try done.
    rewrite unit_propagation_single in Hup. injection Hup as <-. simpl in Hx.
    apply elem_of_difference in Hx as [[Hx|Hx]%elem_of_union _];
      [|apply Hall; by left].
    unfold unit_added in Hx. apply elem_of_map in Hx as (y & -> & Hy).
    apply elem_of_filter in Hy as [_ Hy].
    apply Q_without; [done|]. apply Hall. by left.
  - unfold unit_propagation in Hup. rewrite decide_False in Hup by done.
    destruct (check_against_KB0 _ _ _) as [adds|] eqn:E; simpl in Hup; [|done].
    rewrite iter_clauses_empty in Hup. simpl in Hup. injection Hup as <-.
    simpl in Hx. rewrite foldl_py_add, list_to_set_iter_clauses in Hx.
    apply elem_of_union in Hx as [Hx|Hx]; [|apply Hall; by left].
    destruct (check_against_KB0_adds _ _ _ _ E x Hx)
      as [Habs|(f & l0 & Hf & Hhd & _ & _ & ->)]; [by apply elem_of_empty in Habs|].
    apply elem_of_iter_clauses in Hf.
    apply Q_without; [|done].
    pose proof (Hwf f Hf) as Hlen1.
    destruct f as [|f0 [|??]]; try done. injection Hhd as ->.
    apply Hall. by right.
Qed.

Lemma insert_clause_to_KB_all self c self' r :
  KB0_single_literal self → all_clauses Q self → Q c →
  insert_clause_to_KB self c = Some (self', r) →
  KB0 self' = KB0 self ∧ all_clauses Q self'.
Proof.
  intros Hwf Hall Hc Hins.
  destruct (decide (c ∈ KB self ∨ c ∈ KB0 self)) as [Hin|Hin].
  { rewrite insert_clause_to_KB_present in Hins by done. by injection Hins as <- <-. }
  pose proof Hins as Hins'. unfold insert_clause_to_KB in Hins'.
  rewrite decide_False in Hins' by done.
  destruct (unit_propagation self c) as [self1|] eqn:Hup; [|done]. clear Hins'.
  pose proof (unit_propagation_KB0 _ _ _ Hup) as H0.
  pose proof (unit_propagation_all _ _ _ Hwf Hall Hc Hup) as H1.
  assert (Q (final_clause self c)) as Hfin.
  { apply resolve_with_KB0_all; [|done]. intros f Hf.
    apply elem_of_iter_clauses in Hf. apply Hall. by right. }
  assert (∀ f, f ∈ KB0 self1 → Q f) as Hc0.
  { intros f Hf. rewrite H0 in Hf. apply Hall. by right. }
  destruct (insert_clause_to_KB_cases self c self1 self' r) as
    [[_ ->]|[[_ ->]|(_ & _ & y & _ & _ & ->)]]; try tauto; simpl;
    (split; [done|]); intros x [Hx|Hx]; simpl in Hx; try by apply Hc0.
  - by apply H1.
  - apply elem_of_union in Hx as [Hx|Hx]; [|by apply H1].
    by apply elem_of_singleton in Hx as ->.
  - apply elem_of_union in Hx as [Hx|Hx].
    + by apply elem_of_singleton in Hx as ->.
    + apply elem_of_difference in Hx as [Hx _]. by apply H1.
Qed.

Lemma insert_each_all self cs self' :
  KB0_single_literal self → all_clauses Q self →
  (∀ c, c ∈ cs → Q c) →
  insert_each self cs = Some self' →
  KB0 self' = KB0 self ∧ all_clauses Q self'.
Proof.
  revert self. induction cs as [|c cs IH]; intros self Hwf Hall Hcs; simpl.
  { by intros [= <-]. }
  destruct (insert_clause_to_KB self c) as [[self1 r]|] eqn:Hins; simpl; [|done].
  destruct (insert_clause_to_KB_all _ _ _ _ Hwf Hall (Hcs c (list_elem_of_here _ _)) Hins)
    as [H0 Hall1].
  intros E. destruct (IH self1) as [H0' Hall']; try done.
  - intros f Hf. rewrite H0 in Hf. by apply Hwf.
  - intros c' Hc'. apply Hcs. by right.
  - split; [congruence|done].
Qed.

Lemma match_fact_all fact l acc acc' :
  Q fact → (∀ c, c ∈ l → Q c) → (∀ x, x ∈ acc.1 → Q x) →
  match_fact fact l acc = inr acc' → ∀ x, x ∈ acc'.1 → Q x.
Proof.
  intros Hfact. revert acc. induction l as [|c l IH]; intros acc Hl Hacc; simpl.
  - by intros [= <-].
  - destruct (decide (fact = c)); [done|].
    assert (∀ c', c' ∈ l → Q c') as Hl' by (intros; apply Hl; by right).
    unfold matching_clauses.
    destruct (truthy (subsumption_checking fact c)).
    + apply IH; [done|]. by destruct (decide _).
    + destruct (resolve fact c) as [r|] eqn:E; simpl.
      * destruct r as [|r0 r]; simpl; [by apply IH|].
        apply IH; [done|]. simpl. intros x [Hx|Hx]%elem_of_union; [|by apply Hacc].
        apply elem_of_singleton in Hx as ->.
        eapply Q_resolve; [done..|]. apply Hl. left.
      * by apply IH.
Qed.

Lemma match_facts_all facts l acc acc' :
  (∀ f, f ∈ facts → Q f) → (∀ c, c ∈ l → Q c) → (∀ x, x ∈ acc.1 → Q x) →
  match_facts facts l acc = inr acc' → ∀ x, x ∈ acc'.1 → Q x.
Proof.
  revert acc. induction facts as [|fact facts IH]; intros acc Hf Hl Hacc; simpl.
  - by intros [= <-].
  - destruct (match_fact fact l acc) as [c|acc1] eqn:E; [done|].
    apply IH; [intros; apply Hf; by right|done|].
    eapply match_fact_all; [apply Hf; left|done..].
Qed.

Lemma pairwise_matching_KB0_all self self' :
  KB0_single_literal self → all_clauses Q self →
  pairwise_matching_KB0 self = Some self' →
  KB0 self' = KB0 self ∧ all_clauses Q self'.
Proof.
  intros Hwf Hall. unfold pairwise_matching_KB0.
  destruct (match_facts _ _ _) as [c|[adds rems]] eqn:E.
  - unfold py_remove. destruct (decide _); simpl; [|done].
    intros [= <-]. split; [done|]. intros x [Hx|Hx]; simpl in Hx.
    + apply Hall. left. by apply elem_of_difference in Hx as [? _].
    + apply Hall. by right.
  - destruct (remove_each _ _) as [K|] eqn:Hrem; simpl; [|done].
    apply remove_each_subseteq in Hrem.
    intros H. apply insert_each_all in H; [done|done| |].
    + intros x [Hx|Hx]; simpl in Hx; apply Hall; [left; by apply Hrem|by right].
    + intros x Hx. apply elem_of_iter_clauses in Hx.
      apply (match_facts_all (iter_clauses (KB0 self)) (iter_clauses (KB self))
               (∅, ∅) (adds, rems)); [| | |done|done].
      * intros f Hf. apply Hall. right. by apply elem_of_iter_clauses.
      * intros c Hc. apply Hall. left. by apply elem_of_iter_clauses.
      * intros y Hy. simpl in Hy. by apply elem_of_empty in Hy.
Qed.

End Clause_invariant.

Lemma same_frame_refl self : same_frame self self.
Proof. done. Qed.

Lemma same_frame_trans s1 s2 s3 :
  same_frame s1 s2 → same_frame s2 s3 → same_frame s1 s3.
Proof. unfold same_frame. intros (?&?&?&?) (?&?&?&?). split_and!; congruence. Qed.

Lemma same_frame_set_KB self K : same_frame self (set_KB self K).
Proof. done. Qed.

Section Frames.
Context {O : SetOrder}.

Lemma unit_propagation_frame self c self1 :
  unit_propagation self c = Some self1 → same_frame self self1.
Proof.
  unfold unit_propagation. intros H.
  destruct (if decide (length c = 1) then _ else _) as [[a r]|]; simpl in H; [|done].
  destruct (remove_each _ _); simpl in H; [|done]. by injection H as <-.
Qed.

Lemma insert_clause_to_KB_frame self c self' r :
  insert_clause_to_KB self c = Some (self', r) → same_frame self self'.
Proof.
  unfold insert_clause_to_KB. destruct (decide _); [by intros [= <- <-]|].
  destruct (unit_propagation self c) as [self1|] eqn:Hup; simpl; [|done].
  apply unit_propagation_frame in Hup.
  destruct (subsumption_scan _ _) as [|t]; [by intros [= <- <-]|].
  destruct (if truthy t then _ else _); simpl; [|done].
  intros [= <- <-]. eapply same_frame_trans; [done|apply same_frame_set_KB].
Qed.

Lemma insert_each_frame self cs self' :
  insert_each self cs = Some self' → same_frame self self'.
Proof.
  revert self. induction cs as [|c cs IH]; intros self; simpl.
  - by intros [= <-].
  - destruct (insert_clause_to_KB self c) as [[self1 r]|] eqn:E; simpl; [|done].
    intros H. apply insert_clause_to_KB_frame in E. apply IH in H.
    by eapply same_frame_trans.
Qed.

Lemma generate_clauses_frame self cells n self' :
  generate_clauses self cells n = Some self' → same_frame self self'.
Proof.
  unfold generate_clauses. destruct (hint_clauses cells n); simpl; [|done].
  apply insert_each_frame.
Qed.

Lemma match_fact_inl fact l acc c :
  match_fact fact l acc = inl c → c = fact ∧ c ∈ l.
Proof.
  revert acc. induction l as [|x l IH]; intros acc; simpl; [done|].
  destruct (decide (fact = x)) as [->|Hne]; [intros [= <-]; split; [done|left]|].
  destruct (matching_clauses fact x) as [new strict].
  destruct strict; [|destruct (truthy new)];
    intros H; apply IH in H as [??]; (split; [done|by right]).
Qed.

Lemma match_fact_found fact l acc :
  fact ∈ l → match_fact fact l acc = inl fact.
Proof.
  revert acc. induction l as [|x l IH]; intros acc Hin; [by apply elem_of_nil in Hin|].
  simpl. destruct (decide (fact = x)) as [->|Hne]; [done|].
  apply elem_of_cons in Hin as [?|Hin]; [done|].
  destruct (matching_clauses fact x) as [new strict].
  destruct strict; [|destruct (truthy new)]; by apply IH.
Qed.

Lemma match_facts_found facts l acc :
  (∃ c, c ∈ facts ∧ c ∈ l) →
  ∃ c, match_facts facts l acc = inl c ∧ c ∈ facts ∧ c ∈ l.
Proof.
  revert acc. induction facts as [|fact facts IH]; intros acc (c & Hc & Hl).
  { by apply elem_of_nil in Hc. }
  simpl. destruct (match_fact fact l acc) as [c'|acc'] eqn:E.
  - apply match_fact_inl in E as [-> ?]. exists fact. split; [done|].
    split; [left|done].
  - destruct (IH acc') as (c'' & -> & ? & ?).
    + exists c. split; [|done]. apply elem_of_cons in Hc as [->|?]; [|done].
      by rewrite match_fact_found in E.
    + exists c''. split; [done|]. split; [by right|done].
Qed.

Lemma match_facts_inl facts l acc c :
  match_facts facts l acc = inl c → c ∈ facts ∧ c ∈ l.
Proof.
  revert acc. induction facts as [|fact facts IH]; intros acc; simpl; [done|].
  destruct (match_fact fact l acc) as [c'|acc'] eqn:E.
  - intros [= <-]. apply match_fact_inl in E as [-> ?]. split; [left|done].
  - intros H. apply IH in H as [??]. split; [by right|done].
Qed.

Lemma pairwise_matching_KB0_frame self self' :
  pairwise_matching_KB0 self = Some self' → same_frame self self'.
Proof.
  unfold pairwise_matching_KB0.
  destruct (match_facts _ _ _) as [c|[adds rems]].
  - destruct (py_remove c (KB self)); simpl; [|done]. by intros [= <-].
  - destruct (remove_each _ _) as [K|]; simpl; [|done].
    intros H. apply insert_each_frame in H.
    eapply same_frame_trans; [apply (same_frame_set_KB self K)|done].
Qed.

Lemma game_move_cases self self' mv tr :
  game_move self = Some (self', mv, tr) →
  (mv = None ∧ KB0 self' = KB0 self ∨
   ∃ rc p, mv = Some rc ∧ KB0 self' = {[ [(rc.1, rc.2, p)] ]} ∪ KB0 self) ∧
  KB_length_history self' = KB_length_history (is_stuck self).1.
Proof.
  intros Hmove.
  unfold game_move in Hmove.
    assert (KB0 (is_stuck self).1 = KB0 self) as Hs0 by done.
    destruct (is_stuck self) as [s b]. simpl in Hs0. simpl.
    destruct (b && negb (truthy_count (get_single_clause_count self))).
    - destruct (make_safe_guess s) as [[l c]|]; [|injection Hmove as <- <- <-; auto].
      destruct (py_remove c (KB s)) as [K|]; simpl in Hmove; [|done].
      destruct (mark_safe (set_KB s K) l) as [s1|] eqn:E1; simpl in Hmove; [|done].
      destruct (get_unmarked_neighbors_and_mine_count s1 l) as [[ns n]|];
        simpl in Hmove; [|done].
      destruct (generate_clauses s1 ns n) as [s2|] eqn:E2; simpl in Hmove; [|done].
      injection Hmove as <- <- <-. simpl.
      apply generate_clauses_frame in E2 as (H0 & _ & _ & Hh2).
      unfold mark_safe in E1.
      destruct (game_mark_safe _ _ _); simpl in E1; [|done]. injection E1 as <-.
      simpl in *. split; [|done]. right. exists (l.1.1, l.1.2), l.2.
      split; [done|]. unfold py_add. rewrite H0, Hs0.
      by destruct l as [[??]?].
    - destruct (find_single_literal_clause s) as [sc|] eqn:Hf.
      + assert (length sc = 1) as Hlen.
        { unfold find_single_literal_clause in Hf.
          assert (sc ∈ filter (λ c : clause, length c = 1) (iter_clauses (KB s))) as Hin.
          { destruct (filter _ _); [done|]. injection Hf as ->. left. }
          by apply list_elem_of_filter in Hin as [? _]. }
        destruct sc as [|l0 [|??]]; try done. simpl in Hmove.
        destruct (if negb l0.2 then _ else _) as [s1|] eqn:E1; simpl in Hmove; [|done].
        destruct (py_remove _ _); simpl in Hmove; [|done].
        injection Hmove as <- <- <-. simpl.
        assert (KB0 s1 = KB0 s ∧ KB_length_history s1 = KB_length_history s)
          as (H0 & Hh1).
        { destruct (negb l0.2).
          - destruct (mark_safe s l0) as [s2|] eqn:E2; simpl in E1; [|done].
            destruct (get_unmarked_neighbors_and_mine_count s2 l0) as [[ns n]|];
              simpl in E1; [|done].
            apply generate_clauses_frame in E1. unfold mark_safe in E2.
            destruct (game_mark_safe _ _ _); simpl in E2; [|done].
            injection E2 as <-. by destruct E1 as (?&_&_&?).
          - unfold mark_mine in E1.
            destruct (game_mark_mine _ _ _); simpl in E1; [|done].
            by injection E1 as <-. }
        split; [|done]. right. exists (l0.1.1, l0.1.2), l0.2.
        split; [done|]. unfold py_add. rewrite H0, Hs0. by destruct l0 as [[??]?].
      + destruct (pairwise_matching_KB0 s) as [s1|] eqn:E1; simpl in Hmove; [|done].
        injection Hmove as <- <- <-.
        apply pairwise_matching_KB0_frame in E1 as (H0 & _ & _ & Hh1).
        split; [|done]. left. split; [done|]. congruence.
Qed.

Lemma game_move_invariant self self' mv tr :
  game_move self = Some (self', mv, tr) →
  KB0_single_literal self ∧ length (KB_length_history self) ≤ 5 →
  KB0_single_literal self' ∧ length (KB_length_history self') ≤ 5.
Proof.
  intros Hmove [Hwf Hlen]. apply game_move_cases in Hmove as [Hcases Hh]. split.
  - intros f Hf. destruct Hcases as [[_ E]|(rc & p & _ & E)]; rewrite E in Hf.
    + by apply Hwf.
    + apply elem_of_union in Hf as [Hf|Hf]; [|by apply Hwf].
      by apply elem_of_singleton in Hf as ->.
  - rewrite Hh. by apply is_stuck_bounded.
Qed.

End Frames.


(** ** The store operations keep the knowledge true *)

Section Soundness.
Context {O : SetOrder} (σ : cell → bool).

Lemma holds_negate l : holds σ (negate l) ↔ ¬ holds σ l.
Proof.
  unfold holds, negate. simpl. destruct (σ _), (l.2); simpl; split; (done || auto).
Qed.

Lemma satisfies_nonempty c : satisfies σ c → c ≠ [].
Proof. intros (l & Hl & _) ->. by apply elem_of_nil in Hl. Qed.

Lemma satisfies_single l : satisfies σ [l] ↔ holds σ l.
Proof.
  split.
  - intros (l' & Hl & H). by apply list_elem_of_singleton in Hl as ->.
  - intros H. exists l. split; [left|done].
Qed.

Lemma satisfies_ext c c' :
  (∀ l, l ∈ c → l ∈ c') → satisfies σ c → satisfies σ c'.
Proof. intros Hsub (l & Hl & H). exists l. split; [by apply Hsub|done]. Qed.

Lemma satisfies_without x c :
  satisfies σ c → ¬ holds σ x → satisfies σ (without x c).
Proof.
  intros (l & Hl & H) Hx. exists l. split; [|done].
  unfold without. apply list_elem_of_filter. split; [|done]. by intros ->.
Qed.

Lemma resolve_sound a b r :
  resolve a b = Some r → satisfies σ a → satisfies σ b → satisfies σ r.
Proof.
  intros (l & Hl & ->)%resolve_Some (la & Hla & Ha) (lb & Hlb & Hb).
  destruct (decide (la = l)) as [->|Hne].
  - exists lb. split; [|done].
    rewrite elem_of_iter_lits, elem_of_union, !elem_of_difference,
      !elem_of_list_to_set, !elem_of_singleton.
    right. split; [done|]. intros ->. by apply holds_negate in Hb.
  - exists la. split; [|done].
    rewrite elem_of_iter_lits, elem_of_union, !elem_of_difference,
      !elem_of_list_to_set, !elem_of_singleton.
    by left.
Qed.

Lemma subsumption_checking_sound a b r :
  subsumption_checking a b = Some r → satisfies σ a → satisfies σ b → satisfies σ r.
Proof.
  intros Hr Ha Hb.
  destruct (subsumption_checking_Some _ _ _ Hr) as [_ [[_ E]|(_ & _ & E)]].
  - eapply satisfies_ext; [|exact Ha]. intros l Hl.
    apply (elem_of_list_to_set (C:=gset literal)). rewrite E.
    by apply elem_of_list_to_set.
  - eapply satisfies_ext; [|exact Hb]. intros l Hl.
    apply (elem_of_list_to_set (C:=gset literal)). rewrite E.
    by apply elem_of_list_to_set.
Qed.

Lemma matching_clauses_sound a b r strict :
  matching_clauses a b = (Some r, strict) →
  satisfies σ a → satisfies σ b → satisfies σ r.
Proof.
  unfold matching_clauses.
  destruct (truthy (subsumption_checking a b)).
  - intros [= E _]. by apply subsumption_checking_sound.
  - intros [= E _]. by apply resolve_sound.
Qed.

Lemma satisfies_without_negate l0 y :
  satisfies σ [l0] → satisfies σ y → satisfies σ (without (negate l0) y).
Proof.
  intros H0%satisfies_single Hy. apply satisfies_without; [done|].
  by intros Hn%holds_negate.
Qed.

Lemma unit_propagation_sound self c self1 :
  KB0_single_literal self → consistent σ self → satisfies σ c →
  unit_propagation self c = Some self1 →
  ∀ x, x ∈ KB self1 → satisfies σ x.
Proof.
  exact (unit_propagation_all (satisfies σ) satisfies_without_negate self c self1).
Qed.

Lemma insert_clause_to_KB_sound self c self' r :
  KB0_single_literal self → consistent σ self → satisfies σ c →
  insert_clause_to_KB self c = Some (self', r) →
  KB0 self' = KB0 self ∧ consistent σ self'.
Proof.
  exact (insert_clause_to_KB_all (satisfies σ) resolve_sound satisfies_without_negate
           self c self' r).
Qed.

Lemma insert_each_sound self cs :
  KB0_single_literal self → consistent σ self →
  (∀ c, c ∈ cs → satisfies σ c) →
  ∃ self', insert_each self cs = Some self' ∧
           KB0 self' = KB0 self ∧ consistent σ self'.
Proof.
  revert self. induction cs as [|c cs IH]; intros self Hwf Hcons Hcs; simpl.
  { by exists self. }
  destruct (insert_clause_to_KB_total self c) as (self1 & r & Hins & _).
  { intros f Hf ->. by apply Hwf in Hf. }
  rewrite Hins. simpl.
  destruct (insert_clause_to_KB_sound _ _ _ _ Hwf Hcons (Hcs c (list_elem_of_here _ _)) Hins)
    as [H0 Hcons1].
  destruct (IH self1) as (self' & E & H0' & Hcons').
  - intros f Hf. rewrite H0 in Hf. by apply Hwf.
  - done.
  - intros c' Hc'. apply Hcs. by right.
  - exists self'. split; [done|]. split; [congruence|done].
Qed.

End Soundness.

(** ** Combinations *)

Section Combinations.
Context {A : Type}.
Implicit Types l s : list A.

Lemma combinations_nil_r l : combinations l 0 = [[]].
Proof. by destruct l. Qed.

Lemma elem_of_combinations s l k :
  s ∈ combinations l k ↔ sublist s l ∧ length s = k.
Proof.
  revert s k. induction l as [|x l IH]; intros s k.
  - destruct k as [|k]; simpl.
    + rewrite list_elem_of_singleton. split.
      * intros ->. split; [constructor|done].
      * intros [_ Hlen]. by destruct s.
    + rewrite elem_of_nil. split; [done|].
      intros [Hs Hlen]. apply sublist_nil_r in Hs as ->. done.
  - destruct k as [|k]; simpl.
    + rewrite list_elem_of_singleton. split.
      * intros ->. split; [apply sublist_nil_l|done].
      * intros [_ Hlen]. by destruct s.
    + rewrite elem_of_app, list_elem_of_fmap. split.
      * intros [(s' & -> & Hs')|Hs].
        -- apply IH in Hs' as [Hsub Hlen]. split; [by constructor|simpl; lia].
        -- apply IH in Hs as [Hsub Hlen]. split; [by constructor|done].
      * intros [Hsub Hlen]. apply sublist_cons_r in Hsub as [Hsub|(s' & -> & Hsub)].
        -- right. apply IH. done.
        -- left. exists s'. split; [done|]. apply IH. simpl in Hlen.
           split; [done|lia].
Qed.

Lemma length_combinations l k :
  length (combinations l k) = binomial (length l) k.
Proof.
  revert k. induction l as [|x l IH]; intros [|k]; simpl; try done.
  by rewrite length_app, length_fmap, !IH.
Qed.

Lemma NoDup_combinations l k : NoDup l → NoDup (combinations l k).
Proof.
  revert k. induction l as [|x l IH]; intros k Hnd.
  - destruct k; simpl; [apply NoDup_singleton|constructor].
  - apply NoDup_cons in Hnd as [Hx Hnd]. destruct k as [|k]; simpl.
    + apply NoDup_singleton.
    + apply NoDup_app. split; [|split].
      * apply (NoDup_fmap_2 _). by apply IH.
      * intros s Hs1 Hs2. apply list_elem_of_fmap in Hs1 as (s' & -> & _).
        apply elem_of_combinations in Hs2 as [Hsub _].
        apply Hx. eapply elem_of_sublist; [|exact Hsub]. left.
      * by apply IH.
Qed.

(** Sublists of equal length of a duplicate-free list are equal as soon as
    one is included in the other. *)
Lemma sublist_included_eq l s1 s2 :
  NoDup l → sublist s1 l → sublist s2 l →
  (∀ x, x ∈ s1 → x ∈ s2) → length s1 = length s2 → s1 = s2.
Proof.
  intros Hnd. revert s1 s2. induction l as [|x l IH]; intros s1 s2 H1 H2 Hincl Hlen.
  - apply sublist_nil_r in H1 as ->. by apply sublist_nil_r in H2 as ->.
  - apply NoDup_cons in Hnd as [Hx Hnd].
    apply sublist_cons_r in H1 as [H1|(s1' & -> & H1)];
      apply sublist_cons_r in H2 as [H2|(s2' & -> & H2)].
    + by apply IH.
    + exfalso.
      assert (NoDup s1) as Hnd1 by (by eapply sublist_NoDup).
      assert (s1 ⊆+ s2') as Hsub.
      { apply NoDup_submseteq; [done|]. intros y Hy.
        specialize (Hincl y Hy). apply elem_of_cons in Hincl as [->|?]; [|done].
        exfalso. apply Hx. by eapply elem_of_sublist. }
      apply submseteq_length in Hsub. simpl in Hlen. lia.
    + exfalso. apply Hx. eapply elem_of_sublist; [|exact H2]. apply Hincl. left.
    + f_equal. apply IH; try done.
      * intros y Hy. assert (y ∈ x :: s2') as Hy' by (apply Hincl; by right).
        apply elem_of_cons in Hy' as [->|?]; [|done].
        exfalso. apply Hx. by eapply elem_of_sublist.
      * simpl in Hlen. lia.
Qed.

End Combinations.

Global Instance positive_inj : Inj (=) (=) positive.
Proof. intros [r c] [r' c'] H. unfold positive in H. simpl in H. by simplify_eq. Qed.

Global Instance negative_inj : Inj (=) (=) negative.
Proof. intros [r c] [r' c'] H. unfold negative in H. simpl in H. by simplify_eq. Qed.

Lemma positive_ne_negative x y : positive x ≠ negative y.
Proof. unfold positive, negative. congruence. Qed.

Lemma set_KB_set_KB self K1 K2 : set_KB (set_KB self K1) K2 = set_KB self K2.
Proof. done. Qed.

Section Generation.
Context {O : SetOrder}.

(** Clauses of several literals, none of which is included in another, all
    end up in [KB] when [KB0] is empty. *)
Lemma insert_each_fresh self cs :
  KB0 self = ∅ →
  (∀ c, c ∈ cs → length c ≠ 1) →
  (∀ c x, c ∈ cs → x ∈ cs ∨ x ∈ KB self → x ≠ c →
     ¬ (list_to_set c : gset literal) ⊆ list_to_set x ∧
     ¬ (list_to_set x : gset literal) ⊆ list_to_set c) →
  insert_each self cs = Some (set_KB self (list_to_set cs ∪ KB self)).
Proof.
  revert self. induction cs as [|c cs IH]; intros self H0 Hlen Hinc; simpl.
  - rewrite union_empty_l_L. by rewrite set_KB_KB.
  - destruct (decide (c ∈ KB self)) as [Hc|Hc].
    + rewrite insert_clause_to_KB_present by (by left). simpl.
      rewrite IH; try done.
      * f_equal. f_equal. set_solver.
      * intros c' Hc'. apply Hlen. by right.
      * intros c' x Hc' Hx. apply Hinc; [by right|].
        destruct Hx as [Hx|Hx]; [left; by right|by right].
    + rewrite insert_clause_to_KB_fresh; try done.
      * simpl. rewrite IH; try done.
        -- rewrite set_KB_set_KB. f_equal. f_equal. simpl. set_solver.
        -- intros c' Hc'. apply Hlen. by right.
        -- intros c' x Hc' Hx. apply Hinc; [by right|]. simpl in Hx.
           destruct Hx as [Hx|Hx]; [left; by right|].
           apply elem_of_union in Hx as [Hx|Hx]; [|by right].
           apply elem_of_singleton in Hx as ->. left. left.
      * apply Hlen. left.
      * intros x Hx. destruct (decide (x = c)) as [->|Hne]; [done|].
        apply Hinc; [left|by right|done].
Qed.

End Generation.

(** Two clauses made from sublists of the same length of duplicate-free
    cells are included in one another only if they are equal. *)
Lemma hint_clause_included_eq (f : cell → literal) `{!Inj (=) (=) f}
    (cells s1 s2 : list cell) :
  NoDup cells → sublist s1 cells → sublist s2 cells → length s1 = length s2 →
  (list_to_set (f <$> s1) : gset literal) ⊆ list_to_set (f <$> s2) →
  f <$> s1 = f <$> s2.
Proof.
  intros Hnd H1 H2 Hlen Hsub. f_equal.
  apply (sublist_included_eq cells); try done.
  intros x Hx. apply (list_elem_of_fmap_inj_2 f).
  apply (elem_of_list_to_set (C:=gset literal)), Hsub.
  apply elem_of_list_to_set. by apply list_elem_of_fmap_2.
Qed.

Lemma hint_clause_not_included (f f' : cell → literal) (s1 s2 : list cell) :
  (∀ x y, f x ≠ f' y) → s1 ≠ [] →
  ¬ (list_to_set (f <$> s1) : gset literal) ⊆ list_to_set (f' <$> s2).
Proof.
  intros Hff Hne Hsub. destruct s1 as [|x s1]; [done|].
  assert (f x ∈ (list_to_set (f' <$> s2) : gset literal)) as Hin.
  { apply Hsub. simpl. set_solver. }
  apply elem_of_list_to_set, list_elem_of_fmap in Hin as (y & Hy & _).
  by apply Hff in Hy.
Qed.

(** C5: [resolve] is correct.  When exactly one literal [l] of the first
    clause has its complement in the second, [resolve] returns a tuple
    whose literals are those of the first clause other than [l] together
    with those of the second other than the complement of [l]; when there
    is no such literal, or more than one, it returns [None].  This holds for
    every iteration order. *)
Theorem resolve_correct {O : SetOrder} (a b : clause) :
  (size (complementary a b) = 1 →
   ∃ l r, complementary a b = {[l]} ∧ resolve a b = Some r ∧
          ∀ x, x ∈ r ↔ (x ∈ a ∧ x ≠ l) ∨ (x ∈ b ∧ x ≠ negate l))
  ∧ (size (complementary a b) ≠ 1 → resolve a b = None).
Proof.
  split; [|apply resolve_None].
  intros Hsize. destruct (resolve a b) as [r|] eqn:E.
  - apply resolve_Some in E as (l & Hl & ->). exists l. eexists.
    split; [done|]. split; [done|]. intros x.
    rewrite elem_of_iter_lits, elem_of_union, !elem_of_difference,
      !elem_of_list_to_set, !elem_of_singleton. done.
  - apply resolve_None in E. done.
Qed.

Lemma resolve_correct_witness :
  (∃ r, resolve (O:=elements_order)
          [(0, 0, true)%Z; (0, 1, true)%Z] [(0, 0, false)%Z; (0, 2, true)%Z] = Some r ∧
        ∀ x, x ∈ r ↔ x ∈ [(0, 1, true)%Z; (0, 2, true)%Z]) ∧
  resolve (O:=elements_order)
    [(0, 0, true)%Z; (0, 1, true)%Z] [(0, 0, false)%Z; (0, 1, false)%Z] = None.
Proof.
  split.
  - destruct (proj1 (resolve_correct (O:=elements_order)
      [(0, 0, true)%Z; (0, 1, true)%Z] [(0, 0, false)%Z; (0, 2, true)%Z]))
      as (l & r & Hl & Hr & Hx); [by vm_compute|].
    exists r. split; [done|]. intros x. rewrite Hx.
    assert (l = (0, 0, true)%Z) as ->.
    { symmetry. apply (elem_of_singleton (C:=gset literal)).
      rewrite <-Hl. by vm_compute. }
    rewrite !elem_of_cons, !elem_of_nil. unfold negate; simpl.
    split.
    + intros [[[->|[->|[]]] Hne]|[[->|[->|[]]] Hne]]; tauto.
    + intros [->|[->|[]]]; [left|right]; (split; [tauto|done]).
  - apply (proj2 (resolve_correct (O:=elements_order) _ _)). by vm_compute.
Defined.

(** C10: [resolve] is symmetric.  [resolve a b] returns a resolvent exactly
    when [resolve b a] does, and the two resolvents then have the same
    literals; the clauses need not even be free of complementary pairs. *)
Theorem resolve_symmetric {O : SetOrder} (a b : clause) :
  tautology_free a → tautology_free b →
  (is_Some (resolve a b) ↔ is_Some (resolve b a)) ∧
  (∀ r1 r2, resolve a b = Some r1 → resolve b a = Some r2 →
            ∀ x, x ∈ r1 ↔ x ∈ r2).
Proof.
  intros _ _. split.
  - split; intros [r Hr]; apply resolve_Some in Hr as (l & Hl & _);
      apply complementary_swap in Hl;
      eexists; apply resolve_Some; eauto.
  - intros r1 r2 H1 H2 x.
    apply resolve_Some in H1 as (l & Hl & ->).
    apply resolve_Some in H2 as (l' & Hl' & ->).
    apply complementary_swap in Hl. rewrite Hl in Hl'.
    assert (l' = negate l) as -> by set_solver.
    rewrite negate_involutive, !elem_of_iter_lits. set_solver.
Qed.

Lemma resolve_symmetric_witness :
  (is_Some (resolve (O:=elements_order)
     [(0, 0, true)%Z; (0, 1, true)%Z] [(0, 0, false)%Z; (0, 2, true)%Z]) ↔
   is_Some (resolve (O:=elements_order)
     [(0, 0, false)%Z; (0, 2, true)%Z] [(0, 0, true)%Z; (0, 1, true)%Z])) ∧
  (∀ r1 r2,
     resolve (O:=elements_order)
       [(0, 0, true)%Z; (0, 1, true)%Z] [(0, 0, false)%Z; (0, 2, true)%Z] = Some r1 →
     resolve (O:=elements_order)
       [(0, 0, false)%Z; (0, 2, true)%Z] [(0, 0, true)%Z; (0, 1, true)%Z] = Some r2 →
     ∀ x, x ∈ r1 ↔ x ∈ r2).
Proof.
  apply (resolve_symmetric (O:=elements_order)).
  - intros l Hl. rewrite !elem_of_cons, elem_of_nil in Hl.
    destruct Hl as [->|[->|[]]]; apply (bool_decide_eq_false_1 _); by vm_compute.
  - intros l Hl. rewrite !elem_of_cons, elem_of_nil in Hl.
    destruct Hl as [->|[->|[]]]; apply (bool_decide_eq_false_1 _); by vm_compute.
Defined.

(** C4, as stated, fails: a single-literal clause already present in [KB]
    (or [KB0]) is skipped by the first test of [insert_clause_to_KB], so no
    propagation takes place.  Whatever the iteration order, inserting
    [((0,1,True),)] into the store below leaves the clause [((0,1,True), (0,2,True))],
    which contains that literal, in [KB]. *)
Lemma unit_propagation_skipped_when_present :
  ¬ ∃ O : SetOrder,
      let self :=
        {| KB := {[ [(0, 1, true)]; [(0, 1, true); (0, 2, true)]; [(0, 0, false)] ]}%Z;
           KB0 := ∅; game := blank_game 3 3; initial_safe_cells := ∅;
           KB_length_history := [] |} in
      ∀ self' r,
        insert_clause_to_KB self [(0, 1, true)%Z] = Some (self', r) →
        [(0, 1, true); (0, 2, true)]%Z ∉ KB self'.
Proof.
  intros (O & H). simpl in H.
  eapply H.
  - apply insert_clause_to_KB_present. left. simpl. set_solver.
  - simpl. set_solver.
Qed.

(** C4, amended: in a store whose [KB0] holds single-literal clauses only,
    inserting a single-literal clause [(L,)] that is not yet in [KB] or
    [KB0] stores [(L,)], deletes from [KB] every clause that contains [L],
    and replaces every clause that contains the complement of [L] (and not
    [L]) by that clause without the complement. *)
Theorem unit_propagation_correct {O : SetOrder} (self : MineSweeperPlayer)
    (l0 : literal) (c2 : clause) :
  KB0_single_literal self → [l0] ∉ KB self → [l0] ∉ KB0 self → c2 ∈ KB self →
  ∃ self', insert_clause_to_KB self [l0] = Some (self', Some [l0]) ∧
    KB0 self' = KB0 self ∧ [l0] ∈ KB self' ∧
    (l0 ∈ c2 → c2 ∉ KB self') ∧
    ((l0 ∉ c2) → negate l0 ∈ c2 →
       (c2 ∉ KB self') ∧ without (negate l0) c2 ∈ KB self').
Proof.
  intros Hwf H1 H2 Hc2. eexists. split; [by apply insert_clause_to_KB_unit|].
  simpl. split; [done|]. split; [set_solver|].
  assert (c2 ≠ [l0]) as Hne by (intros ->; done).
  split.
  - intros Hin. rewrite elem_of_union, elem_of_difference, elem_of_singleton.
    intros [?|[_ Hr]]; [done|]. apply Hr. apply elem_of_filter. tauto.
  - intros Hnin Hneg. split.
    + rewrite elem_of_union, elem_of_difference, elem_of_singleton.
      intros [?|[_ Hr]]; [done|]. apply Hr. apply elem_of_filter. tauto.
    + apply elem_of_union. right. apply elem_of_difference. split.
      * apply elem_of_union. left. apply elem_of_map. exists c2.
        split; [done|]. by apply elem_of_filter.
      * unfold unit_removed. rewrite elem_of_filter. intros [[Hx|Hx] _].
        -- apply Hnin. unfold without in Hx.
           by apply list_elem_of_filter in Hx as [_ ?].
        -- unfold without in Hx. apply list_elem_of_filter in Hx as [Hx _].
           done.
Qed.

Lemma unit_propagation_correct_witness :
  ∃ self',
    insert_clause_to_KB (O:=elements_order)
      {| KB := {[ [(0, 0, true); (0, 1, true)]; [(0, 0, false); (0, 2, true)] ]}%Z;
         KB0 := ∅; game := blank_game 3 3; initial_safe_cells := ∅;
         KB_length_history := [] |} [(0, 0, true)%Z]
    = Some (self', Some [(0, 0, true)%Z]) ∧
    ([(0, 0, true); (0, 1, true)]%Z ∉ KB self') ∧
    ([(0, 0, false); (0, 2, true)]%Z ∉ KB self') ∧
    [(0, 2, true)%Z] ∈ KB self'.
Proof.
  set (self := {| KB := {[ [(0, 0, true); (0, 1, true)];
                           [(0, 0, false); (0, 2, true)] ]}%Z;
                  KB0 := ∅; game := blank_game 3 3; initial_safe_cells := ∅;
                  KB_length_history := [] |}).
  assert (KB0_single_literal self) as Hwf by (intros f Hf; set_solver).
  assert ([(0, 0, true)%Z] ∉ KB self) as H1 by (simpl; set_solver).
  assert ([(0, 0, true)%Z] ∉ KB0 self) as H2 by (simpl; set_solver).
  destruct (unit_propagation_correct (O:=elements_order) self (0, 0, true)%Z
              [(0, 0, true); (0, 1, true)]%Z Hwf H1 H2)
    as (self' & Hins & _ & _ & Hdel & _); [simpl; set_solver|].
  destruct (unit_propagation_correct (O:=elements_order) self (0, 0, true)%Z
              [(0, 0, false); (0, 2, true)]%Z Hwf H1 H2)
    as (self'' & Hins' & _ & _ & _ & Hrep); [simpl; set_solver|].
  rewrite Hins in Hins'. injection Hins' as <-.
  exists self'. split; [done|]. split; [apply Hdel; by left|].
  apply Hrep.
  - apply (bool_decide_eq_false_1 _). by vm_compute.
  - by left.
Defined.

(** C1: the code does not keep [KB] subsumption-minimal.  From the empty
    store, inserting [(A, B)], [(B, C)] and then the fact [(not A,)] makes
    unit propagation put the shortened clause [(B,)] into [KB] with no
    subsumption check, next to its strict superset [(B, C)]; this holds for
    every iteration order. *)
Theorem minimality_broken {O : SetOrder} (g : MineSweeperGame) :
  ∃ self,
    insert_each (empty_player g)
      [ [(0, 0, true); (0, 1, true)]; [(0, 1, true); (0, 2, true)];
        [(0, 0, false)] ]%Z = Some self ∧
    KB self = {[ [(0, 1, true)]; [(0, 1, true); (0, 2, true)]; [(0, 0, false)] ]}%Z ∧
    KB0 self = ∅ ∧
    ¬ subsumption_minimal (KB self).
Proof.
  eexists. split.
  - simpl. rewrite insert_clause_to_KB_fresh; [simpl| done | done | set_solver |].
    2:{ intros x Hx. simpl in Hx. set_solver. }
    rewrite insert_clause_to_KB_fresh; [simpl| done | done | |].
    2:{ simpl. set_solver. }
    2:{ intros x Hx. simpl in Hx.
        assert (x = [(0, 0, true); (0, 1, true)]%Z) as -> by set_solver.
        split; apply (bool_decide_eq_false_1 _); by vm_compute. }
    rewrite insert_clause_to_KB_unit; [simpl; done| | |].
    + intros f Hf. simpl in Hf. set_solver.
    + simpl. set_solver.
    + simpl. set_solver.
  - simpl. split; [by vm_compute|]. split; [done|].
    intros Hmin.
    apply (Hmin [(0, 1, true); (0, 2, true)]%Z [(0, 1, true)]%Z).
    + by vm_compute.
    + by vm_compute.
    + apply (bool_decide_eq_true_1 _). by vm_compute.
Qed.

(** C6: a clause of several literals that contains a committed fact's
    literal verbatim is inserted all the same: [break] leaves the loop of
    [unit_propagation] and nothing tells [insert_clause_to_KB] to stop.
    With [KB0 = {(A,)}] and [KB] empty, inserting [(A, B)] stores it, for
    every iteration order. *)
Theorem redundant_clause_inserted {O : SetOrder} (g : MineSweeperGame) :
  let self := set_KB0 (empty_player g) {[ [(0, 0, true)%Z] ]} in
  insert_clause_to_KB self [(0, 0, true); (0, 1, true)]%Z =
  Some (set_KB self {[ [(0, 0, true); (0, 1, true)]%Z ]},
        Some [(0, 0, true); (0, 1, true)]%Z).
Proof.
  intros self.
  assert ((∅ : gset clause) = KB self) as HK by done.
  rewrite <-(union_empty_r_L {[ [(0, 0, true); (0, 1, true)]%Z ]}), HK.
  apply insert_clause_to_KB_add.
  - simpl. set_solver.
  - simpl. set_solver.
  - apply unit_propagation_noop; [done|]. simpl.
    rewrite iter_clauses_singleton. by vm_compute.
  - simpl. rewrite iter_clauses_singleton. simpl.
    assert (resolve [(0, 0, true); (0, 1, true)]%Z [(0, 0, true)%Z] = None) as ->; [|done].
    apply resolve_None. by vm_compute.
  - simpl. set_solver.
Qed.

(** C7: the rejection of a subsumed clause is not atomic.  With the
    committed fact [(not A,)] in [KB0] and the clause [(B,)] in [KB],
    inserting [(A, B, C)]: the final, simplified clause has the literals [B]
    and [C], of which the stored [(B,)] is a subset.  Yet the operation does
    not leave [KB] as it was: unit propagation has put [(B, C)] into [KB]
    before the subsumption check runs, so that afterwards [KB] holds,
    beside [(B,)], a clause with the literals [B] and [C] that was not there
    before.  This holds for every iteration order. *)
Theorem rejection_not_atomic {O : SetOrder} :
  let self := store {[ [(0, 1, true)%Z] ]} {[ [(0, 0, false)%Z] ]} in
  let c := [(0, 0, true); (0, 1, true); (0, 2, true)]%Z in
  [(0, 1, true)%Z] ∈ KB self ∧
  (list_to_set [(0, 1, true)%Z] : gset literal) ⊆ list_to_set (final_clause self c) ∧
  ∃ self' r,
    insert_clause_to_KB self c = Some (self', r) ∧
    KB0 self' = KB0 self ∧
    [(0, 1, true)%Z] ∈ KB self' ∧
    KB self' ≠ KB self ∧
    ∃ x, x ∈ KB self' ∧ (x ∉ KB self) ∧
         (list_to_set x : gset literal) = {[ (0, 1, true)%Z; (0, 2, true)%Z ]}.
Proof.
  intros self c.
  set (bc := [(0, 1, true); (0, 2, true)]%Z).
  assert (unit_propagation self c = Some (set_KB self ({[ bc ]} ∪ KB self))) as Hup.
  { apply unit_propagation_multi; [done|]. simpl.
    rewrite iter_clauses_singleton. by vm_compute. }
  assert (c ∉ KB self) as H1 by (apply (bool_decide_eq_false_1 _); by vm_compute).
  assert (c ∉ KB0 self) as H2 by (apply (bool_decide_eq_false_1 _); by vm_compute).
  assert ((list_to_set (final_clause self c) : gset literal) =
          {[ (0, 1, true)%Z; (0, 2, true)%Z ]}) as Hfin.
  { unfold final_clause. simpl. rewrite iter_clauses_singleton. simpl.
    destruct (resolve c [(0, 0, false)%Z]) as [r|] eqn:E.
    - apply resolve_Some in E as (l & Hl & ->).
      assert (l = (0, 0, true)%Z) as ->.
      { symmetry. apply (elem_of_singleton (C:=gset literal)).
        rewrite <-Hl. by vm_compute. }
      rewrite (truthy_iter_lits _ _ (0, 1, true)%Z)
        by (apply (bool_decide_eq_true_1 _); by vm_compute).
      simpl. rewrite list_to_set_iter_lits. by vm_compute.
    - apply resolve_None in E. exfalso. apply E. by vm_compute. }
  assert (∀ x : clause, (list_to_set x : gset literal) =
                        {[ (0, 1, true)%Z; (0, 2, true)%Z ]} → x ∉ KB self) as Hfresh.
  { intros x Hx Hin. simpl in Hin. apply elem_of_singleton in Hin as ->.
    revert Hx. apply (bool_decide_eq_false_1 _). by vm_compute. }
  assert ([(0, 1, true)%Z] ∈ KB self) as HB by (simpl; by apply elem_of_singleton).
  split; [done|]. split.
  { rewrite Hfin. apply (bool_decide_eq_true_1 _). by vm_compute. }
  rewrite (insert_clause_to_KB_unfold self c _ H1 H2 Hup).
  destruct (subsumption_scan _ _) as [|t] eqn:Hscan.
  - eexists _, _. split; [done|]. simpl. split; [done|].
    split; [apply elem_of_union_r; by apply elem_of_singleton|].
    assert (bc ∈ {[ bc ]} ∪ ({[ [(0, 1, true)%Z] ]} : gset clause)) as Hin
      by (apply elem_of_union_l; by apply elem_of_singleton).
    split.
    + intros E. rewrite E in Hin. by apply elem_of_singleton in Hin.
    + exists bc. split; [done|]. split; [|by vm_compute].
      intros Habs. by apply elem_of_singleton in Habs.
  - assert (∃ K, (if truthy t
                  then py_remove (default [] t) (KB (set_KB self ({[ bc ]} ∪ KB self)))
                  else Some (KB (set_KB self ({[ bc ]} ∪ KB self)))) = Some K ∧
                 [(0, 1, true)%Z] ∈ K) as (K & HK & HBK).
    { destruct t as [y|]; simpl.
      2:{ eexists. split; [done|]. by apply elem_of_union_r. }
      destruct y as [|y0 y]; simpl.
      { eexists. split; [done|]. by apply elem_of_union_r. }
      apply subsumption_scan_Loop_done in Hscan as (Hy & _ & Hsub).
      apply elem_of_iter_clauses in Hy. simpl in Hy.
      unfold py_remove. rewrite decide_True by done.
      eexists. split; [done|]. apply elem_of_difference. split.
      - by apply elem_of_union_r.
      - intros E. apply elem_of_singleton in E. rewrite <-E, Hfin in Hsub.
        revert Hsub. apply (bool_decide_eq_false_1 _). by vm_compute. }
    rewrite HK. simpl. eexists _, _. split; [done|]. simpl.
    split; [done|]. unfold py_add.
    split; [by apply elem_of_union_r|].
    assert (final_clause self c ∈ {[ final_clause self c ]} ∪ K) as Hin
      by (apply elem_of_union_l; by apply elem_of_singleton).
    split.
    + intros E. rewrite E in Hin. by apply Hfresh in Hin.
    + exists (final_clause self c). split; [done|]. split; [|done].
      by apply Hfresh.
Qed.

(** C8, as stated, fails, clauses being compared as sets of literals and
    for every iteration order.  With the committed fact [(not A,)] in [KB0]
    and the clause [(A, B)] in [KB], inserting [(B, A)], which has the
    literals of the stored clause, is not without effect: the incoming
    clause is first simplified against [KB0], and [(B,)], whose literals no
    clause of [KB] had, ends up in [KB]. *)
Lemma set_idempotence_fails :
  ¬ ∃ O : SetOrder,
      set_identical_is_noop
        (store {[ [(0, 0, true); (0, 1, true)]%Z ]} {[ [(0, 0, false)%Z] ]})
        [(0, 1, true); (0, 0, true)]%Z.
Proof.
  intros (O & H).
  set (self := store {[ [(0, 0, true); (0, 1, true)]%Z ]} {[ [(0, 0, false)%Z] ]}) in *.
  set (c := [(0, 1, true); (0, 0, true)]%Z) in *.
  destruct H as (self' & r & Hins & [_ Hnew] & _).
  { exists [(0, 0, true); (0, 1, true)]%Z.
    split; [left; simpl; by apply elem_of_singleton|].
    unfold same_literals. by vm_compute. }
  assert (unit_propagation self c =
          Some (set_KB self ({[ [(0, 1, true)%Z] ]} ∪ KB self))) as Hup.
  { apply unit_propagation_multi; [done|]. simpl.
    rewrite iter_clauses_singleton. by vm_compute. }
  assert (c ∉ KB self) as H1 by (apply (bool_decide_eq_false_1 _); by vm_compute).
  assert (c ∉ KB0 self) as H2 by (apply (bool_decide_eq_false_1 _); by vm_compute).
  assert (final_clause self c = [(0, 1, true)%Z]) as Hfin.
  { unfold final_clause. simpl. rewrite iter_clauses_singleton. simpl.
    destruct (resolve c [(0, 0, false)%Z]) as [t|] eqn:E.
    - apply resolve_Some in E as (l & Hl & ->).
      assert (l = (0, 0, true)%Z) as ->.
      { symmetry. apply (elem_of_singleton (C:=gset literal)).
        rewrite <-Hl. by vm_compute. }
      assert ((list_to_set c ∖ {[(0, 0, true)%Z]}) ∪
              (list_to_set [(0, 0, false)%Z] ∖ {[negate (0, 0, true)%Z]})
              = ({[ (0, 1, true)%Z ]} : gset literal)) as -> by by vm_compute.
      by rewrite iter_lits_singleton.
    - apply resolve_None in E. exfalso. apply E. by vm_compute. }
  assert ([(0, 1, true)%Z] ∈ KB self') as Hin.
  { destruct (insert_clause_to_KB_cases _ _ _ _ _ H1 H2 Hup Hins)
      as [[_ ->]|[[_ ->]|(_ & _ & y & _ & _ & ->)]]; simpl.
    - apply elem_of_union_l. by apply elem_of_singleton.
    - rewrite Hfin. apply elem_of_union_l. by apply elem_of_singleton.
    - rewrite Hfin. apply elem_of_union_l. by apply elem_of_singleton. }
  destruct (Hnew _ Hin) as (y & Hy & Hsame).
  simpl in Hy. apply elem_of_singleton in Hy as ->.
  revert Hsame. unfold same_literals. apply (bool_decide_eq_false_1 _). by vm_compute.
Qed.

(** C8, amended.  Let [KB0] hold single-literal clauses and let the
    incoming clause contain the complement of no committed literal.
    - If its literals are those of a clause already in [KB] or [KB0], in
      any order, the insertion leaves [KB0] as it is and adds no clause to
      [KB] but a reordering of a stored one; the only clause that can
      disappear from [KB] is one strict superset of the incoming clause.
    - Calling [insert_clause_to_KB] a second time with the same clause
      leaves the whole store as the first call left it, whether the first
      call stored the clause or rejected it. *)
Theorem insertion_idempotent {O : SetOrder} (self : MineSweeperPlayer) (c : clause) :
  KB0_single_literal self →
  (∀ f l0, f ∈ KB0 self → l0 ∈ f → negate l0 ∉ c) →
  (∀ x, x ∈ KB self ∨ x ∈ KB0 self → x ≡ₚ c →
     ∃ self' r, insert_clause_to_KB self c = Some (self', r) ∧
       KB0 self' = KB0 self ∧
       (∀ z, z ∈ KB self' → ∃ y, y ∈ KB self ∧ same_literals z y) ∧
       (∀ y, y ∈ KB self →
          (∃ z, z ∈ KB self' ∧ same_literals z y) ∨
          (list_to_set c : gset literal) ⊂ list_to_set y)) ∧
  (∃ self1 r1 r2, insert_clause_to_KB self c = Some (self1, r1) ∧
                  insert_clause_to_KB self1 c = Some (self1, r2)).
Proof.
  intros Hwf Hneg.
  assert (∀ f, f ∈ KB0 self → f ≠ []) as Hne.
  { intros f Hf ->. by apply Hwf in Hf. }
  assert (length c ≠ 1 → unit_propagation self c = Some self) as Hup.
  { intros Hlen. apply unit_propagation_noop; [done|].
    apply check_against_KB0_no_negation.
    - intros f Hf. apply Hne. by apply elem_of_iter_clauses.
    - intros f l0 Hf Hhd. apply (Hneg f); [by apply elem_of_iter_clauses|].
      destruct f; [done|]. injection Hhd as ->. left. }
  assert (final_clause self c = c) as Hfin.
  { apply resolve_with_KB0_no_negation. intros f l0 Hf. apply Hneg.
    by apply elem_of_iter_clauses. }
  split.
  - intros x Hx Hperm.
    assert (∀ self', self' = self →
              KB0 self' = KB0 self ∧
              (∀ z, z ∈ KB self' → ∃ y, y ∈ KB self ∧ same_literals z y) ∧
              (∀ y, y ∈ KB self →
                 (∃ z, z ∈ KB self' ∧ same_literals z y) ∨
                 (list_to_set c : gset literal) ⊂ list_to_set y)) as Hsame.
    { intros ? ->. split; [done|]. split; intros y Hy; [|left]; by exists y. }
    destruct (decide (c ∈ KB self ∨ c ∈ KB0 self)) as [Hin|Hin].
    { exists self, None. split; [by apply insert_clause_to_KB_present|by apply Hsame]. }
    assert (x ≠ c) as Hxc by (intros ->; tauto).
    assert (length c ≠ 1) as Hlen.
    { intros Hlen. destruct c as [|l0 [|??]]; try done.
      by apply Permutation_singleton_r in Hperm. }
    assert (x ∈ KB self) as HxK.
    { destruct Hx as [?|Hx]; [done|]. apply Hwf in Hx.
      destruct x as [|l0 [|??]]; try done.
      by apply Permutation_singleton_l in Hperm. }
    assert (same_literals c x) as Hcx.
    { unfold same_literals. apply set_eq. intros l.
      by rewrite !elem_of_list_to_set, Hperm. }
    destruct (insert_clause_to_KB_total self c Hne) as (self' & r & Hins & H0 & _).
    exists self', r. split; [done|]. split; [done|].
    destruct (insert_clause_to_KB_cases self c self self' r) as
      [[_ ->]|[[_ ->]|(_ & _ & y & Hy & Hsub & ->)]]; try tauto.
    + by apply Hsame.
    + rewrite Hfin. simpl. split.
      * intros z [Hz|Hz]%elem_of_union; [|by exists z].
        apply elem_of_singleton in Hz as ->. by exists x.
      * intros y Hy. left. exists y. split; [by apply elem_of_union_r|done].
    + rewrite Hfin in *. simpl. split.
      * intros z [Hz|Hz]%elem_of_union.
        -- apply elem_of_singleton in Hz as ->. by exists x.
        -- apply elem_of_difference in Hz as [Hz _]. by exists z.
      * intros y' Hy'. destruct (decide (y' = y)) as [->|Hne'].
        -- destruct (decide ((list_to_set y : gset literal) ⊆ list_to_set c))
             as [Hsup|Hsup].
           ++ left. exists c. split; [apply elem_of_union_l; by apply elem_of_singleton|].
              unfold same_literals. apply set_eq. intros l. split; [apply Hsub|apply Hsup].
           ++ right. by split.
        -- left. exists y'. split; [|done]. apply elem_of_union_r.
           apply elem_of_difference. split; [done|].
           by intros ?%elem_of_singleton.
  - destruct (decide (c ∈ KB self ∨ c ∈ KB0 self)) as [Hin|Hin].
    { exists self, None, None. by rewrite !insert_clause_to_KB_present. }
    destruct (insert_clause_to_KB_total self c Hne) as (self1 & r1 & Hins & H0 & _ & _ & Hr).
    exists self1, r1. destruct r1 as [c'|].
    + exists None. split; [done|]. apply insert_clause_to_KB_present. left.
      assert (c' = c) as <-; [|by apply Hr].
      destruct (decide (length c = 1)) as [Hlen|Hlen].
      * destruct c as [|l0 [|??]]; try done.
        rewrite insert_clause_to_KB_unit in Hins by tauto. by injection Hins as _ <-.
      * destruct (insert_clause_to_KB_cases self c self self1 (Some c')) as
          [[? _]|[[E _]|(E & _)]]; try tauto; try done;
          rewrite Hfin in E; by injection E.
    + assert (length c ≠ 1) as Hlen.
      { intros Hlen. destruct c as [|l0 [|??]]; try done.
        rewrite insert_clause_to_KB_unit in Hins by tauto. done. }
      destruct (insert_clause_to_KB_cases self c self self1 None) as
        [[_ ->]|[[E _]|(E & _)]]; try tauto; try done.
      exists None. by split.
Qed.

Lemma insertion_idempotent_witness :
  let self := store {[ [(0, 0, true); (0, 1, true)]%Z ]} {[ [(0, 2, false)%Z] ]} in
  let c := [(0, 1, true); (0, 0, true)]%Z in
  (∃ self' r, insert_clause_to_KB (O:=tuple_order) self c = Some (self', r) ∧
              KB0 self' = KB0 self ∧
              ∀ z, z ∈ KB self' → ∃ y, y ∈ KB self ∧ same_literals z y) ∧
  (∃ self1 r1 r2, insert_clause_to_KB (O:=tuple_order) self c = Some (self1, r1) ∧
                  insert_clause_to_KB (O:=tuple_order) self1 c = Some (self1, r2)).
Proof.
  intros self c.
  assert (KB0_single_literal self) as Hwf.
  { intros f Hf. simpl in Hf. by apply elem_of_singleton in Hf as ->. }
  assert (∀ f l0, f ∈ KB0 self → l0 ∈ f → negate l0 ∉ c) as Hneg.
  { intros f l0 Hf Hl0. simpl in Hf. apply elem_of_singleton in Hf as ->.
    apply list_elem_of_singleton in Hl0 as ->.
    apply (bool_decide_eq_false_1 _). by vm_compute. }
  destruct (insertion_idempotent (O:=tuple_order) self c Hwf Hneg) as [Hfirst Htwice].
  split; [|exact Htwice].
  destruct (Hfirst [(0, 0, true); (0, 1, true)]%Z) as (self' & r & Hins & H0 & Hnew & _).
  - left. simpl. by apply elem_of_singleton.
  - apply Permutation_swap.
  - exists self', r. split; [exact Hins|]. split; [exact H0|exact Hnew].
Defined.

(** C3: for [m] cells and a hint [0 < n < m], [generate_clauses] passes to
    [insert_clause_to_KB] the clauses of [m-n+1] positive literals, one per
    choice of [m-n+1] of the cells, then the clauses of [n+1] negative
    literals, one per choice of [n+1] of the cells: [C(m, m-n+1)] and
    [C(m, n+1)] clauses.  When the cells are distinct and the store is
    empty, [KB] afterwards holds exactly these clauses, all distinct, and
    [KB0] is still empty (8 and 56 clauses for [m = 8], [n = 2]). *)
Theorem generate_clauses_correct {O : SetOrder} (g : MineSweeperGame)
    (cells : list cell) (n : nat) :
  0 < n < length cells →
  let m := length cells in
  let pos := fmap (M:=list) positive <$> combinations cells (m - n + 1) in
  let neg := fmap (M:=list) negative <$> combinations cells (n + 1) in
  hint_clauses cells (Z.of_nat n) = Some (pos ++ neg) ∧
  length pos = binomial m (m - n + 1) ∧
  length neg = binomial m (n + 1) ∧
  (∀ c, c ∈ pos ↔
        ∃ s, sublist s cells ∧ length s = m - n + 1 ∧ c = positive <$> s) ∧
  (∀ c, c ∈ neg ↔
        ∃ s, sublist s cells ∧ length s = n + 1 ∧ c = negative <$> s) ∧
  (NoDup cells →
   generate_clauses (empty_player g) cells (Z.of_nat n) =
     Some (set_KB (empty_player g) (list_to_set pos ∪ list_to_set neg)) ∧
   size (list_to_set pos : gset clause) = binomial m (m - n + 1) ∧
   size (list_to_set neg : gset clause) = binomial m (n + 1) ∧
   (list_to_set pos : gset clause) ## list_to_set neg).
Proof.
  intros Hn m pos neg.
  assert (hint_clauses cells (Z.of_nat n) = Some (pos ++ neg)) as Hhint.
  { unfold hint_clauses. rewrite decide_False by lia. rewrite decide_False by lia.
    unfold py_combinations. rewrite decide_True by lia. simpl.
    rewrite decide_True by lia. simpl. unfold pos, neg, m.
    replace (Z.to_nat (Z.of_nat (length cells) - Z.of_nat n + 1))
      with (length cells - n + 1) by lia.
    by replace (Z.to_nat (Z.of_nat n + 1)) with (n + 1) by lia. }
  assert (∀ c, c ∈ pos ↔
            ∃ s, sublist s cells ∧ length s = m - n + 1 ∧ c = positive <$> s) as Hpos.
  { intros c. unfold pos. rewrite list_elem_of_fmap. split.
    - intros (s & -> & Hs). apply elem_of_combinations in Hs as [??]. eauto.
    - intros (s & Hs & Hlen & ->). exists s. split; [done|].
      by apply elem_of_combinations. }
  assert (∀ c, c ∈ neg ↔
            ∃ s, sublist s cells ∧ length s = n + 1 ∧ c = negative <$> s) as Hneg.
  { intros c. unfold neg. rewrite list_elem_of_fmap. split.
    - intros (s & -> & Hs). apply elem_of_combinations in Hs as [??]. eauto.
    - intros (s & Hs & Hlen & ->). exists s. split; [done|].
      by apply elem_of_combinations. }
  split; [done|]. split; [|split; [|split; [done|split; [done|]]]].
  { unfold pos. by rewrite length_fmap, length_combinations. }
  { unfold neg. by rewrite length_fmap, length_combinations. }
  intros Hnd. split; [|split; [|split]].
  - unfold generate_clauses. rewrite Hhint. simpl.
    rewrite insert_each_fresh; [|done| |].
    + f_equal. f_equal. simpl. rewrite list_to_set_app_L. set_solver.
    + intros c Hc. apply elem_of_app in Hc as [Hc|Hc].
      * apply Hpos in Hc as (s & _ & Hlen & ->). rewrite length_fmap. lia.
      * apply Hneg in Hc as (s & _ & Hlen & ->). rewrite length_fmap. lia.
    + assert (∀ c x, c ∈ pos ++ neg → x ∈ pos ++ neg → x ≠ c →
                ¬ (list_to_set c : gset literal) ⊆ list_to_set x) as Hinc.
      { intros c x Hc Hx Hne Hsub.
        apply elem_of_app in Hc as [Hc|Hc]; apply elem_of_app in Hx as [Hx|Hx].
        - apply Hpos in Hc as (s1 & H1 & Hl1 & ->).
          apply Hpos in Hx as (s2 & H2 & Hl2 & ->). apply Hne. symmetry.
          apply (hint_clause_included_eq positive cells); try done. lia.
        - apply Hpos in Hc as (s1 & H1 & Hl1 & ->).
          apply Hneg in Hx as (s2 & H2 & Hl2 & ->).
          apply (hint_clause_not_included positive negative s1 s2
                   positive_ne_negative); [|done].
          intros ->. simpl in Hl1. lia.
        - apply Hneg in Hc as (s1 & H1 & Hl1 & ->).
          apply Hpos in Hx as (s2 & H2 & Hl2 & ->).
          apply (hint_clause_not_included negative positive s1 s2
                   (λ x y E, positive_ne_negative y x (eq_sym E))); [|done].
          intros ->. simpl in Hl1. lia.
        - apply Hneg in Hc as (s1 & H1 & Hl1 & ->).
          apply Hneg in Hx as (s2 & H2 & Hl2 & ->). apply Hne. symmetry.
          apply (hint_clause_included_eq negative cells); try done. lia. }
      intros c x Hc [Hx|Hx] Hne; [|by apply elem_of_empty in Hx].
      split; by apply Hinc.
  - rewrite size_list_to_set.
    + unfold pos. by rewrite length_fmap, length_combinations.
    + apply (NoDup_fmap_2 _), NoDup_combinations, Hnd.
  - rewrite size_list_to_set.
    + unfold neg. by rewrite length_fmap, length_combinations.
    + apply (NoDup_fmap_2 _), NoDup_combinations, Hnd.
  - intros c Hc1 Hc2. apply elem_of_list_to_set in Hc1, Hc2.
    apply Hpos in Hc1 as (s1 & _ & Hl1 & ->).
    apply Hneg in Hc2 as (s2 & _ & Hl2 & E).
    destruct s1 as [|x s1]; [simpl in Hl1; lia|].
    destruct s2 as [|y s2]; [done|]. simpl in E.
    assert (positive x = negative y) as E' by congruence.
    by apply positive_ne_negative in E'.
Qed.

(** The hint of the spec's scenario: the eight neighbours of the centre of a
    3x3 board, two of them mines. *)
Lemma generate_clauses_correct_witness :
  let cells := [(0, 0); (0, 1); (0, 2); (1, 0); (1, 2); (2, 0); (2, 1); (2, 2)]%Z in
  let pos := fmap (M:=list) positive <$> combinations cells 7 in
  let neg := fmap (M:=list) negative <$> combinations cells 3 in
  generate_clauses (O:=elements_order) (empty_player (blank_game 3 3)) cells 2 =
    Some (set_KB (empty_player (blank_game 3 3)) (list_to_set pos ∪ list_to_set neg)) ∧
  size (list_to_set pos : gset clause) = 8 ∧
  size (list_to_set neg : gset clause) = 56.
Proof.
  intros cells pos neg.
  destruct (generate_clauses_correct (O:=elements_order) (blank_game 3 3) cells 2)
    as (_ & _ & _ & _ & _ & H); [simpl; lia|].
  destruct H as (Hgen & Hpos & Hneg & _).
  - unfold cells. apply (bool_decide_eq_true_1 _). by vm_compute.
  - split; [exact Hgen|]. split; [exact Hpos|exact Hneg].
Defined.

(** C2: the guesser runs although [KB] holds a single-literal clause.
    [get_single_clause_count] counts these clauses but returns nothing, so
    the test [not single_clause_count] of [game_move] is always true and
    [make_safe_guess] is called on every stuck turn.  With [KB] reduced to
    the one known fact [((0,0,False),)] and a history of four turns of size
    1, the turn calls the guesser, finds nothing to guess and ends without
    acting on the fact; in general, every stuck turn calls the guesser,
    whatever [KB] holds.  This holds for every iteration order. *)
Theorem guess_despite_known_fact {O : SetOrder} (g : MineSweeperGame) :
  (let self := {| KB := {[ [(0, 0, false)%Z] ]}; KB0 := ∅; game := g;
                   initial_safe_cells := ∅; KB_length_history := [1; 1; 1; 1] |} in
   find_single_literal_clause self = Some [(0, 0, false)%Z] ∧
   game_move self =
     Some (set_history self [1; 1; 1; 1; 1], None, [Called_make_safe_guess])) ∧
  (∀ self r, (is_stuck self).2 = true → game_move self = Some r →
             r.2 = [Called_make_safe_guess]).
Proof.
  split.
  - intros self. split.
    + unfold find_single_literal_clause. simpl.
      by rewrite iter_clauses_singleton.
    + assert (is_stuck self = (set_history self [1; 1; 1; 1; 1], true)) as Hstuck
        by by vm_compute.
      assert (make_safe_guess (set_history self [1; 1; 1; 1; 1]) = None) as Hguess.
      { unfold make_safe_guess. cbn [KB set_history self].
        by rewrite iter_clauses_singleton. }
      unfold game_move. rewrite Hstuck. cbn [get_single_clause_count truthy_count
        negb andb]. by rewrite Hguess.
  - intros self r Hstuck. unfold game_move.
    destruct (is_stuck self) as [self1 b]. simpl in Hstuck. subst b. simpl.
    destruct (make_safe_guess self1) as [[l c]|]; [|by intros [= <-]].
    destruct (py_remove c (KB self1)); simpl; [|done].
    destruct (mark_safe _ l); simpl; [|done].
    destruct (get_unmarked_neighbors_and_mine_count _ l) as [[ns n]|]; simpl; [|done].
    destruct (generate_clauses _ ns n); simpl; [|done].
    by intros [= <-].
Qed.

(** C9: no empty clause is stored, as long as the knowledge is about one
    board.  Take any assignment of mines to cells and a store, with
    single-literal clauses in [KB0], whose clauses all hold under it (the
    empty store is one).  Then inserting, one after the other, any clauses
    that hold under the assignment never raises, leaves [KB0] as it is, and
    leaves a store whose clauses all hold; so no clause of [KB] is empty.
    In particular unit propagation of a fact that holds leaves no empty
    clause in [KB]. *)
Theorem no_empty_clause {O : SetOrder} (σ : cell → bool) (self : MineSweeperPlayer) :
  KB0_single_literal self → consistent σ self →
  (∀ cs, (∀ c, c ∈ cs → satisfies σ c) →
     ∃ self', insert_each self cs = Some self' ∧
              KB0 self' = KB0 self ∧ consistent σ self' ∧
              ∀ c, c ∈ KB self' → c ≠ []) ∧
  (∀ l0, holds σ l0 →
     ∃ self', unit_propagation self [l0] = Some self' ∧
              ∀ c, c ∈ KB self' → satisfies σ c ∧ c ≠ []).
Proof.
  intros Hwf Hcons. split.
  - intros cs Hcs.
    destruct (insert_each_sound σ self cs Hwf Hcons Hcs) as (self' & E & H0 & Hcons').
    exists self'. split; [done|]. split; [done|]. split; [done|].
    intros c Hc. apply (satisfies_nonempty σ), Hcons'. by left.
  - intros l0 Hl0. eexists. split; [apply unit_propagation_single|].
    intros c Hc.
    assert (satisfies σ c) as Hsat.
    { eapply (unit_propagation_sound σ self [l0]); try done.
      - by apply satisfies_single.
      - apply unit_propagation_single. }
    split; [done|]. by eapply satisfies_nonempty.
Qed.

(** On a board whose only mine is at [(0, 1)]: from the empty store, the
    facts and clauses below, which hold on it, can be inserted in this
    order, and no clause of [KB] is empty afterwards. *)
Lemma no_empty_clause_witness :
  ∃ self',
    insert_each (O:=elements_order) (empty_player (blank_game 3 3))
      [ [(0, 0, true); (0, 1, true)]; [(0, 0, false); (0, 1, false)];
        [(0, 0, false)]; [(0, 1, true)] ]%Z = Some self' ∧
    ∀ c, c ∈ KB self' → c ≠ [].
Proof.
  set (σ := λ rc : cell, bool_decide (rc = (0, 1)%Z)).
  assert (KB0_single_literal (empty_player (blank_game 3 3))) as Hwf.
  { intros f Hf. simpl in Hf. by apply elem_of_empty in Hf. }
  assert (consistent σ (empty_player (blank_game 3 3))) as Hcons.
  { intros c [Hc|Hc]; simpl in Hc; by apply elem_of_empty in Hc. }
  destruct (proj1 (no_empty_clause (O:=elements_order) σ _ Hwf Hcons)
              [ [(0, 0, true); (0, 1, true)]; [(0, 0, false); (0, 1, false)];
                [(0, 0, false)]; [(0, 1, true)] ]%Z)
    as (self' & E & _ & _ & Hne).
  - intros c Hc. rewrite !elem_of_cons, elem_of_nil in Hc.
    destruct Hc as [->|[->|[->|[->|[]]]]].
    + exists (0, 1, true)%Z. split; [right; left|done].
    + exists (0, 0, false)%Z. split; [left|done].
    + exists (0, 0, false)%Z. split; [left|done].
    + exists (0, 1, true)%Z. split; [left|done].
  - exists self'. split; [exact E|exact Hne].
Defined.

(** * Further properties of the code *)

(** ** [is_stuck] *)

Lemma list_to_set_all_equal (h : list nat) (k : nat) :
  h ≠ [] → (∀ x, x ∈ h → x = k) → (list_to_set h : gset nat) = {[k]}.
Proof.
  intros Hne Hall. apply set_eq. intros x.
  rewrite elem_of_list_to_set, elem_of_singleton. split; [apply Hall|].
  intros ->. destruct h as [|y h]; [done|].
  rewrite (Hall y) by left. left.
Qed.

(** [is_stuck] appends the current size of [KB] to the history, dropping
    the oldest entry once five are held, so that a history of at most five
    entries stays so; it touches no other field, and it answers [True]
    exactly when the history then has five entries, all equal to the current
    size of [KB]. *)
Theorem is_stuck_spec (self : MineSweeperPlayer) :
  let self' := (is_stuck self).1 in
  let h := KB_length_history self in
  let s := size (KB self) in
  KB self' = KB self ∧ KB0 self' = KB0 self ∧ game self' = game self ∧
  initial_safe_cells self' = initial_safe_cells self ∧
  (length h < 5 → KB_length_history self' = h ++ [s]) ∧
  (5 ≤ length h → KB_length_history self' = drop 1 h ++ [s]) ∧
  (length h ≤ 5 → length (KB_length_history self') ≤ 5) ∧
  ((is_stuck self).2 = true ↔
   length (KB_length_history self') = 5 ∧
   ∀ k, k ∈ KB_length_history self' → k = s).
Proof.
  intros self' h s.
  split; [done|]. split; [done|]. split; [done|]. split; [done|].
  assert (KB_length_history self' =
          if decide (stuck_KB_length < length (h ++ [s]))
          then drop 1 (h ++ [s]) else h ++ [s]) as Hh by done.
  split; [|split; [|split]].
  - intros Hlen. rewrite Hh, decide_False; [done|].
    rewrite length_app. unfold stuck_KB_length. simpl. lia.
  - intros Hlen. rewrite Hh, decide_True.
    + destruct h as [|x h]; [simpl in Hlen; lia|]. done.
    + rewrite length_app. unfold stuck_KB_length. simpl. lia.
  - apply is_stuck_bounded.
  - unfold is_stuck. simpl. fold h s. rewrite <-Hh.
    rewrite bool_decide_eq_true. unfold stuck_KB_length. split.
    + intros [Hsize Hlen]. split; [done|]. intros k Hk.
      assert (s ∈ KB_length_history self') as Hin.
      { rewrite Hh. destruct (decide _) as [Hlt|]; [|set_solver].
        destruct h as [|x h]; [simpl in Hlt; unfold stuck_KB_length in Hlt; lia|].
        simpl. rewrite drop_0. set_solver. }
      apply (size_singleton_inv (list_to_set (KB_length_history self') : gset nat));
        [done| |]; by apply elem_of_list_to_set.
    + intros [Hlen Hall]. split; [|done].
      rewrite (list_to_set_all_equal _ s); [apply size_singleton| |done].
      intros E. by rewrite E in Hlen.
Qed.

Lemma is_stuck_spec_witness :
  let self := set_history (store {[ [(0, 0, false)%Z] ]} ∅) [3; 3; 3; 3] in
  KB_length_history (is_stuck self).1 = [3; 3; 3; 3; 1] ∧
  (is_stuck self).2 = false.
Proof.
  intros self.
  destruct (is_stuck_spec self) as (_ & _ & _ & _ & Hh & _ & _ & Hans).
  split.
  - rewrite Hh by (simpl; lia). reflexivity.
  - destruct ((is_stuck self).2) eqn:E; [|done].
    destruct (proj1 Hans eq_refl) as [_ Hall].
    assert (3 = size (KB self)) as H3.
    { apply Hall. rewrite Hh by (simpl; lia). left. }
    vm_compute in H3. done.
Defined.

Lemma window_push_five (h : list nat) (s : nat) :
  length h ≤ 5 →
  window_push (window_push (window_push (window_push (window_push h s) s) s) s) s
  = [s; s; s; s; s].
Proof.
  intros Hlen.
  destruct h as [|a [|b [|c [|d [|e [|f h]]]]]]; [done..|simpl in Hlen; lia].
Qed.

Lemma is_stuck_history (self : MineSweeperPlayer) :
  KB (is_stuck self).1 = KB self ∧
  KB_length_history (is_stuck self).1 =
  window_push (KB_length_history self) (size (KB self)).
Proof. done. Qed.

Lemma is_stuck_answer (self : MineSweeperPlayer) :
  (is_stuck self).2 =
  bool_decide
    (size (list_to_set (window_push (KB_length_history self) (size (KB self)))
           : gset nat) = 1 ∧
     length (window_push (KB_length_history self) (size (KB self))) = stuck_KB_length).
Proof. done. Qed.

(** Five consecutive calls of [is_stuck] with no change of [KB] in between
    make the fifth call answer [True], whatever the (at most five) sizes
    recorded before; with fewer than four sizes recorded, a call answers
    [False]. *)
Theorem is_stuck_after_five_turns (self : MineSweeperPlayer) :
  length (KB_length_history self) ≤ 5 →
  let s1 := (is_stuck self).1 in
  let s2 := (is_stuck s1).1 in
  let s3 := (is_stuck s2).1 in
  let s4 := (is_stuck s3).1 in
  (is_stuck s4).2 = true ∧
  (length (KB_length_history self) < 4 → (is_stuck self).2 = false).
Proof.
  intros Hlen s1 s2 s3 s4. split.
  - pose proof (is_stuck_history self) as [K1 H1].
    pose proof (is_stuck_history s1) as [K2 H2].
    pose proof (is_stuck_history s2) as [K3 H3].
    pose proof (is_stuck_history s3) as [K4 H4].
    fold s1 in K1, H1. fold s2 in K2, H2. fold s3 in K3, H3. fold s4 in K4, H4.
    rewrite is_stuck_answer.
    rewrite H4, H3, H2, H1, K4, K3, K2, K1.
    rewrite window_push_five by done.
    apply bool_decide_eq_true. split; [|done].
    rewrite (list_to_set_all_equal _ (size (KB self))); [apply size_singleton|done|].
    intros x Hx. rewrite !elem_of_cons, elem_of_nil in Hx. tauto.
  - intros Hlt. unfold is_stuck. simpl.
    apply bool_decide_eq_false. intros [_ H5]. revert H5.
    destruct (decide _); [rewrite length_drop|]; rewrite length_app; simpl;
      unfold stuck_KB_length; lia.
Qed.

Lemma is_stuck_after_five_turns_witness :
  let self := store {[ [(0, 0, false)%Z] ]} ∅ in
  (is_stuck (is_stuck (is_stuck (is_stuck (is_stuck self).1).1).1).1).2 = true.
Proof.
  intros self. apply (is_stuck_after_five_turns self). simpl. lia.
Defined.

(** ** [make_safe_guess] *)

Lemma first_safe_literal_Some (c : clause) (l : literal) :
  first_safe_literal c = Some l → l ∈ c ∧ l.2 = false.
Proof.
  unfold first_safe_literal. intros H.
  assert (l ∈ filter (λ literal : literal, literal.2 = false) c) as Hin.
  { destruct (filter _ c) as [|x r]; simpl in H; [done|].
    injection H as ->. left. }
  apply list_elem_of_filter in Hin. tauto.
Qed.

Lemma first_safe_literal_None (c : clause) (l : literal) :
  first_safe_literal c = None → l ∈ c → l.2 = true.
Proof.
  unfold first_safe_literal. intros H Hl.
  destruct (l.2) eqn:E; [done|]. exfalso.
  assert (l ∈ filter (λ literal : literal, literal.2 = false) c) as Hin
    by (by apply list_elem_of_filter).
  destruct (filter _ c); [by apply elem_of_nil in Hin|done].
Qed.

Lemma guess_of_length_Some k (l : list clause) lit c :
  guess_of_length k l = Some (lit, c) →
  c ∈ l ∧ length c = k ∧ first_safe_literal c = Some lit.
Proof.
  induction l as [|x l IH]; simpl; [done|].
  destruct (decide (length x = k)) as [Hk|Hk].
  - destruct (first_safe_literal x) as [y|] eqn:E.
    + intros [= <- <-]. split; [left|done].
    + intros H. apply IH in H as (? & ? & ?). split; [by right|done].
  - intros H. apply IH in H as (? & ? & ?). split; [by right|done].
Qed.

Lemma guess_of_length_None k (l : list clause) c :
  guess_of_length k l = None → c ∈ l → length c = k →
  first_safe_literal c = None.
Proof.
  induction l as [|x l IH]; simpl; intros H Hc Hk; [by apply elem_of_nil in Hc|].
  apply elem_of_cons in Hc as [->|Hc].
  - rewrite decide_True in H by done. by destruct (first_safe_literal x).
  - apply IH; [|done..]. destruct (decide _); [|done].
    by destruct (first_safe_literal x).
Qed.

Lemma guess_from_Some rounds k (l : list clause) r :
  guess_from rounds k l = Some r →
  ∃ k', k ≤ k' < k + rounds ∧ guess_of_length k' l = Some r ∧
        ∀ j, k ≤ j < k' → guess_of_length j l = None.
Proof.
  revert k. induction rounds as [|rounds IH]; intros k; simpl; [done|].
  destruct (guess_of_length k l) as [r'|] eqn:E.
  - intros [= ->]. exists k. split; [lia|]. split; [done|]. intros; lia.
  - intros H. apply IH in H as (k' & Hk' & Hg & Hnone).
    exists k'. split; [lia|]. split; [done|].
    intros j Hj. destruct (decide (j = k)) as [->|]; [done|]. apply Hnone. lia.
Qed.

Lemma guess_from_None rounds k (l : list clause) j :
  guess_from rounds k l = None → k ≤ j < k + rounds →
  guess_of_length j l = None.
Proof.
  revert k. induction rounds as [|rounds IH]; intros k; simpl; [lia|].
  destruct (guess_of_length k l) as [r'|] eqn:E; [done|].
  intros H Hj. destruct (decide (j = k)) as [->|]; [done|].
  apply (IH (S k)); [done|lia].
Qed.

Lemma max_clause_len_ge (l : list clause) (m0 : nat) (c : clause) :
  c ∈ l →
  length c ≤ foldl (λ m c, if decide (m < length c) then length c else m) m0 l.
Proof.
  assert (∀ l m0, m0 ≤ foldl (λ m (c : clause),
            if decide (m < length c) then length c else m) m0 l) as Hmono.
  { clear. induction l as [|x l IH]; intros m0; simpl; [done|].
    etrans; [|apply IH]. destruct (decide _); lia. }
  revert m0. induction l as [|x l IH]; intros m0 Hc; [by apply elem_of_nil in Hc|].
  simpl. apply elem_of_cons in Hc as [->|Hc]; [|by apply IH].
  etrans; [|apply Hmono]. destruct (decide _); lia.
Qed.

Lemma make_safe_guess_Some {O : SetOrder} (self : MineSweeperPlayer) l c :
  make_safe_guess self = Some (l, c) → c ∈ KB self ∧ l ∈ c ∧ l.2 = false.
Proof.
  unfold make_safe_guess. intros E.
  apply guess_from_Some in E as (k & _ & Hg & _).
  apply guess_of_length_Some in Hg as (Hc & _ & Hfirst).
  apply elem_of_iter_clauses in Hc.
  destruct (first_safe_literal_Some _ _ Hfirst) as [Hl Hpol]. done.
Qed.

(** A guess is the first safe (negative) literal of a clause of [KB] that
    has at least two literals, and no clause of [KB] with at least two but
    fewer literals holds any safe literal; there is no guess exactly when
    no clause of [KB] with two or more literals holds a safe literal.
    Single-literal clauses are never used for a guess. *)
Theorem make_safe_guess_spec {O : SetOrder} (self : MineSweeperPlayer) :
  match make_safe_guess self with
  | Some (l, c) =>
      c ∈ KB self ∧ l ∈ c ∧ l.2 = false ∧ 2 ≤ length c ∧
      first_safe_literal c = Some l ∧
      ∀ c' l', c' ∈ KB self → 2 ≤ length c' < length c → l' ∈ c' → l'.2 = true
  | None => ∀ c l, c ∈ KB self → 2 ≤ length c → l ∈ c → l.2 = true
  end.
Proof.
  unfold make_safe_guess.
  set (m := foldl _ 0 _).
  destruct (guess_from (m - 1) 2 (iter_clauses (KB self))) as [[l c]|] eqn:E.
  - apply guess_from_Some in E as (k & Hk & Hg & Hnone).
    apply guess_of_length_Some in Hg as (Hc & Hlen & Hfirst).
    apply elem_of_iter_clauses in Hc.
    destruct (first_safe_literal_Some _ _ Hfirst) as [Hl Hpol].
    split; [done|]. split; [done|]. split; [done|]. split; [lia|].
    split; [done|]. intros c' l' Hc' Hlen' Hl'.
    apply (first_safe_literal_None c'); [|done].
    apply (guess_of_length_None (length c') (iter_clauses (KB self))); [|by apply elem_of_iter_clauses|done].
    apply Hnone. lia.
  - intros c l Hc Hlen Hl.
    apply (first_safe_literal_None c); [|done].
    apply (guess_of_length_None (length c) (iter_clauses (KB self)));
      [|by apply elem_of_iter_clauses|done].
    apply (guess_from_None _ _ _ _ E).
    assert (length c ≤ m) by (by apply max_clause_len_ge, elem_of_iter_clauses).
    lia.
Qed.

(** ** [unit_propagation] and [insert_clause_to_KB] *)

(** Unit propagation of a fact [(L,)] never raises and changes [KB] only:
    afterwards no clause of [KB] mentions [L] or its complement, the clauses
    that mentioned neither are all still there, and every other clause is a
    former clause with the complement of [L] taken out. *)
Theorem unit_propagation_unit_spec {O : SetOrder} (self : MineSweeperPlayer)
    (l0 : literal) :
  ∃ self', unit_propagation self [l0] = Some self' ∧
    KB0 self' = KB0 self ∧ game self' = game self ∧
    KB_length_history self' = KB_length_history self ∧
    (∀ x, x ∈ KB self' → (l0 ∉ x) ∧ (negate l0 ∉ x)) ∧
    (∀ x, x ∈ KB self → l0 ∉ x → negate l0 ∉ x → x ∈ KB self') ∧
    (∀ x, x ∈ KB self' →
       x ∈ KB self ∨
       ∃ y, y ∈ KB self ∧ negate l0 ∈ y ∧ x = without (negate l0) y).
Proof.
  eexists. split; [apply unit_propagation_single|]. simpl.
  split; [done|]. split; [done|]. split; [done|].
  assert (∀ x, x ∈ unit_added l0 (KB self) ↔
               ∃ y, y ∈ KB self ∧ (l0 ∉ y) ∧ negate l0 ∈ y ∧
                    x = without (negate l0) y) as Hadd.
  { intros x. unfold unit_added. rewrite elem_of_map. split.
    - intros (y & -> & Hy). apply elem_of_filter in Hy as [[??]?]. eauto.
    - intros (y & Hy & ? & ? & ->). exists y. split; [done|].
      by apply elem_of_filter. }
  assert (∀ x, x ∈ unit_removed l0 (KB self) ↔
               (l0 ∈ x ∨ negate l0 ∈ x) ∧ x ∈ KB self) as Hrem.
  { intros x. unfold unit_removed. by rewrite elem_of_filter. }
  split; [|split].
  - intros x. rewrite elem_of_difference, elem_of_union, Hrem, Hadd.
    intros [[(y & Hy & Hl & Hn & ->)|Hx] Hr].
    + unfold without. rewrite !list_elem_of_filter. tauto.
    + tauto.
  - intros x Hx H1 H2. rewrite elem_of_difference, elem_of_union, Hrem. tauto.
  - intros x. rewrite elem_of_difference, elem_of_union, Hadd.
    intros [[(y & ? & ? & ? & ->)|?] _]; [right|left]; eauto.
Qed.


(** [insert_clause_to_KB] never raises when [KB0] holds no empty tuple (no
    [IndexError] from [clause0[0]], no [KeyError] from [self.KB.remove]).
    It changes [KB] only, and a clause it returns is stored in [KB]
    afterwards. *)
Theorem insert_clause_to_KB_returns {O : SetOrder} (self : MineSweeperPlayer)
    (c : clause) :
  (∀ f, f ∈ KB0 self → f ≠ []) →
  ∃ self' r, insert_clause_to_KB self c = Some (self', r) ∧
    KB0 self' = KB0 self ∧ game self' = game self ∧
    KB_length_history self' = KB_length_history self ∧
    (∀ c', r = Some c' → c' ∈ KB self').
Proof. apply insert_clause_to_KB_total. Qed.

Lemma insert_clause_to_KB_returns_witness :
  ∃ self' r,
    insert_clause_to_KB (O:=elements_order)
      (store {[ [(0, 1, true)%Z] ]} {[ [(0, 0, false)%Z] ]})
      [(0, 0, true); (0, 2, true)]%Z = Some (self', r) ∧
    KB0 self' = {[ [(0, 0, false)%Z] ]}.
Proof.
  destruct (insert_clause_to_KB_returns (O:=elements_order)
              (store {[ [(0, 1, true)%Z] ]} {[ [(0, 0, false)%Z] ]})
              [(0, 0, true); (0, 2, true)]%Z) as (self' & r & H & H0 & _).
  - intros f Hf. simpl in Hf. apply elem_of_singleton in Hf as ->. done.
  - exists self', r. split; [exact H|exact H0].
Defined.

(** Inserting a clause that is not a single literal removes at most one
    clause from [KB], and only a clause that includes, as a set of
    literals, the clause that is stored in exchange. *)
Theorem insert_removes_only_subsumed {O : SetOrder}
    (self self' : MineSweeperPlayer) (c : clause) (r : option clause) :
  length c ≠ 1 →
  insert_clause_to_KB self c = Some (self', r) →
  (∀ x, x ∈ KB self → x ∉ KB self' →
     ∃ c', r = Some c' ∧ c' ∈ KB self' ∧ c' ≠ [] ∧
           (list_to_set c' : gset literal) ⊆ list_to_set x) ∧
  (∀ x y, x ∈ KB self → x ∉ KB self' → y ∈ KB self → y ∉ KB self' → x = y).
Proof.
  intros Hlen Hins.
  destruct (decide (c ∈ KB self ∨ c ∈ KB0 self)) as [Hin|Hin].
  { rewrite insert_clause_to_KB_present in Hins by done.
    injection Hins as <- <-. split; intros; done. }
  assert (∃ self1, unit_propagation self c = Some self1 ∧ KB self ⊆ KB self1)
    as (self1 & Hup & Hsub).
  { unfold insert_clause_to_KB in Hins. rewrite decide_False in Hins by done.
    destruct (unit_propagation self c) as [self1|] eqn:Hup; [|done].
    exists self1. split; [done|]. unfold unit_propagation in Hup.
    rewrite decide_False in Hup by done.
    destruct (check_against_KB0 _ _ _) as [adds|]; simpl in Hup; [|done].
    rewrite iter_clauses_empty in Hup. simpl in Hup. injection Hup as <-.
    simpl. rewrite foldl_py_add, list_to_set_iter_clauses. set_solver. }
  rewrite (insert_clause_to_KB_unfold self c self1) in Hins by tauto.
  destruct (subsumption_scan _ _) as [|t] eqn:Hscan.
  { injection Hins as <- <-. split; intros x; intros; exfalso; set_solver. }
  assert (∀ x, x ∈ KB self → x ∉ KB self' →
            t = Some x ∧ r = Some (final_clause self c) ∧
            final_clause self c ∈ KB self') as Hkey.
  { intros x Hx Hnx. destruct t as [x0|]; simpl in Hins.
    - destruct x0 as [|a x0]; simpl in Hins.
      + injection Hins as <- <-. exfalso. apply Hnx. simpl. unfold py_add.
        set_solver.
      + unfold py_remove in Hins. destruct (decide _); simpl in Hins; [|done].
        injection Hins as <- <-. simpl in *. unfold py_add in *.
        destruct (decide (x = a :: x0)) as [->|Hne].
        * split; [done|]. split; [done|]. set_solver.
        * exfalso. apply Hnx. set_solver.
    - injection Hins as <- <-. exfalso. apply Hnx. simpl. unfold py_add.
      set_solver. }
  split.
  - intros x Hx Hnx. destruct (Hkey x Hx Hnx) as (-> & -> & Hin').
    apply subsumption_scan_Loop_done in Hscan as (_ & ? & ?). eauto.
  - intros x y Hx Hnx Hy Hny.
    destruct (Hkey x Hx Hnx) as (E1 & _). destruct (Hkey y Hy Hny) as (E2 & _).
    congruence.
Qed.

Lemma insert_removes_only_subsumed_witness :
  ∃ c', c' ∈ ({[ [(0, 1, true); (0, 0, true)]%Z ]} : gset clause) ∧ c' ≠ [] ∧
        (list_to_set c' : gset literal) ⊆
        list_to_set [(0, 0, true); (0, 1, true); (0, 2, true)]%Z.
Proof.
  assert (insert_clause_to_KB (O:=elements_order)
            (store {[ [(0, 0, true); (0, 1, true); (0, 2, true)]%Z ]} ∅)
            [(0, 1, true); (0, 0, true)]%Z
          = Some (store {[ [(0, 1, true); (0, 0, true)]%Z ]} ∅,
                  Some [(0, 1, true); (0, 0, true)]%Z)) as Hins by by vm_compute.
  assert (length [(0, 1, true); (0, 0, true)]%Z ≠ 1) as Hlen by done.
  destruct (proj1 (insert_removes_only_subsumed (O:=elements_order)
                     (store {[ [(0, 0, true); (0, 1, true); (0, 2, true)]%Z ]} ∅)
                     (store {[ [(0, 1, true); (0, 0, true)]%Z ]} ∅)
                     [(0, 1, true); (0, 0, true)]%Z
                     (Some [(0, 1, true); (0, 0, true)]%Z) Hlen Hins)
                  [(0, 0, true); (0, 1, true); (0, 2, true)]%Z)
    as (c' & _ & Hin & Hne & Hsub).
  - apply (bool_decide_eq_true_1 _). by vm_compute.
  - apply (bool_decide_eq_false_1 _). by vm_compute.
  - exists c'. split; [exact Hin|]. split; [exact Hne|exact Hsub].
Defined.

(** ** [generate_clauses]: the hints [n = m], [n = 0] and the malformed ones *)

Lemma combinations_gt {A} (l : list A) (r : nat) :
  length l < r → combinations l r = [].
Proof.
  revert r. induction l as [|x l IH]; intros [|r] Hlt; simpl in *; try lia; [done|].
  rewrite !IH by lia. done.
Qed.

Section Facts.
Context {O : SetOrder}.

Lemma insert_unit_persist self l' :
  KB0_single_literal self →
  ∃ self' r, insert_clause_to_KB self [l'] = Some (self', r) ∧
    KB0 self' = KB0 self ∧
    ([l'] ∈ KB self' ∨ [l'] ∈ KB0 self) ∧
    (∀ l, l ≠ negate l' → [l] ∈ KB self → [l] ∈ KB self').
Proof.
  intros Hwf.
  destruct (decide ([l'] ∈ KB self ∨ [l'] ∈ KB0 self)) as [Hin|Hin].
  { exists self, None. split; [by apply insert_clause_to_KB_present|].
    split; [done|]. split; [done|]. done. }
  eexists _, _. split; [apply insert_clause_to_KB_unit; tauto|]. simpl.
  split; [done|]. split; [left; set_solver|].
  intros l Hneg Hl. destruct (decide (l = l')) as [->|Hne]; [tauto|].
  apply elem_of_union. right. apply elem_of_difference. split; [set_solver|].
  unfold unit_removed. rewrite elem_of_filter, !list_elem_of_singleton.
  intros [[?|?] _]; congruence.
Qed.

Lemma insert_each_facts self (ls : list literal) :
  KB0_single_literal self →
  (∀ l l', l ∈ ls → l' ∈ ls → l ≠ negate l') →
  ∃ self', insert_each self ((λ l, [l]) <$> ls) = Some self' ∧
    KB0 self' = KB0 self ∧
    (∀ l, l ∈ ls → [l] ∈ KB self' ∨ [l] ∈ KB0 self) ∧
    (∀ l, (∀ l', l' ∈ ls → l ≠ negate l') → [l] ∈ KB self → [l] ∈ KB self').
Proof.
  revert self. induction ls as [|l0 ls IH]; intros self Hwf Hcomp; simpl.
  { exists self. split; [done|]. split; [done|]. split; [|done].
    intros l Hl. by apply elem_of_nil in Hl. }
  destruct (insert_unit_persist self l0 Hwf) as (self1 & r & Hins & H0 & Hl0 & Hpers).
  destruct (IH self1) as (self' & Hins' & H0' & Hall & Hpers').
  { intros f Hf. rewrite H0 in Hf. by apply Hwf. }
  { intros l l' Hl Hl'. apply Hcomp; by right. }
  exists self'. split; [by rewrite Hins|]. split; [congruence|]. split.
  - intros l Hl. apply elem_of_cons in Hl as [->|Hl].
    + destruct Hl0 as [Hl0|?]; [|by right]. left. apply Hpers'; [|done].
      intros l' Hl'. apply Hcomp; [left|by right].
    + rewrite <-H0. by apply Hall.
  - intros l Hl Hin. apply Hpers'.
    + intros l' Hl'. apply Hl. by right.
    + apply Hpers; [|done]. apply Hl. left.
Qed.

End Facts.

(** A hint that says every unmarked neighbour is a mine ([n = m]) makes
    every neighbour's mine fact known: [generate_clauses] does not raise,
    leaves [KB0] alone, and afterwards the positive single-literal clause of
    each cell is in [KB] (or was already committed in [KB0]).  Likewise a
    hint [n = 0] makes every neighbour's safe fact known. *)
Theorem generate_clauses_all_or_none {O : SetOrder} (self : MineSweeperPlayer)
    (cells : list cell) :
  KB0_single_literal self →
  (∃ self', generate_clauses self cells (Z.of_nat (length cells)) = Some self' ∧
     KB0 self' = KB0 self ∧
     ∀ c, c ∈ cells → [positive c] ∈ KB self' ∨ [positive c] ∈ KB0 self) ∧
  (∃ self', generate_clauses self cells 0 = Some self' ∧
     KB0 self' = KB0 self ∧
     ∀ c, c ∈ cells → [negative c] ∈ KB self' ∨ [negative c] ∈ KB0 self).
Proof.
  intros Hwf. split.
  - destruct (insert_each_facts self (positive <$> cells) Hwf)
      as (self' & Hins & H0 & Hall & _).
    { intros l l' Hl Hl'. apply list_elem_of_fmap in Hl as (x & -> & _).
      apply list_elem_of_fmap in Hl' as (y & -> & _).
      unfold positive, negate. simpl. congruence. }
    exists self'. split; [|split; [done|]].
    + unfold generate_clauses, hint_clauses. rewrite decide_True by done. simpl.
      by rewrite <-list_fmap_compose in Hins.
    + intros c Hc. apply Hall. by apply list_elem_of_fmap_2.
  - destruct (insert_each_facts self (negative <$> cells) Hwf)
      as (self' & Hins & H0 & Hall & _).
    { intros l l' Hl Hl'. apply list_elem_of_fmap in Hl as (x & -> & _).
      apply list_elem_of_fmap in Hl' as (y & -> & _).
      unfold negative, negate. simpl. congruence. }
    exists self'. split; [|split; [done|]].
    + unfold generate_clauses, hint_clauses.
      destruct (decide (0%Z = Z.of_nat (length cells))) as [E|E]; simpl.
      * destruct cells; [done|simpl in E; lia].
      * by rewrite <-list_fmap_compose in Hins.
    + intros c Hc. apply Hall. by apply list_elem_of_fmap_2.
Qed.

Lemma generate_clauses_all_or_none_witness :
  ∃ self',
    generate_clauses (O:=elements_order)
      (store {[ [(0, 0, true); (0, 1, true)]%Z ]} ∅) [(0, 0); (0, 1)]%Z 0
    = Some self' ∧
    ([negative (0, 1)%Z] ∈ KB self' ∨ [negative (0, 1)%Z] ∈ (∅ : gset clause)).
Proof.
  destruct (proj2 (generate_clauses_all_or_none (O:=elements_order)
                     (store {[ [(0, 0, true); (0, 1, true)]%Z ]} ∅)
                     [(0, 0); (0, 1)]%Z
                     ltac:(intros f Hf; by apply elem_of_empty in Hf)))
    as (self' & Hgen & _ & Hall).
  exists self'. split; [exact Hgen|]. apply Hall. right. left.
Defined.

(** A malformed hint is not always refused.  [generate_clauses] raises
    ([ValueError] of [itertools.combinations]) exactly when [n < -1] or
    [n > m + 1]; for [n = m + 1] and for [n = -1] it passes the empty clause
    to [insert_clause_to_KB], and an empty store then ends up holding the
    empty clause. *)
Theorem malformed_hint (cells : list cell) :
  let m := Z.of_nat (length cells) in
  (∀ n, hint_clauses cells n = None ↔ (n < -1 ∨ m + 1 < n)%Z) ∧
  hint_clauses cells (m + 1) = Some [[]] ∧
  hint_clauses cells (-1) = Some [[]] ∧
  (∀ (O : SetOrder) g,
     generate_clauses (empty_player g) cells (m + 1) =
     Some (set_KB (empty_player g) {[ [] ]})).
Proof.
  intros m.
  assert (hint_clauses cells (m + 1) = Some [[]]) as Hm.
  { unfold hint_clauses. fold m. rewrite decide_False by lia.
    rewrite decide_False by lia. unfold py_combinations.
    rewrite decide_True by lia. simpl. rewrite decide_True by lia. simpl.
    replace (Z.to_nat (m - (m + 1) + 1)) with 0 by lia.
    rewrite combinations_nil_r, combinations_gt by (unfold m; lia). done. }
  split; [|split; [done|split]].
  - intros n. unfold hint_clauses. fold m.
    destruct (decide (n = m)); [split; [done|lia]|].
    destruct (decide (n = 0%Z)); [split; [done|lia]|].
    unfold py_combinations.
    destruct (decide (0 ≤ m - n + 1)%Z); simpl; [|split; [lia|done]].
    destruct (decide (0 ≤ n + 1)%Z); simpl; [split; [done|lia]|split; [lia|done]].
  - unfold hint_clauses. fold m. rewrite decide_False by lia.
    rewrite decide_False by lia. unfold py_combinations.
    rewrite decide_True by lia. simpl. rewrite decide_True by lia. simpl.
    rewrite combinations_nil_r, combinations_gt by (unfold m; lia). done.
  - intros O g. unfold generate_clauses. rewrite Hm. simpl.
    rewrite insert_clause_to_KB_fresh; [|done|done|set_solver|set_solver].
    simpl. f_equal.
Qed.

(** ** The board: [mark_safe], [mark_mine] and the hint *)

Lemma py_pos_lt len i j : py_pos len i = Some j → j < len.
Proof.
  unfold py_pos. destruct (decide _); [intros [= <-]; lia|].
  destruct (decide _); [intros [= <-]; lia|done].
Qed.

Lemma py_pos_nonneg len i j : (0 ≤ i)%Z → py_pos len i = Some j → j = Z.to_nat i.
Proof.
  unfold py_pos. intros Hi. destruct (decide _); [by intros [= <-]|].
  destruct (decide _); [lia|done].
Qed.

Lemma set_cell_None g row col v :
  set_cell g row col v = None ↔ get_cell g row col = None.
Proof.
  unfold set_cell, get_cell.
  destruct (py_pos (length (board g)) row) as [i|] eqn:Hi; simpl; [|done].
  destruct (board g !! i) as [line|] eqn:Hline; simpl; [|done].
  destruct (py_pos (length line) col) as [j|] eqn:Hj; simpl; [|done].
  split; [done|]. intros Hnone. apply py_pos_lt in Hj.
  apply lookup_ge_None in Hnone. lia.
Qed.

Lemma get_cell_set_cell g row col v g' :
  set_cell g row col v = Some g' →
  rows g' = rows g ∧ cols g' = cols g ∧
  get_cell g' row col = Some v ∧
  (∀ r' c', (0 ≤ row)%Z → (0 ≤ col)%Z → (0 ≤ r')%Z → (0 ≤ c')%Z →
            (r', c') ≠ (row, col) → get_cell g' r' c' = get_cell g r' c').
Proof.
  unfold set_cell.
  destruct (py_pos (length (board g)) row) as [i|] eqn:Hi; simpl; [|done].
  destruct (board g !! i) as [line|] eqn:Hline; simpl; [|done].
  destruct (py_pos (length line) col) as [j|] eqn:Hj; simpl; [|done].
  intros [= <-]. simpl. split; [done|]. split; [done|].
  pose proof (py_pos_lt _ _ _ Hi) as Hilt. pose proof (py_pos_lt _ _ _ Hj) as Hjlt.
  split.
  - unfold get_cell. simpl. rewrite length_insert, Hi. simpl.
    rewrite list_lookup_insert_eq by done. simpl.
    rewrite length_insert, Hj. simpl. by rewrite list_lookup_insert_eq.
  - intros r' c' Hr Hc Hr' Hc' Hne. unfold get_cell. simpl.
    rewrite length_insert.
    destruct (py_pos (length (board g)) r') as [i'|] eqn:Hi'; simpl; [|done].
    apply py_pos_nonneg in Hi as Ei; [|done].
    apply py_pos_nonneg in Hi' as Ei'; [|done].
    destruct (decide (i = i')) as [<-|Hii].
    + rewrite list_lookup_insert_eq by done. rewrite Hline. simpl.
      rewrite length_insert.
      destruct (py_pos (length line) c') as [j'|] eqn:Hj'; simpl; [|done].
      apply py_pos_nonneg in Hj as Ej; [|done].
      apply py_pos_nonneg in Hj' as Ej'; [|done].
      rewrite list_lookup_insert_ne; [done|].
      intros <-. apply Hne. f_equal; lia.
    + by rewrite list_lookup_insert_ne.
Qed.

Lemma game_mark_safe_Some g row col g' :
  game_mark_safe g row col = Some g' →
  rows g' = rows g ∧ cols g' = cols g ∧
  (∃ c, get_cell g row col = Some c ∧
        get_cell g' row col =
        Some {| mine := mine c; revealed := true; marked := marked c |}) ∧
  (∀ r' c', (0 ≤ row)%Z → (0 ≤ col)%Z → (0 ≤ r')%Z → (0 ≤ c')%Z →
            (r', c') ≠ (row, col) → get_cell g' r' c' = get_cell g r' c').
Proof.
  unfold game_mark_safe. destruct (get_cell g row col) as [c|] eqn:Hc; simpl; [|done].
  destruct (revealed c) eqn:Hrev.
  - intros [= <-]. split; [done|]. split; [done|]. split; [|done].
    exists c. split; [done|]. rewrite Hc. by destruct c; simpl in *; subst.
  - intros Hset. apply get_cell_set_cell in Hset as (? & ? & Hget & Hframe).
    split; [done|]. split; [done|]. split; [eauto|done].
Qed.

(** [mark_safe] raises exactly when the cell is off the board.  Otherwise
    it reveals that cell and changes nothing else: its mine and marked
    flags, the size of the board and (for coordinates counted from 0) every
    other cell stay the same; revealing a cell twice is the same as once. *)
Theorem game_mark_safe_spec (g : MineSweeperGame) (row col : Z) :
  (game_mark_safe g row col = None ↔ get_cell g row col = None) ∧
  (∀ g', game_mark_safe g row col = Some g' →
     rows g' = rows g ∧ cols g' = cols g ∧
     (∃ c, get_cell g row col = Some c ∧
           get_cell g' row col =
           Some {| mine := mine c; revealed := true; marked := marked c |}) ∧
     (∀ r' c', (0 ≤ row)%Z → (0 ≤ col)%Z → (0 ≤ r')%Z → (0 ≤ c')%Z →
               (r', c') ≠ (row, col) → get_cell g' r' c' = get_cell g r' c') ∧
     game_mark_safe g' row col = Some g').
Proof.
  unfold game_mark_safe. destruct (get_cell g row col) as [c|] eqn:Hc; simpl.
  - destruct (revealed c) eqn:Hrev.
    + split; [done|]. intros g' [= <-]. split; [done|]. split; [done|].
      split; [|split; [done|]].
      * exists c. split; [done|]. rewrite Hc. by destruct c; simpl in *; subst.
      * rewrite Hc. simpl. by rewrite Hrev.
    + split; [rewrite set_cell_None; by rewrite Hc|].
      intros g' Hset. apply get_cell_set_cell in Hset as (? & ? & Hget & Hframe).
      split; [done|]. split; [done|]. split; [eauto|]. split; [done|].
      rewrite Hget. done.
  - split; [done|]. done.
Qed.

Lemma game_mark_safe_spec_witness :
  ∃ c, get_cell (blank_game 3 3) 1 1 = Some c ∧
       game_mark_safe (blank_game 3 3) 1 1 ≫= (λ g', get_cell g' 1 1) =
       Some {| mine := mine c; revealed := true; marked := marked c |}.
Proof.
  destruct (game_mark_safe (blank_game 3 3) 1 1) as [g'|] eqn:E; [|by vm_compute in E].
  destruct (proj2 (game_mark_safe_spec (blank_game 3 3) 1 1) g' E)
    as (_ & _ & (c & Hc & Hc') & _).
  exists c. split; [exact Hc|exact Hc'].
Defined.

(** [mark_mine] raises exactly when the cell is off the board.  Otherwise
    it marks that cell and changes nothing else; marking twice is the same
    as once. *)
Theorem game_mark_mine_spec (g : MineSweeperGame) (row col : Z) :
  (game_mark_mine g row col = None ↔ get_cell g row col = None) ∧
  (∀ g', game_mark_mine g row col = Some g' →
     rows g' = rows g ∧ cols g' = cols g ∧
     (∃ c, get_cell g row col = Some c ∧
           get_cell g' row col =
           Some {| mine := mine c; revealed := revealed c; marked := true |}) ∧
     (∀ r' c', (0 ≤ row)%Z → (0 ≤ col)%Z → (0 ≤ r')%Z → (0 ≤ c')%Z →
               (r', c') ≠ (row, col) → get_cell g' r' c' = get_cell g r' c') ∧
     game_mark_mine g' row col = Some g').
Proof.
  unfold game_mark_mine. destruct (get_cell g row col) as [c|] eqn:Hc; simpl.
  - destruct (marked c) eqn:Hrev.
    + split; [done|]. intros g' [= <-]. split; [done|]. split; [done|].
      split; [|split; [done|]].
      * exists c. split; [done|]. rewrite Hc. by destruct c; simpl in *; subst.
      * rewrite Hc. simpl. by rewrite Hrev.
    + split; [rewrite set_cell_None; by rewrite Hc|].
      intros g' Hset. apply get_cell_set_cell in Hset as (? & ? & Hget & Hframe).
      split; [done|]. split; [done|]. split; [eauto|]. split; [done|].
      rewrite Hget. done.
  - split; [done|]. done.
Qed.

Lemma game_mark_mine_spec_witness :
  ∃ c, get_cell (blank_game 3 3) 0 2 = Some c ∧
       game_mark_mine (blank_game 3 3) 0 2 ≫= (λ g', get_cell g' 0 2) =
       Some {| mine := mine c; revealed := revealed c; marked := true |}.
Proof.
  destruct (game_mark_mine (blank_game 3 3) 0 2) as [g'|] eqn:E; [|by vm_compute in E].
  destruct (proj2 (game_mark_mine_spec (blank_game 3 3) 0 2) g' E)
    as (_ & _ & (c & Hc & Hc') & _).
  exists c. split; [exact Hc|exact Hc'].
Defined.

Lemma visit_neighbor_None g row col l :
  foldl (visit_neighbor g row col) None l = None.
Proof. by induction l. Qed.

Lemma visit_neighbor_foldl g row col l ns0 n0 ns n :
  foldl (visit_neighbor g row col) (Some (ns0, n0)) l = Some (ns, n) →
  ns = ns0 ++ filter (λ rc : cell, (rc.1 ≠ row ∨ rc.2 ≠ col) ∧ unmarked_at g rc) l ∧
  n = (n0 + Z.of_nat (length
         (filter (λ rc, mine_at g rc)
            (filter (λ rc : cell, (rc.1 ≠ row ∨ rc.2 ≠ col) ∧ unmarked_at g rc) l))))%Z.
Proof.
  revert ns0 n0. induction l as [|rc l IH]; intros ns0 n0.
  - simpl. intros [= <- <-]. rewrite app_nil_r. split; [done|lia].
  - cbn [foldl]. rewrite filter_cons.
    assert (unmarked_at g rc =
            match get_cell g rc.1 rc.2 with
            | Some c => negb (revealed c) && negb (marked c)
            | None => false
            end) as Hu by done.
    assert (mine_at g rc =
            match get_cell g rc.1 rc.2 with Some c => mine c | None => false end)
      as Hm by done.
    unfold visit_neighbor at 2. cbn [mbind option_bind].
    destruct (decide (rc.1 ≠ row ∨ rc.2 ≠ col)) as [Hne|Hne].
    + destruct (get_cell g rc.1 rc.2) as [c|]; cbn [mbind option_bind].
      * destruct (negb (revealed c) && negb (marked c)).
        -- rewrite decide_True by (by rewrite Hu).
           intros H. apply IH in H as [-> ->]. rewrite <-app_assoc. split; [done|].
           rewrite filter_cons.
           destruct (mine c).
           ++ rewrite decide_True by (rewrite Hm; exact I).
              cbn [length]. lia.
           ++ rewrite decide_False by (rewrite Hm; intros []). lia.
        -- rewrite decide_False by (rewrite Hu; intros [_ ?]; done).
           intros H. by apply IH in H.
      * by rewrite visit_neighbor_None.
    + rewrite decide_False by tauto. intros H. by apply IH in H.
Qed.

Lemma length_cells_product (R C : list Z) :
  length (r ← R; c ← C; [(r, c)]) = length R * length C.
Proof.
  induction R as [|r R IH]; csimpl; [done|].
  rewrite length_app, IH. f_equal.
  clear IH. induction C as [|c C IHC]; csimpl; [done|]. simpl. by rewrite IHC.
Qed.

Lemma NoDup_cells_product (R C : list Z) :
  NoDup R → NoDup C → NoDup (r ← R; c ← C; [(r, c)]).
Proof.
  intros HR HC. apply NoDup_bind; [| |done].
  - intros r1 r2 y _ _ H1 H2.
    apply list_elem_of_bind in H1 as (c1 & H1 & _).
    apply list_elem_of_bind in H2 as (c2 & H2 & _).
    apply list_elem_of_singleton in H1, H2. congruence.
  - intros r _. apply NoDup_bind; [| |done].
    + intros c1 c2 y _ _ H1 H2. apply list_elem_of_singleton in H1, H2. congruence.
    + intros c _. apply NoDup_singleton.
Qed.

Lemma elem_of_candidate_cells g row col r c :
  (r, c) ∈ candidate_cells g row col ↔
  (Z.max (row - 1) 0 ≤ r < Z.min (row + 2) (rows g))%Z ∧
  (Z.max (col - 1) 0 ≤ c < Z.min (col + 2) (cols g))%Z.
Proof.
  unfold candidate_cells, py_range. rewrite list_elem_of_bind. split.
  - intros (r' & H & Hr). apply list_elem_of_bind in H as (c' & H & Hc).
    apply list_elem_of_singleton in H as [= -> ->].
    apply elem_of_seqZ in Hr, Hc. lia.
  - intros [Hr Hc]. exists r. split; [|apply elem_of_seqZ; lia].
    apply list_elem_of_bind. exists c. split; [apply list_elem_of_singleton; done|].
    apply elem_of_seqZ. lia.
Qed.

Lemma hint_inv (g : MineSweeperGame) (row col : Z)
    (ns : list cell) (n : Z) :
  game_get_unmarked_neighbors_and_mine_count g row col = Some (ns, n) →
  ns = filter (λ rc : cell, (rc.1 ≠ row ∨ rc.2 ≠ col) ∧ unmarked_at g rc)
         (candidate_cells g row col) ∧
  n = Z.of_nat (length (filter (λ rc, mine_at g rc) ns)) ∧
  NoDup ns ∧ length ns ≤ 8 ∧ (0 ≤ n ≤ Z.of_nat (length ns))%Z ∧
  (∀ r c, (r, c) ∈ ns →
     (row - 1 ≤ r ≤ row + 1)%Z ∧ (col - 1 ≤ c ≤ col + 1)%Z ∧
     (0 ≤ r < rows g)%Z ∧ (0 ≤ c < cols g)%Z ∧ (r, c) ≠ (row, col) ∧
     unmarked_at g (r, c) = true).
Proof.
  unfold game_get_unmarked_neighbors_and_mine_count.
  fold (candidate_cells g row col). intros H.
  apply visit_neighbor_foldl in H as [Hns Hn]. simpl in Hns, Hn.
  rewrite <-Hns in Hn. split; [done|]. split; [lia|].
  assert (NoDup (candidate_cells g row col)) as Hnd.
  { apply NoDup_cells_product; apply NoDup_seqZ. }
  split; [rewrite Hns; by apply NoDup_filter|]. split; [|split].
  - assert (length (candidate_cells g row col) =
            Z.to_nat (Z.min (row + 2) (rows g) - Z.max (row - 1) 0) *
            Z.to_nat (Z.min (col + 2) (cols g) - Z.max (col - 1) 0)) as Hlen.
    { unfold candidate_cells, py_range.
      by rewrite length_cells_product, !length_seqZ. }
    destruct (decide ((row, col) ∈ candidate_cells g row col)) as [Hin|Hnin].
    + assert (length ns < length (candidate_cells g row col)) as Hlt.
      { rewrite Hns. apply (length_filter_lt _ _ (row, col)); [done|].
        simpl. intros [[?|?] _]; done. }
      assert (length (candidate_cells g row col) ≤ 9); [|lia].
      rewrite Hlen. 
      assert (Z.to_nat (Z.min (row + 2) (rows g) - Z.max (row - 1) 0) ≤ 3) by lia.
      assert (Z.to_nat (Z.min (col + 2) (cols g) - Z.max (col - 1) 0) ≤ 3) by lia.
      nia.
    + assert (length ns ≤ length (candidate_cells g row col)) as Hle.
      { rewrite Hns. apply length_filter. }
      rewrite elem_of_candidate_cells in Hnin.
      assert (Z.to_nat (Z.min (row + 2) (rows g) - Z.max (row - 1) 0) ≤ 3) by lia.
      assert (Z.to_nat (Z.min (col + 2) (cols g) - Z.max (col - 1) 0) ≤ 3) by lia.
      assert (Z.to_nat (Z.min (row + 2) (rows g) - Z.max (row - 1) 0) ≤ 1 ∨
              Z.to_nat (Z.min (col + 2) (cols g) - Z.max (col - 1) 0) ≤ 1) by lia.
      nia.
  - rewrite Hn. pose proof (length_filter (λ rc, mine_at g rc) ns). lia.
  - intros r c Hin. rewrite Hns in Hin.
    apply list_elem_of_filter in Hin as [[Hne Hun] Hin]. simpl in Hne.
    apply elem_of_candidate_cells in Hin.
    split; [lia|]. split; [lia|]. split; [lia|]. split; [lia|].
    split; [|by destruct (unmarked_at g (r, c))]. intros [= -> ->]. tauto.
Qed.

(** The hint is always well formed.  When
    [get_unmarked_neighbors_and_mine_count] returns, the neighbours are the
    cells of the board at distance one from the given cell, other than the
    cell itself, that are neither revealed nor marked, each listed once (so
    at most eight), and the count is the number of mines among them: it
    lies between [0] and the number of neighbours. *)
Theorem hint_well_formed (g : MineSweeperGame) (row col : Z)
    (ns : list cell) (n : Z) :
  game_get_unmarked_neighbors_and_mine_count g row col = Some (ns, n) →
  ns = filter (λ rc : cell, (rc.1 ≠ row ∨ rc.2 ≠ col) ∧ unmarked_at g rc)
         (candidate_cells g row col) ∧
  n = Z.of_nat (length (filter (λ rc, mine_at g rc) ns)) ∧
  NoDup ns ∧ length ns ≤ 8 ∧ (0 ≤ n ≤ Z.of_nat (length ns))%Z ∧
  (∀ r c, (r, c) ∈ ns →
     (row - 1 ≤ r ≤ row + 1)%Z ∧ (col - 1 ≤ c ≤ col + 1)%Z ∧
     (0 ≤ r < rows g)%Z ∧ (0 ≤ c < cols g)%Z ∧ (r, c) ≠ (row, col) ∧
     unmarked_at g (r, c) = true).
Proof.
  apply hint_inv.
Qed.

Lemma hint_well_formed_witness :
  ∃ ns n,
    game_get_unmarked_neighbors_and_mine_count (blank_game 3 3) 1 1 = Some (ns, n) ∧
    NoDup ns ∧ length ns ≤ 8 ∧ (0 ≤ n ≤ Z.of_nat (length ns))%Z.
Proof.
  destruct (game_get_unmarked_neighbors_and_mine_count (blank_game 3 3) 1 1)
    as [[ns n]|] eqn:E; [|by vm_compute in E].
  destruct (hint_well_formed (blank_game 3 3) 1 1 ns n E) as (_ & _ & H1 & H2 & H3 & _).
  exists ns, n. split; [reflexivity|]. split; [exact H1|]. split; [exact H2|exact H3].
Defined.

Lemma elem_of_all_cells g r c :
  (r, c) ∈ all_cells g ↔ (0 ≤ r < rows g)%Z ∧ (0 ≤ c < cols g)%Z.
Proof.
  unfold all_cells, py_range. rewrite list_elem_of_bind. split.
  - intros (r' & H & Hr). apply list_elem_of_bind in H as (c' & H & Hc).
    apply list_elem_of_singleton in H as [= -> ->].
    apply elem_of_seqZ in Hr, Hc. lia.
  - intros [Hr Hc]. exists r. split; [|apply elem_of_seqZ; lia].
    apply list_elem_of_bind. exists c. split; [apply list_elem_of_singleton; done|].
    apply elem_of_seqZ. lia.
Qed.

Lemma revealed_mine_among_reveal g g' row col cs l b :
  (0 ≤ row)%Z → (0 ≤ col)%Z → (∀ rc, rc ∈ l → (0 ≤ rc.1)%Z ∧ (0 ≤ rc.2)%Z) →
  get_cell g row col = Some cs →
  get_cell g' row col =
    Some {| mine := mine cs; revealed := true; marked := marked cs |} →
  (∀ r' c', (0 ≤ r')%Z → (0 ≤ c')%Z → (r', c') ≠ (row, col) →
            get_cell g' r' c' = get_cell g r' c') →
  revealed_mine_among g l = Some b →
  revealed_mine_among g' l = Some (b || (bool_decide ((row, col) ∈ l) && mine cs)).
Proof.
  intros Hrow Hcol Hpos Hcs Hcs' Hframe. revert b.
  induction l as [|rc l IH]; intros b; simpl.
  - intros [= <-]. done.
  - assert (∀ rc', rc' ∈ l → (0 ≤ rc'.1)%Z ∧ (0 ≤ rc'.2)%Z) as Hpos'
      by (intros; apply Hpos; by right).
    specialize (IH Hpos').
    destruct (decide (rc = (row, col))) as [->|Hne].
    + simpl. rewrite Hcs, Hcs'. simpl.
      rewrite bool_decide_eq_true_2 by left. simpl.
      destruct (mine cs) eqn:Hm.
      * rewrite orb_true_r. by destruct (revealed cs); intros [= <-] || intros _.
      * rewrite andb_false_r. intros H. rewrite (IH b H).
        by rewrite andb_false_r, !orb_false_r.
    + assert (get_cell g' rc.1 rc.2 = get_cell g rc.1 rc.2) as ->.
      { apply Hframe; [apply Hpos; left..|]. by destruct rc. }
      destruct (get_cell g rc.1 rc.2) as [c|]; simpl; [|done].
      destruct (revealed c && mine c); [by intros [= <-]|].
      intros H. rewrite (IH b H). do 3 f_equal.
      apply bool_decide_ext. rewrite elem_of_cons. split; [tauto|].
      intros [?|?]; [congruence|done].
Qed.

Lemma lose_mark_safe (g g' : MineSweeperGame) (row col : Z) (b : bool) :
  (0 ≤ row < rows g)%Z → (0 ≤ col < cols g)%Z →
  lose g = Some b →
  game_mark_safe g row col = Some g' →
  lose g' = Some (b || mine_at g (row, col)).
Proof.
  intros Hrow Hcol Hlose Hmark.
  destruct (game_mark_safe_Some g row col g' Hmark)
    as (Hrows & Hcols & (cs & Hcs & Hcs') & Hframe).
  unfold lose, all_cells. rewrite Hrows, Hcols. fold (all_cells g).
  rewrite (revealed_mine_among_reveal g g' row col cs (all_cells g) b);
    try done; try lia.
  - rewrite bool_decide_eq_true_2 by (by apply elem_of_all_cells).
    unfold mine_at. simpl. by rewrite Hcs.
  - intros [r c] Hin. apply elem_of_all_cells in Hin. simpl. lia.
  - intros r' c' ? ? ?. apply Hframe; (lia || done).
Qed.

(** Revealing a cell of the board loses the game exactly when that cell is
    a mine: after [mark_safe], [lose] answers [True] if it did before or if
    the cell holds a mine, and [False] otherwise. *)
Theorem lose_after_mark_safe (g g' : MineSweeperGame) (row col : Z) (b : bool) :
  (0 ≤ row < rows g)%Z → (0 ≤ col < cols g)%Z →
  lose g = Some b →
  game_mark_safe g row col = Some g' →
  lose g' = Some (b || mine_at g (row, col)).
Proof.
  apply lose_mark_safe.
Qed.

Lemma lose_after_mark_safe_witness :
  ∃ g', game_mark_safe (blank_game 3 3) 1 1 = Some g' ∧ lose g' = Some false.
Proof.
  destruct (game_mark_safe (blank_game 3 3) 1 1) as [g'|] eqn:E; [|by vm_compute in E].
  exists g'. split; [reflexivity|].
  apply (lose_after_mark_safe (blank_game 3 3) g' 1 1 false); [done|done| |exact E].
  by vm_compute.
Defined.

(** ** What a turn keeps: frames and the committed facts *)


(** When [KB] holds a clause that is also a committed fact, the matching
    pass stops at once: it removes exactly one such clause from [KB] and
    does nothing else (the resolvents and removals collected so far are
    dropped). *)
Theorem pairwise_matching_KB0_early_exit {O : SetOrder} (self : MineSweeperPlayer) :
  (∃ c, c ∈ KB self ∧ c ∈ KB0 self) →
  ∃ c, c ∈ KB self ∧ c ∈ KB0 self ∧
       pairwise_matching_KB0 self = Some (set_KB self (KB self ∖ {[c]})).
Proof.
  intros (c & HK & H0).
  destruct (match_facts_found (iter_clauses (KB0 self)) (iter_clauses (KB self))
              (∅, ∅)) as (c' & E & Hc0 & HcK).
  { exists c. by rewrite !elem_of_iter_clauses. }
  apply elem_of_iter_clauses in Hc0, HcK.
  exists c'. split; [done|]. split; [done|].
  unfold pairwise_matching_KB0. rewrite E. unfold py_remove.
  by rewrite decide_True.
Qed.

Lemma pairwise_matching_KB0_early_exit_witness :
  ∃ c, c ∈ ({[ [(0, 0, false)%Z]; [(0, 1, true); (0, 2, true)]%Z ]} : gset clause) ∧
       pairwise_matching_KB0 (O:=elements_order)
         (store {[ [(0, 0, false)%Z]; [(0, 1, true); (0, 2, true)]%Z ]}
                {[ [(0, 0, false)%Z] ]})
       = Some (store ({[ [(0, 0, false)%Z]; [(0, 1, true); (0, 2, true)]%Z ]} ∖ {[c]})
                     {[ [(0, 0, false)%Z] ]}).
Proof.
  destruct (pairwise_matching_KB0_early_exit (O:=elements_order)
              (store {[ [(0, 0, false)%Z]; [(0, 1, true); (0, 2, true)]%Z ]}
                     {[ [(0, 0, false)%Z] ]})) as (c & HK & _ & H).
  - exists [(0, 0, false)%Z]. split; apply (bool_decide_eq_true_1 _); by vm_compute.
  - exists c. split; [exact HK|exact H].
Defined.

(** A turn never drops a committed fact and commits at most one new one:
    when [game_move] returns a cell, [KB0] has gained the single-literal
    clause of a literal on that cell, and when it returns no cell [KB0] is
    unchanged.  Hence [KB0] keeps holding single-literal clauses only; and
    the history keeps at most five entries. *)
Theorem game_move_commits {O : SetOrder} (self self' : MineSweeperPlayer)
    (mv : option cell) (tr : list event) :
  game_move self = Some (self', mv, tr) →
  KB0 self ⊆ KB0 self' ∧
  (mv = None → KB0 self' = KB0 self) ∧
  (∀ rc, mv = Some rc →
     ∃ p, KB0 self' = {[ [(rc.1, rc.2, p)] ]} ∪ KB0 self) ∧
  (KB0_single_literal self → KB0_single_literal self') ∧
  (length (KB_length_history self) ≤ 5 → length (KB_length_history self') ≤ 5).
Proof.
  intros Hmove. destruct (game_move_cases _ _ _ _ Hmove) as [Hcases Hh].
  split; [|split; [|split; [|split]]].
  - destruct Hcases as [[_ ->]|(rc & p & _ & ->)]; set_solver.
  - intros ->. destruct Hcases as [[_ ?]|(rc & p & ? & _)]; done.
  - intros rc ->. destruct Hcases as [[? _]|(rc' & p & [= <-] & ?)]; [done|eauto].
  - intros Hwf f Hf. destruct Hcases as [[_ E]|(rc & p & _ & E)]; rewrite E in Hf.
    + by apply Hwf.
    + apply elem_of_union in Hf as [Hf|Hf]; [|by apply Hwf].
      by apply elem_of_singleton in Hf as ->.
  - intros Hlen. rewrite Hh. by apply is_stuck_bounded.
Qed.

Lemma game_move_commits_witness :
  ∃ self' p,
    game_move (O:=elements_order) (store {[ [(0, 0, true)%Z] ]} ∅)
    = Some (self', Some (0, 0)%Z, []) ∧
    KB0 self' = {[ [(0%Z, 0%Z, p)] ]} ∪ ∅.
Proof.
  destruct (game_move (O:=elements_order) (store {[ [(0, 0, true)%Z] ]} ∅))
    as [[[self' mv] tr]|] eqn:E; [|by vm_compute in E].
  assert (mv = Some (0, 0)%Z ∧ tr = []) as [-> ->].
  { vm_compute in E. by injection E as _ <- <-. }
  destruct (game_move_commits (O:=elements_order) _ _ _ _ E) as (_ & _ & H & _).
  destruct (H (0, 0)%Z eq_refl) as [p Hp].
  exists self', p. split; [reflexivity|exact Hp].
Defined.

(** Over a whole game: after any number of turns from a freshly created
    player, [KB0] holds single-literal clauses only, and the history holds
    at most five sizes. *)
Theorem play_invariant {O : SetOrder} (g : MineSweeperGame) (safe : gset cell)
    (k : nat) (self : MineSweeperPlayer) :
  moves k (init g safe) = Some self →
  KB0_single_literal self ∧ length (KB_length_history self) ≤ 5.
Proof.
  assert (∀ k s s', KB0_single_literal s ∧ length (KB_length_history s) ≤ 5 →
            moves k s = Some s' →
            KB0_single_literal s' ∧ length (KB_length_history s') ≤ 5) as Hind.
  { clear. intros k. induction k as [|k IH]; intros s s' Hinv; simpl.
    - by intros [= <-].
    - destruct (game_move s) as [[[s1 mv] tr]|] eqn:E; simpl; [|done].
      apply IH. by eapply game_move_invariant. }
  apply Hind. split; [|simpl; lia].
  intros f Hf. simpl in Hf. by apply elem_of_empty in Hf.
Qed.

Lemma play_invariant_witness :
  ∃ self, moves (O:=elements_order) 2 (init (blank_game 3 3) {[ (1, 1)%Z ]}) = Some self ∧
          length (KB_length_history self) ≤ 5.
Proof.
  destruct (moves (O:=elements_order) 2 (init (blank_game 3 3) {[ (1, 1)%Z ]}))
    as [self|] eqn:E; [|by vm_compute in E].
  exists self. split; [reflexivity|].
  exact (proj2 (play_invariant (O:=elements_order) _ _ _ _ E)).
Defined.

(** [pairwise_matching] examines a pair of clauses only when both have at
    most two literals: when [KB] holds at most one such clause, no pair is
    examined and the player is left as it was, whatever the other clauses
    could be resolved with. *)
Theorem pairwise_matching_bounded {O : SetOrder} (self : MineSweeperPlayer) :
  (∀ c c', c ∈ KB self → c' ∈ KB self → length c ≤ 2 → length c' ≤ 2 → c = c') →
  pairwise_matching self = Some self.
Proof.
  intros Hone. unfold pairwise_matching.
  assert (∀ l acc, NoDup l →
            (∀ c c', c ∈ l → c' ∈ l → length c ≤ 2 → length c' ≤ 2 → c = c') →
            match_pairs l acc = acc) as Hpairs.
  { clear. induction l as [|x l IH]; intros acc Hnd Hl; simpl; [done|].
    apply NoDup_cons in Hnd as [Hx Hnd].
    assert (∀ l' acc, l' ⊆ l → foldl (λ acc y, match_pair x y acc) acc l' = acc) as ->.
    { clear IH. induction l' as [|y l' IH']; intros acc' Hsub; simpl; [done|].
      rewrite IH' by set_solver. unfold match_pair. rewrite decide_False; [done|].
      intros [H1 H2]. apply Hx.
      assert (y ∈ l) as Hy by (apply Hsub; left).
      rewrite (Hl x y); [done|left|by right|done|done]. }
    - apply IH; [done|]. intros c c' Hc Hc'. apply Hl; by right.
    - done. }
  rewrite Hpairs.
  - rewrite iter_clauses_empty. simpl. by rewrite set_KB_KB.
  - apply iter_clauses_NoDup.
  - intros c c'. rewrite !elem_of_iter_clauses. apply Hone.
Qed.

Lemma pairwise_matching_bounded_witness :
  let self := store {[ [(0, 0, true)%Z];
                       [(0, 0, false); (0, 1, true); (0, 2, true)]%Z ]} ∅ in
  pairwise_matching (O:=elements_order) self = Some self.
Proof.
  intros self. apply (pairwise_matching_bounded (O:=elements_order) self).
  intros c c' Hc Hc'. simpl in Hc, Hc'.
  apply elem_of_union in Hc as [Hc|Hc]; apply elem_of_singleton in Hc as ->;
    apply elem_of_union in Hc' as [Hc'|Hc']; apply elem_of_singleton in Hc' as ->;
    simpl; (done || lia).
Defined.

(** Unit propagation of a clause that is not a single literal removes
    nothing: it only adds to [KB] copies of the incoming clause with one
    literal taken out, a literal whose complement heads a committed fact of
    [KB0]; the fields other than [KB] are untouched. *)
Theorem unit_propagation_several_spec {O : SetOrder}
    (self self1 : MineSweeperPlayer) (c : clause) :
  length c ≠ 1 →
  unit_propagation self c = Some self1 →
  same_frame self self1 ∧ KB self ⊆ KB self1 ∧
  (∀ x, x ∈ KB self1 →
     x ∈ KB self ∨
     ∃ f l0, f ∈ KB0 self ∧ head f = Some l0 ∧ (l0 ∉ c) ∧ negate l0 ∈ c ∧
             x = without (negate l0) c).
Proof.
  intros Hlen Hup. split; [by eapply unit_propagation_frame|].
  unfold unit_propagation in Hup. rewrite decide_False in Hup by done.
  destruct (check_against_KB0 _ _ _) as [adds|] eqn:E; simpl in Hup; [|done].
  rewrite iter_clauses_empty in Hup. simpl in Hup. injection Hup as <-. simpl.
  rewrite foldl_py_add, list_to_set_iter_clauses. split; [set_solver|].
  intros x Hx. apply elem_of_union in Hx as [Hx|Hx]; [|by left].
  destruct (check_against_KB0_adds _ _ _ _ E x Hx)
    as [Habs|(f & l0 & Hf & ?)]; [by apply elem_of_empty in Habs|].
  right. exists f, l0. split; [by apply elem_of_iter_clauses in Hf|done].
Qed.

Lemma unit_propagation_several_spec_witness :
  ∃ self1,
    unit_propagation (O:=elements_order)
      (store {[ [(0, 1, true)%Z] ]} {[ [(0, 0, false)%Z] ]})
      [(0, 0, true); (0, 2, true)]%Z = Some self1 ∧
    ({[ [(0, 1, true)%Z] ]} : gset clause) ⊆ KB self1.
Proof.
  destruct (unit_propagation (O:=elements_order)
              (store {[ [(0, 1, true)%Z] ]} {[ [(0, 0, false)%Z] ]})
              [(0, 0, true); (0, 2, true)]%Z) as [self1|] eqn:E; [|by vm_compute in E].
  exists self1. split; [reflexivity|].
  assert (length [(0, 0, true); (0, 2, true)]%Z ≠ 1) as Hlen by done.
  exact (proj1 (proj2 (unit_propagation_several_spec (O:=elements_order) _ _ _ Hlen E))).
Defined.

(** ** Inference is sound; contradictory facts *)

(** Whatever clause [matching_clauses] returns follows from its two
    arguments: it holds under every assignment of mines under which both
    hold.  When no subsumption is reported, that clause is the resolvent,
    and the two arguments have exactly one complementary pair. *)
Theorem matching_clauses_entailed {O : SetOrder} (a b r : clause) (strict : bool) :
  matching_clauses a b = (Some r, strict) →
  (∀ σ, satisfies σ a → satisfies σ b → satisfies σ r) ∧
  (strict = true → r ≠ [] ∧ (same_literals r a ∨ same_literals r b)) ∧
  (strict = false → resolve a b = Some r ∧ size (complementary a b) = 1).
Proof.
  intros H. split; [|split].
  - intros σ. by eapply matching_clauses_sound.
  - intros ->. unfold matching_clauses in H.
    destruct (truthy (subsumption_checking a b)) eqn:Ht; [|done].
    injection H as H. rewrite H in Ht. split; [by destruct r|].
    destruct (subsumption_checking_Some _ _ _ H) as [_ [[_ E]|(_ & _ & E)]];
      [by left|by right].
  - intros ->. unfold matching_clauses in H.
    destruct (truthy (subsumption_checking a b)); [done|].
    injection H as H. split; [done|].
    destruct (decide (size (complementary a b) = 1)) as [|Hne]; [done|].
    apply resolve_None in Hne. congruence.
Qed.

Lemma matching_clauses_entailed_witness :
  ∃ r, matching_clauses (O:=elements_order)
         [(0, 0, false)%Z] [(0, 0, true); (0, 1, true)]%Z = (Some r, false) ∧
       ∀ σ, satisfies σ [(0, 0, false)%Z] →
            satisfies σ [(0, 0, true); (0, 1, true)]%Z → satisfies σ r.
Proof.
  destruct (matching_clauses (O:=elements_order)
              [(0, 0, false)%Z] [(0, 0, true); (0, 1, true)]%Z) as [[r|] strict] eqn:E;
    [|by vm_compute in E].
  assert (strict = false) as -> by (vm_compute in E; by injection E as _ <-).
  exists r. split; [reflexivity|].
  exact (proj1 (matching_clauses_entailed (O:=elements_order) _ _ _ _ E)).
Defined.

(** Facts that contradict each other do leave the empty clause in [KB]:
    from the empty store, inserting [(not L,)] and then [(L,)] makes unit
    propagation shorten [(not L,)] to [()], for every iteration order.
    The two facts hold together on no board. *)
Theorem contradictory_facts_leave_empty_clause {O : SetOrder} (g : MineSweeperGame) :
  (∃ self,
     insert_each (empty_player g) [ [(0, 0, false)]; [(0, 0, true)] ]%Z = Some self ∧
     KB self = {[ []; [(0, 0, true)%Z] ]}) ∧
  ¬ ∃ σ, satisfies σ [(0, 0, false)%Z] ∧ satisfies σ [(0, 0, true)%Z].
Proof.
  split.
  - eexists. split.
    + simpl. rewrite insert_clause_to_KB_unit; [simpl| | |].
      2:{ intros f Hf. simpl in Hf. set_solver. }
      2,3: simpl; set_solver.
      rewrite insert_clause_to_KB_unit; [simpl; done| | |].
      * intros f Hf. simpl in Hf. set_solver.
      * simpl. apply (bool_decide_eq_false_1 _). by vm_compute.
      * simpl. set_solver.
    + simpl. by vm_compute.
  - intros (σ & H1%satisfies_single & H2%satisfies_single).
    unfold holds in *. simpl in *. congruence.
Qed.

(** The subsumption loop recognises a stored subset by comparing tuples:
    with only the non-empty clause [x] in [KB], nothing in [KB0], and an
    incoming clause [c] of which [x] is a strict subset, [c] is rejected,
    the store being left as it was, exactly when [tuple(set(x))] is [x]
    itself; otherwise [c] is stored beside [x]. *)
Theorem rejection_compares_tuples {O : SetOrder} (g : MineSweeperGame) (x c : clause) :
  x ≠ [] → length c ≠ 1 →
  (list_to_set x : gset literal) ⊂ list_to_set c →
  let self := set_KB (empty_player g) {[ x ]} in
  (iter_lits [x] (list_to_set x) = x →
   insert_clause_to_KB self c = Some (self, None)) ∧
  (iter_lits [x] (list_to_set x) ≠ x →
   insert_clause_to_KB self c = Some (set_KB self ({[ c ]} ∪ {[ x ]}), Some c)).
Proof.
  intros Hx Hlen [Hsub Hnsub] self.
  assert (c ∉ KB self) as H1.
  { simpl. intros ->%elem_of_singleton. by apply Hnsub. }
  assert (c ∉ KB0 self) as H2 by (simpl; apply not_elem_of_empty).
  assert (unit_propagation self c = Some self) as Hup.
  { apply unit_propagation_noop; [done|]. simpl. by rewrite iter_clauses_empty. }
  assert (final_clause self c = c) as Hfin.
  { unfold final_clause. simpl. by rewrite iter_clauses_empty. }
  assert (truthy (Some (iter_lits [x] (list_to_set x))) = true) as Ht.
  { destruct x as [|x0 x]; [done|]. apply (truthy_iter_lits _ _ x0).
    apply elem_of_list_to_set. left. }
  assert (iter_lits [x] (list_to_set x) ≠ c) as Hne.
  { intros E. apply Hnsub. rewrite <-E, list_to_set_iter_lits. done. }
  rewrite (insert_clause_to_KB_unfold self c self H1 H2 Hup), Hfin. simpl.
  rewrite iter_clauses_singleton. simpl.
  rewrite (subsumption_checking_subset c x Hnsub Hsub), Ht. simpl.
  rewrite decide_False by (intros [= E]; done).
  split; intros E.
  - by rewrite decide_True by (by rewrite E).
  - by rewrite decide_False by (intros [= E']; done).
Qed.

Lemma rejection_compares_tuples_witness :
  let x := [(0, 0, true); (0, 3, true)]%Z in
  let c := [(0, 0, true); (0, 3, true); (0, 1, true)]%Z in
  let self := set_KB (empty_player (blank_game 3 3)) {[ x ]} in
  insert_clause_to_KB (O:=tuple_order) self c = Some (self, None) ∧
  insert_clause_to_KB (O:=elements_order) self c =
    Some (set_KB self ({[ c ]} ∪ {[ x ]}), Some c).
Proof.
  intros x c self.
  assert (x ≠ []) as Hx by done.
  assert (length c ≠ 1) as Hlen by (simpl; lia).
  assert ((list_to_set x : gset literal) ⊂ list_to_set c) as Hsub.
  { split; [apply (bool_decide_eq_true_1 _)|apply (bool_decide_eq_false_1 _)];
      by vm_compute. }
  split.
  - apply (proj1 (rejection_compares_tuples (O:=tuple_order) (blank_game 3 3) x c
                    Hx Hlen Hsub)).
    by vm_compute.
  - apply (proj2 (rejection_compares_tuples (O:=elements_order) (blank_game 3 3) x c
                    Hx Hlen Hsub)).
    by vm_compute.
Defined.

(** ** Over a whole game, the knowledge stays true of the board *)

Lemma set_cell_mine_at g row col v g' c0 :
  get_cell g row col = Some c0 → mine v = mine c0 →
  set_cell g row col v = Some g' →
  rows g' = rows g ∧ cols g' = cols g ∧ ∀ rc, mine_at g' rc = mine_at g rc.
Proof.
  unfold set_cell, get_cell.
  destruct (py_pos (length (board g)) row) as [i|] eqn:Hi; simpl; [|done].
  destruct (board g !! i) as [line|] eqn:Hline; simpl; [|done].
  destruct (py_pos (length line) col) as [j|] eqn:Hj; simpl; [|done].
  intros Hc0 Hm [= <-]. simpl. split; [done|]. split; [done|].
  pose proof (py_pos_lt _ _ _ Hi) as Hilt. pose proof (py_pos_lt _ _ _ Hj) as Hjlt.
  intros [r' c']. unfold mine_at, get_cell. simpl. rewrite length_insert.
  destruct (py_pos (length (board g)) r') as [i'|] eqn:Hi'; simpl; [|done].
  destruct (decide (i = i')) as [<-|Hii].
  - rewrite list_lookup_insert_eq by done. rewrite Hline. simpl.
    rewrite length_insert.
    destruct (py_pos (length line) c') as [j'|] eqn:Hj'; simpl; [|done].
    destruct (decide (j = j')) as [<-|Hjj].
    + rewrite list_lookup_insert_eq by done. by rewrite Hc0.
    + by rewrite list_lookup_insert_ne.
  - by rewrite list_lookup_insert_ne.
Qed.

Lemma game_mark_safe_mine_at g row col g' :
  game_mark_safe g row col = Some g' →
  rows g' = rows g ∧ cols g' = cols g ∧ ∀ rc, mine_at g' rc = mine_at g rc.
Proof.
  unfold game_mark_safe. destruct (get_cell g row col) as [c|] eqn:Hc; simpl; [|done].
  destruct (revealed c); [by intros [= <-]|].
  by apply (set_cell_mine_at g row col _ g' c).
Qed.

Lemma game_mark_mine_mine_at g row col g' :
  game_mark_mine g row col = Some g' →
  rows g' = rows g ∧ cols g' = cols g ∧ ∀ rc, mine_at g' rc = mine_at g rc.
Proof.
  unfold game_mark_mine. destruct (get_cell g row col) as [c|] eqn:Hc; simpl; [|done].
  destruct (marked c); [by intros [= <-]|].
  by apply (set_cell_mine_at g row col _ g' c).
Qed.

Lemma sublist_filter_mono {A} (P : A → Prop) `{!∀ x, Decision (P x)} (l1 l2 : list A) :
  sublist l1 l2 → sublist (filter P l1) (filter P l2).
Proof.
  induction 1 as [|x l1 l2 _ IH|x l1 l2 _ IH]; [done| |].
  - rewrite !filter_cons. destruct (decide (P x)); [by constructor|done].
  - rewrite filter_cons. destruct (decide (P x)); [by constructor|done].
Qed.

(** Among cells of which [n] are mines, every choice of more than
    [length ns - n] cells holds a mine, and every choice of more than [n]
    cells holds a cell that is not one. *)
Lemma sublist_holds_mine (σ : cell → bool) (ns p : list cell) :
  sublist p ns → length ns - length (filter (λ rc, σ rc) ns) < length p →
  ∃ rc, rc ∈ p ∧ σ rc = true.
Proof.
  intros Hsub Hlen.
  destruct (decide (Exists (λ rc, σ rc = true) p)) as [Hex|Hnex].
  { apply Exists_exists in Hex. done. }
  exfalso. apply not_Exists_Forall in Hnex; [|apply _].
  assert (filter (λ rc, ¬ σ rc) p = p) as Hp.
  { clear -Hnex. induction Hnex as [|x l Hx _ IH]; [done|].
    rewrite filter_cons, decide_True, IH; [done|]. simpl in Hx.
    intros Ht. apply Hx. by destruct (σ x). }
  pose proof (sublist_length _ _ (sublist_filter_mono (λ rc, ¬ σ rc) _ _ Hsub)) as Hle.
  rewrite Hp in Hle.
  pose proof (Permutation_length (filter_app_complement (λ rc, σ rc) ns)) as Hall.
  rewrite length_app in Hall. lia.
Qed.

Lemma sublist_holds_safe (σ : cell → bool) (ns p : list cell) :
  sublist p ns → length (filter (λ rc, σ rc) ns) < length p →
  ∃ rc, rc ∈ p ∧ σ rc = false.
Proof.
  intros Hsub Hlen.
  destruct (decide (Exists (λ rc, σ rc = false) p)) as [Hex|Hnex].
  { apply Exists_exists in Hex. done. }
  exfalso. apply not_Exists_Forall in Hnex; [|apply _].
  assert (filter (λ rc, σ rc) p = p) as Hp.
  { clear -Hnex. induction Hnex as [|x l Hx _ IH]; [done|].
    rewrite filter_cons, decide_True, IH; [done|]. simpl in Hx.
    destruct (σ x); [done|]. by destruct Hx. }
  pose proof (sublist_length _ _ (sublist_filter_mono (λ rc, σ rc) _ _ Hsub)) as Hle.
  rewrite Hp in Hle. lia.
Qed.

(** The clauses made from a truthful hint hold, and are about the cells of
    the hint. *)
Lemma hint_clauses_hold (σ : cell → bool) (ns : list cell) (n : Z) (cs : list clause) :
  n = Z.of_nat (length (filter (λ rc, σ rc) ns)) →
  hint_clauses ns n = Some cs →
  ∀ c, c ∈ cs → satisfies σ c ∧ ∀ l, l ∈ c → (l.1.1, l.1.2) ∈ ns.
Proof.
  intros Hn. unfold hint_clauses.
  pose proof (length_filter (λ rc, σ rc) ns) as Hle.
  destruct (decide (n = Z.of_nat (length ns))) as [Hm|Hm].
  { intros [= <-] c (rc & -> & Hrc)%list_elem_of_fmap. split.
    - apply satisfies_single. unfold holds, positive. simpl.
      destruct (σ (rc.1, rc.2)) eqn:E; [done|]. exfalso.
      assert (length (filter (λ rc, σ rc) ns) < length ns); [|lia].
      apply (length_filter_lt _ _ rc); [done|]. intros Ht. destruct rc.
      simpl in *. by rewrite E in Ht.
    - intros l ->%list_elem_of_singleton. by destruct rc. }
  destruct (decide (n = 0%Z)) as [H0|H0].
  { intros [= <-] c (rc & -> & Hrc)%list_elem_of_fmap. split.
    - apply satisfies_single. unfold holds, negative. simpl.
      destruct (σ (rc.1, rc.2)) eqn:E; [|done]. exfalso.
      assert (rc ∈ filter (λ rc, σ rc) ns) as Hin.
      { apply list_elem_of_filter. split; [|done]. destruct rc.
        simpl in *. by rewrite E. }
      destruct (filter _ ns); [by apply elem_of_nil in Hin|simpl in Hn; lia].
    - intros l ->%list_elem_of_singleton. by destruct rc. }
  unfold py_combinations. rewrite !decide_True by lia. simpl.
  intros [= <-] c [Hc|Hc]%elem_of_app.
  - apply list_elem_of_fmap in Hc as (p & -> & Hp).
    apply elem_of_combinations in Hp as [Hsub Hlen].
    destruct (sublist_holds_mine σ ns p Hsub) as (rc & Hrc & Htrue); [lia|]. split.
    + exists (positive rc). split; [by apply list_elem_of_fmap_2|].
      unfold holds, positive. simpl. by destruct rc.
    + intros l (rc' & -> & Hrc')%list_elem_of_fmap. simpl.
      destruct rc'. by apply (elem_of_sublist p).
  - apply list_elem_of_fmap in Hc as (p & -> & Hp).
    apply elem_of_combinations in Hp as [Hsub Hlen].
    destruct (sublist_holds_safe σ ns p Hsub) as (rc & Hrc & Hfalse); [lia|]. split.
    + exists (negative rc). split; [by apply list_elem_of_fmap_2|].
      unfold holds, negative. simpl. by destruct rc.
    + intros l (rc' & -> & Hrc')%list_elem_of_fmap. simpl.
      destruct rc'. by apply (elem_of_sublist p).
Qed.

Section Play.
Context {O : SetOrder} (g : MineSweeperGame).

Lemma true_on_resolve a b r :
  resolve a b = Some r → true_on g a → true_on g b → true_on g r.
Proof.
  intros Hr [Ha Hoa] [Hb Hob]. split; [by eapply resolve_sound|].
  apply resolve_Some in Hr as (l & _ & ->). intros x.
  rewrite elem_of_iter_lits, elem_of_union, !elem_of_difference, !elem_of_list_to_set.
  intros [[? _]|[? _]]; auto.
Qed.

Lemma true_on_without l0 y :
  true_on g [l0] → true_on g y → true_on g (without (negate l0) y).
Proof.
  intros [H0 _] [Hy Hoy]. split; [by apply satisfies_without_negate|].
  intros l Hl. apply Hoy. unfold without in Hl.
  by apply list_elem_of_filter in Hl as [_ ?].
Qed.

Lemma knowledge_true_intro x :
  KB0_single_literal x → all_clauses (true_on g) x → same_board g (game x) →
  knowledge_true g x.
Proof.
  intros Hwf Hall Hsame. split; [done|]. split; [|split; [|split; [|done]]].
  - intros c Hc. apply Hall. by left.
  - intros c l Hc. apply (Hall c). by right.
  - intros _ c Hc. apply (Hall c). by right.
Qed.

Lemma generate_clauses_true s1 ns n s2 row col :
  same_board g (game s1) → KB0_single_literal s1 → all_clauses (true_on g) s1 →
  game_get_unmarked_neighbors_and_mine_count (game s1) row col = Some (ns, n) →
  generate_clauses s1 ns n = Some s2 →
  KB0 s2 = KB0 s1 ∧ game s2 = game s1 ∧ all_clauses (true_on g) s2.
Proof.
  intros (Hr & Hc & Hm) Hwf Hall Hhint Hgen.
  pose proof (generate_clauses_frame _ _ _ _ Hgen) as (_ & Hg & _).
  apply hint_inv in Hhint as (_ & Hn & _ & _ & _ & Hcells).
  unfold generate_clauses in Hgen.
  destruct (hint_clauses ns n) as [cs|] eqn:Hcs; simpl in Hgen; [|done].
  apply (insert_each_all (true_on g) true_on_resolve true_on_without) in Hgen;
    [destruct Hgen; done|done|done|].
  intros c Hc'.
  destruct (hint_clauses_hold (mine_at (game s1)) ns n cs Hn Hcs c Hc') as [Hsat Hin].
  split.
  - destruct Hsat as (l & Hl & Hh). exists l. split; [done|].
    unfold holds in *. by rewrite <-Hm.
  - intros l Hl. specialize (Hin l Hl).
    destruct (Hcells _ _ Hin) as (_ & _ & ? & ? & _).
    unfold on_board. simpl. by rewrite <-Hr, <-Hc.
Qed.

Lemma same_board_mark_safe g0 row col g1 :
  same_board g g0 → game_mark_safe g0 row col = Some g1 → same_board g g1.
Proof.
  intros (Hr & Hc & Hm) (Hr' & Hc' & Hm')%game_mark_safe_mine_at.
  split; [congruence|]. split; [congruence|]. intros rc. by rewrite Hm', Hm.
Qed.

Lemma same_board_mark_mine g0 row col g1 :
  same_board g g0 → game_mark_mine g0 row col = Some g1 → same_board g g1.
Proof.
  intros (Hr & Hc & Hm) (Hr' & Hc' & Hm')%game_mark_mine_mine_at.
  split; [congruence|]. split; [congruence|]. intros rc. by rewrite Hm', Hm.
Qed.

(** One turn, taken while the game is not lost, keeps the knowledge
    true. *)
Lemma game_move_true self self' mv tr :
  knowledge_true g self → lose (game self) = Some false →
  game_move self = Some (self', mv, tr) → knowledge_true g self'.
Proof.
  intros (Hwf & HK & Hon0 & Hsat0 & Hsame) Hlose Hmove.
  specialize (Hsat0 Hlose).
  assert (all_clauses (true_on g) self) as Hall.
  { intros c [Hc|Hc]; [by apply HK|]. split; [by apply Hsat0|].
    intros l. by apply (Hon0 c). }
  unfold game_move in Hmove.
  assert (KB (is_stuck self).1 = KB self ∧ KB0 (is_stuck self).1 = KB0 self ∧
          game (is_stuck self).1 = game self) as (EK & E0 & Eg) by done.
  destruct (is_stuck self) as [s b]. simpl in EK, E0, Eg.
  assert (KB0_single_literal s) as Hwfs by (intros f; rewrite E0; apply Hwf).
  assert (all_clauses (true_on g) s) as Halls.
  { intros c. rewrite EK, E0. apply Hall. }
  assert (same_board g (game s)) as Hsames by (by rewrite Eg).
  clear Hwf HK Hall Hsame.
  destruct (b && negb (truthy_count (get_single_clause_count self))).
  - destruct (make_safe_guess s) as [[l c]|] eqn:Hguess.
    2:{ injection Hmove as <- <- <-. by apply knowledge_true_intro. }
    apply make_safe_guess_Some in Hguess as (Hc & Hl & Hpol).
    destruct (py_remove c (KB s)) as [K|] eqn:HK; simpl in Hmove; [|done].
    apply py_remove_subseteq in HK as HKsub. clear HK.
    destruct (mark_safe (set_KB s K) l) as [s1|] eqn:E1; simpl in Hmove; [|done].
    unfold mark_safe in E1. simpl in E1.
    destruct (game_mark_safe (game s) l.1.1 l.1.2) as [g1|] eqn:Hmark;
      simpl in E1; [|done].
    injection E1 as <-.
    destruct (get_unmarked_neighbors_and_mine_count _ l) as [[ns n]|] eqn:Hhint;
      simpl in Hmove; [|done].
    destruct (generate_clauses _ ns n) as [s2|] eqn:Hgen; simpl in Hmove; [|done].
    injection Hmove as <- <- <-.
    pose proof (same_board_mark_safe _ _ _ _ Hsames Hmark) as Hsame1.
    unfold get_unmarked_neighbors_and_mine_count in Hhint. simpl in Hhint.
    assert (all_clauses (true_on g) (set_game (set_KB s K) g1)) as Hall1.
    { intros x [Hx|Hx]; apply Halls; [left; by apply HKsub|by right]. }
    destruct (generate_clauses_true (set_game (set_KB s K) g1) ns n s2 l.1.1 l.1.2
                Hsame1 Hwfs Hall1 Hhint Hgen) as (H0 & Hg & Hall2).
    simpl in H0, Hg.
    assert (true_on g c) as Hcq by (apply Halls; by left).
    assert (on_board g (l.1.1, l.1.2)) as Honl by (by apply Hcq).
    split; [|split; [|split; [|split]]].
    + intros f Hf. simpl in Hf. unfold py_add in Hf.
      apply elem_of_union in Hf as [Hf|Hf]; [by apply elem_of_singleton in Hf as ->|].
      rewrite H0 in Hf. by apply Hwfs.
    + intros x Hx. apply Hall2. by left.
    + intros x l' Hx Hl'. simpl in Hx. unfold py_add in Hx.
      apply elem_of_union in Hx as [Hx|Hx].
      * apply elem_of_singleton in Hx as ->.
        by apply list_elem_of_singleton in Hl' as ->.
      * rewrite H0 in Hx. apply (Halls x); [by right|done].
    + simpl. rewrite Hg. simpl. intros Hlose1 x Hx. unfold py_add in Hx.
      apply elem_of_union in Hx as [Hx|Hx].
      * apply elem_of_singleton in Hx as ->. apply satisfies_single.
        destruct Hsames as (Hr & Hcc & Hm). destruct Honl as [Hrow Hcol].
        simpl in Hrow, Hcol. rewrite Eg in Hmark.
        rewrite (lose_mark_safe (game self) g1 l.1.1 l.1.2 false) in Hlose1;
          [|rewrite <-Eg; lia|rewrite <-Eg; lia|done|done].
        injection Hlose1 as Hmine. simpl in Hmine.
        unfold holds. rewrite <-Hm, Eg, Hmine. done.
      * rewrite H0 in Hx. apply (Halls x). by right.
    + simpl. by rewrite Hg.
  - destruct (find_single_literal_clause s) as [sc|] eqn:Hf.
    + assert (length sc = 1 ∧ sc ∈ KB s) as [Hlen Hsc].
      { unfold find_single_literal_clause in Hf.
        assert (sc ∈ filter (λ c : clause, length c = 1) (iter_clauses (KB s))) as Hin.
        { destruct (filter _ _); [done|]. injection Hf as ->. left. }
        apply list_elem_of_filter in Hin as [? Hin].
        by apply elem_of_iter_clauses in Hin. }
      destruct sc as [|l0 [|??]]; try done. simpl in Hmove.
      destruct (if negb l0.2 then _ else _) as [s1|] eqn:E1; simpl in Hmove; [|done].
      destruct (py_remove _ _) as [K|] eqn:HK; simpl in Hmove; [|done].
      injection Hmove as <- <- <-.
      apply py_remove_subseteq in HK as HKsub. simpl in HKsub.
      assert (KB0 s1 = KB0 s ∧ all_clauses (true_on g) s1 ∧ same_board g (game s1))
        as (H0 & Hall1 & Hsame1).
      { destruct (negb l0.2).
        - destruct (mark_safe s l0) as [s2|] eqn:E2; simpl in E1; [|done].
          unfold mark_safe in E2.
          destruct (game_mark_safe (game s) l0.1.1 l0.1.2) as [g1|] eqn:Hmark;
            simpl in E2; [|done].
          injection E2 as <-.
          destruct (get_unmarked_neighbors_and_mine_count _ l0) as [[ns n]|] eqn:Hhint;
            simpl in E1; [|done].
          pose proof (same_board_mark_safe _ _ _ _ Hsames Hmark) as Hsame1.
          unfold get_unmarked_neighbors_and_mine_count in Hhint. simpl in Hhint.
          destruct (generate_clauses_true (set_game s g1) ns n s1 l0.1.1 l0.1.2
                      Hsame1 Hwfs Halls Hhint E1) as (H0 & Hg & Hall2).
          split; [done|]. split; [done|]. by rewrite Hg.
        - unfold mark_mine in E1.
          destruct (game_mark_mine (game s) l0.1.1 l0.1.2) as [g1|] eqn:Hmark;
            simpl in E1; [|done].
          injection E1 as <-. split; [done|]. split; [done|].
          by eapply same_board_mark_mine. }
      apply knowledge_true_intro; [| |done].
      * intros f Hf'. simpl in Hf'. unfold py_add in Hf'.
        apply elem_of_union in Hf' as [Hf'|Hf'];
          [by apply elem_of_singleton in Hf' as ->|].
        rewrite H0 in Hf'. by apply Hwfs.
      * intros x [Hx|Hx]; simpl in Hx.
        -- apply Hall1. left. by apply HKsub.
        -- unfold py_add in Hx.
           apply elem_of_union in Hx as [Hx|Hx]; [|apply Hall1; by right].
           apply elem_of_singleton in Hx as ->. apply Halls. by left.
    + destruct (pairwise_matching_KB0 s) as [s1|] eqn:E1; simpl in Hmove; [|done].
      injection Hmove as <- <- <-.
      pose proof (pairwise_matching_KB0_frame _ _ E1) as (_ & Hg & _).
      apply (pairwise_matching_KB0_all (true_on g) true_on_resolve true_on_without)
        in E1 as [H0 Hall1]; [|done|done].
      apply knowledge_true_intro; [|done|by rewrite Hg].
      intros f. rewrite H0. apply Hwfs.
Qed.

Lemma play_true k self self' :
  knowledge_true g self → play k self = Some self' → knowledge_true g self'.
Proof.
  revert self. induction k as [|k IH]; intros self Hinv; simpl.
  - by intros [= <-].
  - destruct (win (game self)) as [[]|]; simpl; [by intros [= <-]| |done].
    destruct (lose (game self)) as [[]|] eqn:Hlose; simpl; [by intros [= <-]| |done].
    destruct (game_move self) as [[[s1 mv] tr]|] eqn:Hmove; simpl; [|done].
    apply IH. by eapply game_move_true.
Qed.

Lemma init_true (safe : gset cell) :
  (∀ rc, rc ∈ safe → on_board g rc ∧ mine_at g rc = false) →
  knowledge_true g (init g safe).
Proof.
  intros Hsafe. apply knowledge_true_intro; [| |done].
  - intros f Hf. simpl in Hf. by apply elem_of_empty in Hf.
  - intros c [Hc|Hc]; simpl in Hc; [|by apply elem_of_empty in Hc].
    apply elem_of_map in Hc as (rc & -> & Hrc).
    destruct (Hsafe rc Hrc) as [Hon Hmine]. split.
    + apply satisfies_single. unfold holds. simpl. by destruct rc.
    + intros l ->%list_elem_of_singleton. simpl. by destruct rc.
Qed.

End Play.

(** Over a whole game (the loop of [RunGame.py], which stops calling
    [game_move] once the game is won or lost), on a board whose seeded safe
    cells are cells of the board without a mine: every clause of [KB] is
    true of the board, so none is empty; [KB0] holds single-literal
    clauses; and every committed fact is true of the board unless a
    revealed mine has lost the game.  This holds for every iteration
    order. *)
Theorem play_keeps_knowledge_true {O : SetOrder} (g : MineSweeperGame)
    (safe : gset cell) (k : nat) (self : MineSweeperPlayer) :
  (∀ rc, rc ∈ safe → on_board g rc ∧ mine_at g rc = false) →
  play k (init g safe) = Some self →
  (∀ c, c ∈ KB self → true_on g c ∧ c ≠ []) ∧
  KB0_single_literal self ∧
  (lose (game self) = Some false → ∀ c, c ∈ KB0 self → true_on g c) ∧
  same_board g (game self).
Proof.
  intros Hsafe Hplay.
  destruct (play_true g k _ _ (init_true g safe Hsafe) Hplay)
    as (Hwf & HK & Hon0 & Hsat0 & Hsame).
  split; [|split; [done|split; [|done]]].
  - intros c Hc. split; [by apply HK|].
    apply (satisfies_nonempty (mine_at g)). by apply HK.
  - intros Hlose c Hc. split; [by apply Hsat0|]. intros l. by apply (Hon0 c).
Qed.

Lemma play_keeps_knowledge_true_witness :
  ∃ self, play (O:=elements_order) 12 (init small_game {[ (1, 0)%Z ]}) = Some self ∧
          ∀ c, c ∈ KB self → true_on small_game c ∧ c ≠ [].
Proof.
  assert (∀ rc, rc ∈ ({[ (1, 0)%Z ]} : gset cell) →
                on_board small_game rc ∧ mine_at small_game rc = false) as Hsafe.
  { intros rc Hrc. apply elem_of_singleton in Hrc as ->.
    split; [unfold on_board; simpl; lia|reflexivity]. }
  destruct (play (O:=elements_order) 12 (init small_game {[ (1, 0)%Z ]}))
    as [self|] eqn:E; [|by vm_compute in E].
  exists self. split; [reflexivity|].
  exact (proj1 (play_keeps_knowledge_true (O:=elements_order) small_game
                  {[ (1, 0)%Z ]} 12 self Hsafe E)).
Defined.
